(** * bloom: closed-form geometry formulas, instance graphs and the [useDiagram] hook

    The repository declares diagrams for an external constraint engine.
    Three parts of it carry behaviour of their own and are embedded here:

    - the symbolic formulas of the style rules (circumcircle of three points,
      eigenspace lines of a 2x2 map), built with the engine's expression
      constructors [bloom.add], [bloom.mul], ...;
    - the instance graphs built by the [defineSubstance] functions;
    - the [useDiagram] hook, which drives the asynchronous build. *)

From Stdlib Require Import Reals Lra Psatz List ZArith Bool Arith Lia String.
From Stdlib Require PrimFloat Uint63 FloatOps FloatAxioms.
Import ListNotations.

(** ** The expression algebra of the engine *)

Module Bloom.

(** Scalar expression trees, as built by [bloom.add], [bloom.sub],
    [bloom.mul], [bloom.div] and [bloom.sqrt].  Leaves are the numeric
    literals written in the scripts (integers, or decimal constants given
    as a fraction) and the scalar inputs owned by the engine (coordinates
    of shapes, [input({init, optimized})]). *)
Inductive Num : Type :=
  | Lit (z : Z)
  | Frac (p : Z) (q : positive)
  | Input (i : nat)
  | Add (x y : Num)
  | Sub (x y : Num)
  | Mul (x y : Num)
  | Div (x y : Num)
  | Sqrt (x : Num).

(** 2-vectors are JavaScript arrays [[x, y]]. *)
Definition Vec2 : Type := (Num * Num)%type.

Local Open Scope R_scope.

(** Partial division and square root over the reals: the value is absent
    where exact arithmetic has none (the engine's floating point yields
    [Infinity] or [NaN] there). *)
Definition pdiv (a b : R) : option R :=
  if Req_dec_T b 0 then None else Some (a / b).

Definition psqrt (a : R) : option R :=
  if Rlt_dec a 0 then None else Some (sqrt a).

Definition obind {A B : Type} (o : option A) (f : A -> option B) : option B :=
  match o with
  | Some a => f a
  | None => None
  end.

Definition olift2 (f : R -> R -> R) (a b : option R) : option R :=
  obind a (fun x => obind b (fun y => Some (f x y))).

(** Exact-arithmetic value of an expression under an assignment of the
    inputs. *)
Fixpoint eval (env : nat -> R) (e : Num) : option R :=
  match e with
  | Lit z => Some (IZR z)
  | Frac p q => Some (IZR p / IZR (Zpos q))
  | Input i => Some (env i)
  | Add x y => olift2 Rplus (eval env x) (eval env y)
  | Sub x y => olift2 Rminus (eval env x) (eval env y)
  | Mul x y => olift2 Rmult (eval env x) (eval env y)
  | Div x y => obind (eval env x) (fun a => obind (eval env y) (pdiv a))
  | Sqrt x => obind (eval env x) psqrt
  end.

(** Value of a vector expression: defined when both components are. *)
Definition evalv (env : nat -> R) (v : Vec2) : option (R * R) :=
  obind (eval env (fst v)) (fun x =>
  obind (eval env (snd v)) (fun y => Some (x, y))).

(** The same trees as the engine computes them: in IEEE 754 binary64, where
    a division by zero gives an infinity or NaN and the square root of a
    negative number gives NaN.  An integer literal is read exactly (the
    scripts use small ones) and [Frac p q] as the quotient of two such
    integers rounded once, which is the number JavaScript reads a decimal
    literal [p/q] as. *)
Definition float_of_Z (z : Z) : PrimFloat.float :=
  match z with
  | Z0 => PrimFloat.zero
  | Zpos _ => PrimFloat.of_uint63 (Uint63.of_Z z)
  | Zneg p => PrimFloat.opp (PrimFloat.of_uint63 (Uint63.of_Z (Zpos p)))
  end.

Fixpoint feval (env : nat -> PrimFloat.float) (e : Num) : PrimFloat.float :=
  match e with
  | Lit z => float_of_Z z
  | Frac p q => PrimFloat.div (float_of_Z p) (float_of_Z (Zpos q))
  | Input i => env i
  | Add x y => PrimFloat.add (feval env x) (feval env y)
  | Sub x y => PrimFloat.sub (feval env x) (feval env y)
  | Mul x y => PrimFloat.mul (feval env x) (feval env y)
  | Div x y => PrimFloat.div (feval env x) (feval env y)
  | Sqrt x => PrimFloat.sqrt (feval env x)
  end.

(** A binary64 value that is a number and not an infinity. *)
Definition finite (x : PrimFloat.float) : bool :=
  negb (PrimFloat.is_nan x) && negb (PrimFloat.is_infinity x).

(** The engine's [EPS_DENOM = 10e-6], which it adds to a norm before
    dividing by it. *)
Definition EPS_DENOM : Num := Frac 1 100000.

Definition eps_denom : R := 1 / 100000.

(** Vector operations of [bloom.ops], on 2-vectors.  [vdist] is the
    Euclidean distance; [vnormalize] divides a vector by its length plus
    [EPS_DENOM], so that the zero vector is sent to itself. *)
Module ops.

Definition vsub (v w : Vec2) : Vec2 :=
  (Sub (fst v) (fst w), Sub (snd v) (snd w)).

Definition vdot (v w : Vec2) : Num :=
  Add (Mul (fst v) (fst w)) (Mul (snd v) (snd w)).

Definition vnorm (v : Vec2) : Num := Sqrt (vdot v v).

Definition vdist (v w : Vec2) : Num := vnorm (vsub v w).

Definition vdiv (v : Vec2) (c : Num) : Vec2 :=
  (Div (fst v) c, Div (snd v) c).

Definition vnormalize (v : Vec2) : Vec2 := vdiv v (Add (vnorm v) EPS_DENOM).

(** A 2x2 matrix is an array of two rows. *)
Definition Mat2 : Type := (Vec2 * Vec2)%type.

Definition mtrans (m : Mat2) : Mat2 :=
  ((fst (fst m), fst (snd m)), (snd (fst m), snd (snd m))).

Definition mvmul (m : Mat2) (v : Vec2) : Vec2 :=
  (vdot (fst m) v, vdot (snd m) v).

Definition vadd (v w : Vec2) : Vec2 :=
  (Add (fst v) (fst w), Add (snd v) (snd w)).

(** [vmul(c, v)]: the scalar comes first. *)
Definition vmul (c : Num) (v : Vec2) : Vec2 :=
  (Mul c (fst v), Mul c (snd v)).

(** Element-wise product and quotient of two vectors. *)
Definition ewvvmul (v w : Vec2) : Vec2 :=
  (Mul (fst v) (fst w), Mul (snd v) (snd w)).

Definition ewvvdiv (v w : Vec2) : Vec2 :=
  (Div (fst v) (fst w), Div (snd v) (snd w)).

End ops.

End Bloom.

(** ** Geometry diagram: the circumcircle rule of [applyStyle] *)

Module Circumcircle.
Import Bloom.

Section Rule.

(** [const [x1, y1] = p.icon.center], and likewise for [q] and [r]. *)
Variables x1 y1 x2 y2 x3 y3 : Num.

Definition d : Num :=
  Mul (Lit 2)
      (Add (Mul x1 (Sub y2 y3))
           (Add (Mul x2 (Sub y3 y1))
                (Mul x3 (Sub y1 y2)))).

Definition ux : Num :=
  Div (Add (Mul (Add (Mul x1 x1) (Mul y1 y1)) (Sub y2 y3))
           (Add (Mul (Add (Mul x2 x2) (Mul y2 y2)) (Sub y3 y1))
                (Mul (Add (Mul x3 x3) (Mul y3 y3)) (Sub y1 y2))))
      d.

Definition uy : Num :=
  Div (Add (Mul (Add (Mul x1 x1) (Mul y1 y1)) (Sub x3 x2))
           (Add (Mul (Add (Mul x2 x2) (Mul y2 y2)) (Sub x1 x3))
                (Mul (Add (Mul x3 x3) (Mul y3 y3)) (Sub x2 x1))))
      d.

Definition circumcenter : Vec2 := (ux, uy).

Definition circumradius : Num := ops.vdist circumcenter (x1, y1).

End Rule.

Local Open Scope R_scope.

(** The algorithm as the specification words it, over real coordinates. *)
Section Spec.

Variables X1 Y1 X2 Y2 X3 Y3 : R.

Definition spec_D : R :=
  2 * (X1 * (Y2 - Y3) + X2 * (Y3 - Y1) + X3 * (Y1 - Y2)).

Definition spec_ux : option R :=
  pdiv ((X1 * X1 + Y1 * Y1) * (Y2 - Y3)
        + (X2 * X2 + Y2 * Y2) * (Y3 - Y1)
        + (X3 * X3 + Y3 * Y3) * (Y1 - Y2)) spec_D.

Definition spec_uy : option R :=
  pdiv ((X1 * X1 + Y1 * Y1) * (X3 - X2)
        + (X2 * X2 + Y2 * Y2) * (X1 - X3)
        + (X3 * X3 + Y3 * Y3) * (X2 - X1)) spec_D.

(** Euclidean distance between two points of the plane. *)
Definition dist2 (px py qx qy : R) : R :=
  sqrt ((px - qx) * (px - qx) + (py - qy) * (py - qy)).

Definition spec_radius : option R :=
  obind spec_ux (fun u => obind spec_uy (fun v => Some (dist2 u v X1 Y1))).

(** The three points lie on one line: the doubled signed area of the
    triangle they span vanishes. *)
Definition collinear : Prop :=
  (X2 - X1) * (Y3 - Y1) - (X3 - X1) * (Y2 - Y1) = 0.

End Spec.

End Circumcircle.

(** ** Eigenvector diagram: the eigenspace lines of [applyStyle] *)

Module Eigen.
Import Bloom.

Section Lines.

(** [const [a, c] = substance.ihat.vec; const [b, d] = substance.jhat.vec]. *)
Variables a b c d : Num.

(** The argument of [bloom.sqrt], written out twice in the source. *)
Definition radicand : Num :=
  Add (Add (Add (Mul a a) (Mul (Lit 4) (Mul b c)))
           (Mul (Lit (-2)) (Mul a d)))
      (Mul d d).

Definition el1_vec : Vec2 :=
  ops.vnormalize
    (Div (Mul (Lit (-1))
              (Add (Add (Mul (Lit (-1)) a) d)
                   (Sqrt radicand)))
         (Mul (Lit 2) c),
     Lit 1).

Definition el2_vec : Vec2 :=
  ops.vnormalize
    (Div (Mul (Lit (-1))
              (Add (Add (Mul (Lit (-1)) a) d)
                   (Mul (Lit (-1)) (Sqrt radicand))))
         (Mul (Lit 2) c),
     Lit 1).


End Lines.

Local Open Scope R_scope.

Section Spec.

Variables A B C D : R.

(** The discriminant of the characteristic polynomial. *)
Definition discr : R := (A - D) * (A - D) + 4 * B * C.

(** [normalize([x, 1])] as the engine computes it: the vector divided by
    its length plus [EPS_DENOM]. *)
Definition normalize_dir (x : R) : R * R :=
  (x / (sqrt (x * x + 1 * 1) + eps_denom), 1 / (sqrt (x * x + 1 * 1) + eps_denom)).

(** The direction as the specification words it:
    [normalize([(d - a +- sqrt((a-d)^2 + 4bc)) / (2c), 1])], with [sgn] the
    sign before the square root. *)
Definition spec_dir (sgn : R) : R * R :=
  normalize_dir ((D - A + sgn * sqrt discr) / (2 * C)).

(** The direction the source builds: the same sum, negated. *)
Definition code_dir (sgn : R) : R * R :=
  normalize_dir (- 1 * ((- 1 * A + D) + sgn * sqrt discr) / (2 * C)).


(** Two plane vectors are parallel when their cross product vanishes. *)
Definition parallel (v w : R * R) : Prop :=
  fst v * snd w - snd v * fst w = 0.

End Spec.

End Eigen.

(** ** Instance graphs: [defineDomain] and [defineSubstance] *)

Module Substance.

Local Open Scope string_scope.

(** The types declared by [db.type()] in the geometry domains. *)
Inductive Ty : Type := Point | Edge | Circle.

(** The predicates declared by [db.predicate()]. *)
Inductive Pred : Type :=
  | Connects
  | Perpendicular
  | On
  | DrawCircleWithRadius
  | DrawCircumcircle
  | LabelPredicate
  | NotEqual.

(** An instance handle minted by a type constructor. *)
Record Inst : Type := mkInst { ty : Ty; uid : nat }.

(** A relation fact over a tuple of instances. *)
Record Fact : Type := mkFact { pred : Pred; args : list Inst }.

(** What the builder has recorded so far: the instances, the facts, and the
    attributes assigned on handles ([A.label = "A"]). *)
Record Graph : Type := mkGraph {
  insts : list Inst;
  facts : list Fact;
  attrs : list (Inst * string * string)
}.

Definition empty : Graph := mkGraph [] [] [].

Definition Ty_eqb (s t : Ty) : bool :=
  match s, t with
  | Point, Point | Edge, Edge | Circle, Circle => true
  | _, _ => false
  end.

Definition Pred_eqb (p q : Pred) : bool :=
  match p, q with
  | Connects, Connects | Perpendicular, Perpendicular | On, On
  | DrawCircleWithRadius, DrawCircleWithRadius
  | DrawCircumcircle, DrawCircumcircle
  | LabelPredicate, LabelPredicate | NotEqual, NotEqual => true
  | _, _ => false
  end.

Definition Inst_eqb (x y : Inst) : bool :=
  Ty_eqb (ty x) (ty y) && Nat.eqb (uid x) (uid y).

Fixpoint args_eqb (xs ys : list Inst) : bool :=
  match xs, ys with
  | [], [] => true
  | x :: xs', y :: ys' => Inst_eqb x y && args_eqb xs' ys'
  | _, _ => false
  end.

(** The builder is threaded through every call of a script. *)
Definition M (A : Type) : Type := Graph -> A * Graph.

Definition ret {A : Type} (a : A) : M A := fun g => (a, g).

Definition bind {A B : Type} (m : M A) (k : A -> M B) : M B :=
  fun g => let (a, g') := m g in k a g'.

Notation "x <- m ;; k" := (bind m (fun x => k))
  (at level 61, m at next level, right associativity).
Notation "m ;;; k" := (bind m (fun _ => k))
  (at level 61, right associativity).

(** Calling a type constructor mints a fresh instance. *)
Definition new (t : Ty) : M Inst :=
  fun g =>
    let x := mkInst t (List.length (insts g)) in
    (x, mkGraph (insts g ++ [x]) (facts g) (attrs g)).

(** Calling a predicate records a fact. *)
Definition assert (p : Pred) (xs : list Inst) : M unit :=
  fun g => (tt, mkGraph (insts g) (facts g ++ [mkFact p xs]) (attrs g)).

(** [x.key = value]. *)
Definition set_attr (x : Inst) (key value : string) : M unit :=
  fun g => (tt, mkGraph (insts g) (facts g) (attrs g ++ [(x, key, value)])).

(** [P.test(xs)]: does the relation hold for this tuple? *)
Definition test (g : Graph) (p : Pred) (xs : list Inst) : bool :=
  existsb (fun f => Pred_eqb (pred f) p && args_eqb (args f) xs) (facts g).

(** Helpers of [defineDomain]. *)
Definition Segment (pointA pointB : Inst) : M Inst :=
  edge <- new Edge ;;
  assert Connects [edge; pointA; pointB] ;;;
  ret edge.

Definition CircleRadius (center radius : Inst) : M Inst :=
  circle <- new Circle ;;
  assert DrawCircleWithRadius [circle; center; radius] ;;;
  ret circle.

Definition Circumcircle (pointA pointB pointC : Inst) : M Inst :=
  circle <- new Circle ;;
  assert DrawCircumcircle [circle; pointA; pointB; pointC] ;;;
  ret circle.

Definition Label (obj : Inst) (label : string) : M unit :=
  set_attr obj "label" label ;;;
  assert LabelPredicate [obj].

(** The named instances a geometry script returns. *)
Record Triangle : Type := mkTriangle {
  tA : Inst; tB : Inst; tC : Inst;
  tAB : Inst; tBC : Inst; tAC : Inst;
  tAD : Inst; tBE : Inst; tCF : Inst;
  tD : Inst; tE : Inst; tF : Inst; tG : Inst
}.

(** [defineSubstance] of [diagrams/geometry/substance.ts]. *)
Definition defineSubstance : M Triangle :=
  A <- new Point ;;
  B <- new Point ;;
  C <- new Point ;;
  D <- new Point ;;
  E <- new Point ;;
  F <- new Point ;;
  G <- new Point ;;
  c <- CircleRadius G F ;;
  Circumcircle A B C ;;;
  AB <- Segment A B ;;
  BC <- Segment B C ;;
  AC <- Segment A C ;;
  Label AB "a" ;;;
  Label BC "b" ;;;
  Label AC "c" ;;;
  GF <- Segment G F ;;
  Label GF "r" ;;;
  AD <- Segment A D ;;
  assert Perpendicular [BC; AD] ;;;
  BE <- Segment B E ;;
  assert Perpendicular [AC; BE] ;;;
  CF <- Segment C F ;;
  assert Perpendicular [AB; CF] ;;;
  assert On [D; BC] ;;;
  assert On [E; AC] ;;;
  assert On [F; AB] ;;;
  assert On [G; AD] ;;;
  assert On [G; BE] ;;;
  assert On [G; CF] ;;;
  set_attr A "label" "A" ;;;
  set_attr B "label" "B" ;;;
  set_attr C "label" "C" ;;;
  set_attr D "label" "D" ;;;
  set_attr E "label" "E" ;;;
  set_attr F "label" "F" ;;;
  set_attr G "label" "G" ;;;
  ret (mkTriangle A B C AB BC AC AD BE CF D E F G).

(** [defineSubstance] of the single-file geometry diagram (the orthocentre
    construction without circles and labels). *)
Definition defineSubstance_plain : M Triangle :=
  A <- new Point ;;
  B <- new Point ;;
  C <- new Point ;;
  D <- new Point ;;
  E <- new Point ;;
  F <- new Point ;;
  G <- new Point ;;
  AB <- Segment A B ;;
  BC <- Segment B C ;;
  AC <- Segment A C ;;
  AD <- Segment A D ;;
  assert Perpendicular [BC; AD] ;;;
  BE <- Segment B E ;;
  assert Perpendicular [AC; BE] ;;;
  CF <- Segment C F ;;
  assert Perpendicular [AB; CF] ;;;
  assert On [D; BC] ;;;
  assert On [E; AC] ;;;
  assert On [F; AB] ;;;
  assert On [G; AD] ;;;
  assert On [G; BE] ;;;
  assert On [G; CF] ;;;
  set_attr A "name" "A" ;;;
  set_attr B "name" "B" ;;;
  set_attr C "name" "C" ;;;
  set_attr D "name" "D" ;;;
  set_attr E "name" "E" ;;;
  set_attr F "name" "F" ;;;
  set_attr G "name" "G" ;;;
  ret (mkTriangle A B C AB BC AC AD BE CF D E F G).

(** The named instances of the tangent-lines script. *)
Record Tangents : Type := mkTangents {
  pO : Inst; pC : Inst; pA : Inst; pB : Inst; pR : Inst;
  sCA : Inst; sCB : Inst; sOA : Inst; sOB : Inst; sOR : Inst;
  circle : Inst
}.

(** [defineSubstance] of the tangent-lines script (two tangents from [C] to
    the circle centred at [O]). *)
Definition defineSubstance_tangents : M Tangents :=
  O <- new Point ;;
  R <- new Point ;;
  C <- new Point ;;
  A <- new Point ;;
  B <- new Point ;;
  assert NotEqual [A; B] ;;;
  circle <- CircleRadius O R ;;
  CA <- Segment C A ;;
  CB <- Segment C B ;;
  OA <- Segment O A ;;
  OB <- Segment O B ;;
  OR <- Segment O R ;;
  assert On [A; circle] ;;;
  assert On [B; circle] ;;;
  assert On [R; circle] ;;;
  assert Perpendicular [CA; OA] ;;;
  assert Perpendicular [CB; OB] ;;;
  set_attr O "label" "O" ;;;
  set_attr C "label" "C" ;;;
  set_attr A "label" "A" ;;;
  set_attr B "label" "B" ;;;
  set_attr R "label" "R" ;;;
  Label CA "" ;;;
  Label CB "" ;;;
  Label OA "r" ;;;
  Label OB "r" ;;;
  Label OR "r" ;;;
  ret (mkTangents O C A B R CA CB OA OB OR circle).

(** The [On] facts of a graph, and those about one point. *)
Definition on_facts (g : Graph) : list Fact :=
  filter (fun f => Pred_eqb (pred f) On) (facts g).

Definition carriers_of (g : Graph) (p : Inst) : list Inst :=
  flat_map
    (fun f =>
       match args f with
       | [q; s] => if Inst_eqb q p then [s] else []
       | _ => []
       end)
    (on_facts g).

(** An [On] fact is well formed when it relates one point to one carrier
    shape (an edge or a circle), both minted in this graph. *)
Definition is_carrier (x : Inst) : bool :=
  match ty x with
  | Edge | Circle => true
  | Point => false
  end.

Definition mem_inst (x : Inst) (xs : list Inst) : bool :=
  existsb (Inst_eqb x) xs.

Definition on_fact_ok (g : Graph) (f : Fact) : bool :=
  match args f with
  | [p; s] =>
      Ty_eqb (ty p) Point && is_carrier s
      && mem_inst p (insts g) && mem_inst s (insts g)
  | _ => false
  end.

(** No fact is recorded twice. *)
Fixpoint distinct_facts (fs : list Fact) : bool :=
  match fs with
  | [] => true
  | f :: fs' =>
      negb (existsb (fun f' => Pred_eqb (pred f') (pred f)
                               && args_eqb (args f') (args f)) fs')
      && distinct_facts fs'
  end.

(** The invariant as the specification words it: every point has at most
    one [On] fact. *)
Definition on_unique (g : Graph) : Prop :=
  forall p : Inst, (List.length (carriers_of g p) <= 1)%nat.

(** Reading [x.key]: the value assigned last, if any. *)
Definition get_attr (g : Graph) (x : Inst) (key : string) : option string :=
  fold_left
    (fun acc a =>
       match a with
       | (y, k, v) => if Inst_eqb y x && String.eqb k key then Some v else acc
       end)
    (attrs g) None.

(** [v || dflt] on a string that may be undefined: the empty string is
    falsy. *)
Definition or_default (v : option string) (dflt : string) : string :=
  match v with
  | Some s => if String.eqb s "" then dflt else s
  | None => dflt
  end.

(** The texts of the label rules of [applyStyle]:
    [string: s.label || "d"] for a labelled edge and
    [string: p.label || "Unnamed"] for a point. *)
Definition edge_label_string (g : Graph) (s : Inst) : string :=
  or_default (get_attr g s "label") "d".

Definition point_label_string (g : Graph) (p : Inst) : string :=
  or_default (get_attr g p "label") "Unnamed".

End Substance.

(** ** The [useDiagram] hook *)

Module Hook.

Section UseDiagram.

(** The engine's diagram objects and the rejection reasons are opaque. *)
Variables Diagram Err : Type.

(** How the promise returned by [buildFn()] settles. *)
Inductive Outcome : Type :=
  | Resolved (built : Diagram)
  | Rejected (err : Err).

(** One run of the effect: the build function it was run for (a reference
    identity), its closure variable [cancelled], and the outcome of its
    promise once settled. *)
Record Run : Type := mkRun {
  fn : nat;
  cancelled : bool;
  outcome : option Outcome
}.

Inductive Phase : Type := Fresh | Mounted | Gone.

(** The hook instance: the [useState] cell, the dependency array of the last
    effect run, every effect run so far (oldest first; the last one is the
    run whose cleanup React holds), and the [console.error] log. *)
Record World : Type := mkWorld {
  phase : Phase;
  diagram : option Diagram;
  deps : option nat;
  runs : list Run;
  console : list Err
}.

(** [useState<Diagram | null>(null)]. *)
Definition init : World := mkWorld Fresh None None [] [].

Definition setDiagram (v : option Diagram) (w : World) : World :=
  mkWorld (phase w) v (deps w) (runs w) (console w).

Definition console_error (e : Err) (w : World) : World :=
  mkWorld (phase w) (diagram w) (deps w) (runs w) (console w ++ [e]).

Definition set_runs (rs : list Run) (w : World) : World :=
  mkWorld (phase w) (diagram w) (deps w) rs (console w).

Fixpoint update_run (k : nat) (f : Run -> Run) (rs : list Run) : list Run :=
  match rs, k with
  | [], _ => []
  | r :: rs', O => f r :: rs'
  | r :: rs', S k' => r :: update_run k' f rs'
  end.

(** The identifier of the newest run, if any. *)
Definition newest (w : World) : option nat :=
  match runs w with
  | [] => None
  | _ :: rs => Some (List.length rs)
  end.

(** The body of the effect: [let cancelled = false; setDiagram(null);] and
    the start of the async function up to [await buildFn()]. *)
Definition effect (f : nat) (w : World) : World :=
  let w1 := set_runs (runs w ++ [mkRun f false None]) w in
  setDiagram None w1.

(** The cleanup returned by the effect: [cancelled = true]. *)
Definition cleanup (k : nat) (w : World) : World :=
  set_runs (update_run k (fun r => mkRun (fn r) true (outcome r)) (runs w)) w.

Definition cleanup_newest (w : World) : World :=
  match newest w with
  | Some k => cleanup k w
  | None => w
  end.

(** The rest of the async function of run [k], resumed when its promise
    settles: the [try] branch on fulfilment, the [catch] branch on
    rejection. *)
Definition resume (r : Run) (o : Outcome) (w : World) : World :=
  match o with
  | Resolved built =>
      if negb (cancelled r) then setDiagram (Some built) w else w
  | Rejected err =>
      let w1 := console_error err w in
      if negb (cancelled r) then setDiagram None w1 else w1
  end.

(** What can happen to a hook instance. *)
Inductive Event : Type :=
  | Render (buildFn : nat)
  | StrictReplay
  | Settle (k : nat) (o : Outcome)
  | Unmount.

Definition same_deps (old : option nat) (f : nat) : bool :=
  match old with
  | Some g => Nat.eqb g f
  | None => false
  end.

(** React's part: an effect is re-run when its dependency array changed
    (after the cleanup of the previous run), strict mode replays the effect
    of a mounted component with unchanged dependencies, a promise settles at
    most once, and unmounting runs the last cleanup.  A render commits
    together with the cleanup and the effect it triggers, and [setDiagram]
    takes effect at once: the state is followed at the points where the code
    of the hook runs. *)
Definition step (w : World) (e : Event) : World :=
  match e with
  | Render f =>
      match phase w with
      | Gone => w
      | Fresh =>
          effect f (mkWorld Mounted (diagram w) (Some f) (runs w) (console w))
      | Mounted =>
          if same_deps (deps w) f then w
          else
            let w1 := cleanup_newest w in
            effect f (mkWorld Mounted (diagram w1) (Some f) (runs w1) (console w1))
      end
  | StrictReplay =>
      match phase w, deps w with
      | Mounted, Some f => effect f (cleanup_newest w)
      | _, _ => w
      end
  | Settle k o =>
      match nth_error (runs w) k with
      | Some r =>
          match outcome r with
          | None =>
              let w1 :=
                set_runs (update_run k (fun r => mkRun (fn r) (cancelled r) (Some o))
                                     (runs w)) w in
              resume r o w1
          | Some _ => w
          end
      | None => w
      end
  | Unmount =>
      match phase w with
      | Mounted =>
          let w1 := cleanup_newest w in
          mkWorld Gone (diagram w1) (deps w1) (runs w1) (console w1)
      | _ => w
      end
  end.

(** An execution is a sequence of events from the initial state. *)
Definition exec (evs : list Event) : World := fold_left step evs init.

(** Run [k] is superseded when a later run exists (the build function
    changed, or strict mode replayed the effect) or the component is gone. *)
Definition superseded (w : World) (k : nat) : Prop :=
  (S k < List.length (runs w))%nat \/ phase w = Gone.

(** Run [k] is in flight when it exists and its promise has not settled. *)
Definition in_flight (w : World) (k : nat) : Prop :=
  exists r, nth_error (runs w) k = Some r /\ outcome r = None.

(** The number of [buildFn()] calls made so far. *)
Definition build_calls (w : World) : nat := List.length (runs w).

(** What every reachable state satisfies: no run exists before the first
    render; the [cancelled] flag of a run is set exactly when the run is
    superseded; and a diagram held in the state is what the promise of the
    newest run resolved to. *)
Definition Inv (w : World) : Prop :=
  (phase w = Fresh -> runs w = [])
  /\ (forall k r, nth_error (runs w) k = Some r ->
        (cancelled r = true <-> superseded w k))
  /\ (forall dgm, diagram w = Some dgm ->
        exists k r, newest w = Some k
                    /\ nth_error (runs w) k = Some r
                    /\ outcome r = Some (Resolved dgm)).

End UseDiagram.

Arguments Resolved {Diagram Err} built.
Arguments Rejected {Diagram Err} err.
Arguments Render {Diagram Err} buildFn.
Arguments StrictReplay {Diagram Err}.
Arguments Settle {Diagram Err} k o.
Arguments Unmount {Diagram Err}.
Arguments init {Diagram Err}.
Arguments step {Diagram Err} w e.
Arguments exec {Diagram Err} evs.
Arguments superseded {Diagram Err} w k.
Arguments in_flight {Diagram Err} w k.
Arguments build_calls {Diagram Err} w.
Arguments Inv {Diagram Err} w.
Arguments effect {Diagram Err} f w.
Arguments cleanup {Diagram Err} k w.
Arguments cleanup_newest {Diagram Err} w.
Arguments resume {Diagram Err} r o w.
Arguments setDiagram {Diagram Err} v w.
Arguments console_error {Diagram Err} e w.
Arguments set_runs {Diagram Err} rs w.
Arguments update_run {Diagram Err} k f rs.
Arguments mkRun {Diagram Err} fn cancelled outcome.
Arguments mkWorld {Diagram Err} phase diagram deps runs console.
Arguments newest {Diagram Err} w.
Arguments diagram {Diagram Err} w.
Arguments console {Diagram Err} w.
Arguments runs {Diagram Err} w.
Arguments phase {Diagram Err} w.
Arguments deps {Diagram Err} w.
Arguments outcome {Diagram Err} r.
Arguments cancelled {Diagram Err} r.
Arguments fn {Diagram Err} r.

End Hook.

(** ** Geometry diagram: the other rules of [applyStyle] *)

Module GeometryStyle.
Import Bloom.

Section OnRule.

(** [p.icon.center], [s.icon.start], [s.icon.end]. *)
Variables p start end_ : Vec2.

(** The quantity the [On] rule requires to equal 0:
    [ensure(bloom.constraints.equal(distance, 0))]. *)
Definition on_distance : Num :=
  let v1 := ops.vsub p start in
  let v1Norm := ops.vnormalize v1 in
  let v2 := ops.vsub end_ p in
  let v2Norm := ops.vnormalize v2 in
  ops.vdist v1Norm v2Norm.

End OnRule.

Section PerpendicularRule.

(** [s1.icon.start], [s1.icon.end], [s2.icon.start], [s2.icon.end]. *)
Variables start1 end1 start2 end2 : Vec2.

(** The quantity the [Perpendicular] rule requires to equal 0. *)
Definition dotProduct : Num :=
  let v1 := ops.vnormalize (ops.vsub start1 end1) in
  let v2 := ops.vnormalize (ops.vsub start2 end2) in
  ops.vdot v1 v2.

End PerpendicularRule.

Section LabelRule.

(** [s.icon.start], [s.icon.end]. *)
Variables start end_ : Vec2.

Definition center : Vec2 := ops.vdiv (ops.vadd start end_) (Lit 2).

Definition edgeNormalVector : Vec2 := ops.vnormalize (ops.vsub end_ start).

Definition perpendicularVector : Vec2 :=
  (snd edgeNormalVector, Mul (Lit (-1)) (fst edgeNormalVector)).

(** The point the label text is pinned to:
    [ensure(equal(vdist(s.text.center, anchor), 0))]. *)
Definition label_anchor : Vec2 :=
  ops.vadd center (ops.vmul (Lit 15) perpendicularVector).

End LabelRule.

Local Open Scope R_scope.

(** [p] lies strictly between [s] and [e] on the segment joining them. *)
Definition strictly_between (px py sx sy ex ey : R) : Prop :=
  exists t : R, 0 < t < 1 /\ px = sx + t * (ex - sx) /\ py = sy + t * (ey - sy).

End GeometryStyle.

(** ** Arrow diagram: the [Connects] rule of [applyStyle] *)

Module ArrowStyle.
Import Bloom.

Definition pointRad : Z := 30.
Definition pointMargin : Z := 10.

Section ConnectsRule.

(** [p.icon.center], [q.icon.center]. *)
Variables p q : Vec2.

Definition pq : Vec2 := ops.vsub q p.
Definition pqNorm : Vec2 := ops.vnormalize pq.
Definition pStart : Vec2 := ops.vmul (Lit (pointRad + pointMargin)) pqNorm.
Definition start : Vec2 := ops.vadd p pStart.
Definition end_ : Vec2 := ops.vsub q pStart.

(** [ensure(greaterThan(vdist(p, q), 2 * (pointRad + pointMargin) + 20))]. *)
Definition separation : Num := ops.vdist p q.
Definition min_separation : Z := 2 * (pointRad + pointMargin) + 20.

End ConnectsRule.

End ArrowStyle.

(** ** Circle diagram: the [OrbitAround] rule of [applyStyle] *)

Module CircleStyle.
Import Bloom.

Definition centerRadius : Z := 40.
Definition satelliteRadius : Z := 25.
Definition orbitRadius : Z := 150.

Section OrbitRule.

(** [sat.icon.center], [center.icon.center]. *)
Variables sat center : Vec2.

Definition centerToSat : Vec2 := ops.vsub sat center.
Definition direction : Vec2 := ops.vnormalize centerToSat.
Definition startOffset : Vec2 := ops.vmul (Lit (centerRadius + 5)) direction.
Definition endOffset : Vec2 := ops.vmul (Lit (satelliteRadius + 5)) direction.
Definition start : Vec2 := ops.vadd center startOffset.
Definition end_ : Vec2 := ops.vsub sat endOffset.

(** [ensure(equal(vdist(sat, center), orbitRadius))]. *)
Definition orbit_distance : Num := ops.vdist sat center.

End OrbitRule.

End CircleStyle.

(** ** Eigenvector diagram: canvas coordinates and drag handles *)

Module EigenLayout.
Import Bloom.

Local Open Scope R_scope.

(** The layout constants of [applyStyle]. *)
Definition canvasWidth : R := 500.
Definition canvasHeight : R := 400.
Definition origin : R * R := (- canvasHeight / 6, (-2 * canvasHeight) / 5).
Definition axesWidth : R := (2 * canvasWidth) / 4.
Definition axesHeight : R := (2 * canvasWidth) / 3.
Definition numTickMarks : R := 6.
Definition xScale : R := axesWidth / (numTickMarks - 1).
Definition yScale : R := axesHeight / (numTickMarks - 1).

(** [dragConstraint: ([x, y]) => [Math.max(origin[0], x), Math.max(origin[1], y)]]. *)
Definition dragConstraint (o : R * R) (xy : R * R) : R * R :=
  (Rmax (fst o) (fst xy), Rmax (snd o) (snd xy)).

(** The same constants as the arithmetic that computes them, so that they
    can also be evaluated in binary64: [origin] and [[xScale, yScale]]. *)
Definition origin_num : Vec2 :=
  (Div (Mul (Lit (-1)) (Lit 400)) (Lit 6), Div (Mul (Lit (-2)) (Lit 400)) (Lit 5)).

Definition scale_num : Vec2 :=
  (Div (Div (Mul (Lit 2) (Lit 500)) (Lit 4)) (Sub (Lit 6) (Lit 1)),
   Div (Div (Mul (Lit 2) (Lit 500)) (Lit 3)) (Sub (Lit 6) (Lit 1))).

(** [Math.max] and the drag constraint on binary64 numbers (on numbers that
    are not NaN, which is all that is used here). *)
Definition max64 (x y : PrimFloat.float) : PrimFloat.float :=
  if PrimFloat.ltb x y then y else x.

Definition dragConstraint64 (o xy : PrimFloat.float * PrimFloat.float)
  : PrimFloat.float * PrimFloat.float :=
  (max64 (fst o) (fst xy), max64 (snd o) (snd xy)).

(** Handle positions after two drags, in binary64: [ihat] dropped at
    [(17.726972984985665, 0)] and [jhat] dropped at
    [(-1000, -47.47514713113021)], each passed through the drag constraint.
    Inputs 0 and 1 are [ihat.canvasVec], inputs 2 and 3 are
    [jhat.canvasVec]. *)
Definition origin64 : PrimFloat.float * PrimFloat.float :=
  (feval (fun _ => PrimFloat.zero) (fst origin_num),
   feval (fun _ => PrimFloat.zero) (snd origin_num)).

Definition dragged_handles64 (i : nat) : PrimFloat.float :=
  let ihat :=
    dragConstraint64 origin64
      (feval (fun _ => PrimFloat.zero) (Frac 4989699308099268 281474976710656),
       PrimFloat.zero) in
  let jhat :=
    dragConstraint64 origin64
      (float_of_Z (-1000),
       feval (fun _ => PrimFloat.zero) (Frac (-6681532966534921) 140737488355328)) in
  match i with
  | O => fst ihat
  | 1%nat => snd ihat
  | 2%nat => fst jhat
  | _ => snd jhat
  end.

Section Coordinates.

(** The constant vectors [origin] and [[xScale, yScale]] as leaves of the
    expression trees. *)
Variables o scale : Vec2.

(** [bloom.ops.ewvvdiv(bloom.ops.vsub(canvasVec, origin), [xScale, yScale])]:
    from canvas coordinates to the coordinates of the axes. *)
Definition of_canvas (canvasVec : Vec2) : Vec2 :=
  ops.ewvvdiv (ops.vsub canvasVec o) scale.

(** [bloom.ops.vadd(bloom.ops.ewvvmul(v, [xScale, yScale]), origin)]: back
    to canvas coordinates. *)
Definition to_canvas (v : Vec2) : Vec2 :=
  ops.vadd (ops.ewvvmul v scale) o.

(** The rule of [MappedPoint]: [p.v1], [p.v2] and [p.canvasV2] from the
    canvas positions of the two basis handles and of the point. *)
Definition v1 (canvasV1 : Vec2) : Vec2 := of_canvas canvasV1.

Definition v2 (ihat_canvasVec jhat_canvasVec canvasV1 : Vec2) : Vec2 :=
  ops.mvmul (ops.mtrans (of_canvas ihat_canvasVec, of_canvas jhat_canvasVec))
            (v1 canvasV1).

Definition canvasV2 (ihat_canvasVec jhat_canvasVec canvasV1 : Vec2) : Vec2 :=
  to_canvas (v2 ihat_canvasVec jhat_canvasVec canvasV1).

End Coordinates.

End EigenLayout.

(** ** The renderer component *)

Module Renderer.

Section BloomRenderer.

Variables Diagram Element Err : Type.

(** [diagram.getInteractiveElement()] returns an element or throws. *)
Variable getInteractiveElement : Diagram -> Element + Err.

(** The container [div]: [containerRef.current] ([None] while the ref is
    null) with its children, and the [console.error] log. *)
Record Dom : Type := mkDom {
  container : option (list Element);
  console : list Err
}.

(** The effect that runs when [diagram] changes. *)
Definition render_effect (diagram : option Diagram) (s : Dom) : Dom :=
  match container s, diagram with
  | Some _, Some d =>
      (* containerRef.current.innerHTML = '' *)
      match getInteractiveElement d with
      | inl interactiveElement => mkDom (Some ([] ++ [interactiveElement])) (console s)
      | inr error => mkDom (Some []) (console s ++ [error])
      end
  | _, _ => s
  end.

(** The effect run for each successive value of [diagram]. *)
Definition render_all (ds : list (option Diagram)) (s : Dom) : Dom :=
  fold_left (fun s d => render_effect d s) ds s.

(** The most recent non-null diagram of a sequence. *)
Fixpoint last_diagram (ds : list (option Diagram)) (acc : option Diagram)
  : option Diagram :=
  match ds with
  | [] => acc
  | Some d :: ds' => last_diagram ds' (Some d)
  | None :: ds' => last_diagram ds' acc
  end.

End BloomRenderer.

Arguments mkDom {Element Err} container console.
Arguments container {Element Err} d.
Arguments console {Element Err} d.
Arguments render_effect {Diagram Element Err} getInteractiveElement diagram s.
Arguments render_all {Diagram Element Err} getInteractiveElement ds s.
Arguments last_diagram {Diagram} ds acc.

End Renderer.

(** ** The gallery component *)

Module Gallery.

Local Open Scope Z_scope.

Inductive DiagramType : Type := arrow | circle | eigen | geometry.

(** The build functions imported by the gallery. *)
Inductive BuildFunction : Type :=
  | createArrowDiagram
  | createCircleDiagram
  | createEigenDiagram
  | createGeometryDiagram.

Record DiagramConfig : Type := mkConfig {
  id : DiagramType;
  buildFunction : BuildFunction
}.

Definition DiagramType_eqb (s t : DiagramType) : bool :=
  match s, t with
  | arrow, arrow | circle, circle | eigen, eigen | geometry, geometry => true
  | _, _ => false
  end.

(** The configuration array (the display texts [title] and [description]
    play no part in what follows and are left out). *)
Definition diagrams : list DiagramConfig :=
  [ mkConfig arrow createArrowDiagram;
    mkConfig circle createCircleDiagram;
    mkConfig eigen createEigenDiagram;
    mkConfig geometry createGeometryDiagram ].

(** [diagrams.find(d => d.id === selectedDiagram)]. *)
Definition currentConfig (selectedDiagram : DiagramType) : option DiagramConfig :=
  List.find (fun d => DiagramType_eqb (id d) selectedDiagram) diagrams.

(** The [width] and [height] props passed to the renderer. *)
Definition width (selectedDiagram : DiagramType) : Z :=
  if DiagramType_eqb selectedDiagram circle then 500
  else if DiagramType_eqb selectedDiagram eigen then 500
  else if DiagramType_eqb selectedDiagram geometry then 500
  else 400.

Definition height (selectedDiagram : DiagramType) : Z :=
  if DiagramType_eqb selectedDiagram circle then 500
  else if DiagramType_eqb selectedDiagram eigen then 400
  else if DiagramType_eqb selectedDiagram geometry then 500
  else 400.

(** The canvas each build function passes to [new bloom.DiagramBuilder]. *)
Definition canvas (f : BuildFunction) : Z * Z :=
  match f with
  | createArrowDiagram => (400, 400)
  | createCircleDiagram => (500, 500)
  | createEigenDiagram => (500, 400)
  | createGeometryDiagram => (500, 500)
  end.

Local Close Scope Z_scope.

Section Component.

Variables Diagram Err : Type.

(** The component: the selection, the callbacks [useCallback] has created so
    far (by reference identity, each with the build function of the
    [currentConfig] it closed over), and the hook it passes the newest one
    to. *)
Record State : Type := mkState {
  selectedDiagram : DiagramType;
  callbacks : list (option BuildFunction);
  hook : Hook.World Diagram Err
}.

(** What the component function returns when it runs with the selection
    [sel]: the renderer is given the size of [sel] and the [diagram] state
    that [useDiagram] returns.  Right after the selection has changed this
    is still the diagram of the previous selection: React runs the effect
    that resets it only once this render has been committed. *)
Record Frame : Type := mkFrame {
  frame_selected : DiagramType;
  frame_size : Z * Z;
  frame_diagram : option Diagram
}.

Definition render_output (sel : DiagramType) (s : State) : Frame :=
  mkFrame sel (width sel, height sel) (Hook.diagram (hook s)).

(** A render together with the effects React runs after committing it:
    [useCallback] keeps the callback while [selectedDiagram] is unchanged
    ([fresh = false]) and creates one otherwise; the newest callback goes
    to [useDiagram], whose effect runs when the callback has changed. *)
Definition render (fresh : bool) (sel : DiagramType) (s : State) : State :=
  let cbs :=
    if fresh
    then callbacks s ++ [option_map buildFunction (currentConfig sel)]
    else callbacks s in
  mkState sel cbs (Hook.step (hook s) (Hook.Render (pred (List.length cbs)))).

(** [useState<DiagramType>("geometry")] and the first render. *)
Definition mount : State :=
  render true geometry (mkState geometry [] Hook.init).

Inductive Event : Type :=
  | Select (t : DiagramType)
  | Settle (k : nat) (o : Hook.Outcome Diagram Err)
  | StrictReplay
  | Unmount.

Definition step (s : State) (e : Event) : State :=
  match e with
  | Select t =>
      (* onClick={() => setSelectedDiagram(config.id)} *)
      match Hook.phase (hook s) with
      | Hook.Gone => s
      | _ => render (negb (DiagramType_eqb t (selectedDiagram s))) t s
      end
  | Settle k o =>
      mkState (selectedDiagram s) (callbacks s) (Hook.step (hook s) (Hook.Settle k o))
  | StrictReplay =>
      mkState (selectedDiagram s) (callbacks s) (Hook.step (hook s) Hook.StrictReplay)
  | Unmount =>
      mkState (selectedDiagram s) (callbacks s) (Hook.step (hook s) Hook.Unmount)
  end.

Definition exec (evs : list Event) : State := fold_left step evs mount.

(** What every reachable state satisfies: the hook has been rendered, its
    dependency is the newest callback, that callback calls the build
    function of the selected configuration, and the newest effect run was
    started with it. *)
Definition GInv (s : State) : Prop :=
  Hook.Inv (hook s)
  /\ Hook.phase (hook s) <> Hook.Fresh
  /\ Hook.deps (hook s) = Some (pred (List.length (callbacks s)))
  /\ nth_error (callbacks s) (pred (List.length (callbacks s)))
     = Some (option_map buildFunction (currentConfig (selectedDiagram s)))
  /\ (forall k r, Hook.newest (hook s) = Some k ->
        nth_error (Hook.runs (hook s)) k = Some r ->
        Hook.fn r = pred (List.length (callbacks s))).

End Component.

Arguments mkState {Diagram Err} selectedDiagram callbacks hook.
Arguments selectedDiagram {Diagram Err} s.
Arguments callbacks {Diagram Err} s.
Arguments hook {Diagram Err} s.
Arguments mkFrame {Diagram} frame_selected frame_size frame_diagram.
Arguments frame_selected {Diagram} f.
Arguments frame_size {Diagram} f.
Arguments frame_diagram {Diagram} f.
Arguments render_output {Diagram Err} sel s.
Arguments render {Diagram Err} fresh sel s.
Arguments mount {Diagram Err}.
Arguments Select {Diagram Err} t.
Arguments Settle {Diagram Err} k o.
Arguments StrictReplay {Diagram Err}.
Arguments Unmount {Diagram Err}.
Arguments step {Diagram Err} s e.
Arguments exec {Diagram Err} evs.
Arguments GInv {Diagram Err} s.

End Gallery.

(** * Properties *)

(** ** Evaluation lemmas *)

Section EvalFacts.
Import Bloom.
Local Open Scope R_scope.

Lemma pdiv_defined (a b : R) : b <> 0 -> pdiv a b = Some (a / b).
Proof.
  intros Hb. unfold pdiv. destruct (Req_dec_T b 0) as [E | _]; [contradiction | reflexivity].
Qed.

Lemma pdiv_by_zero (a b : R) : b = 0 -> pdiv a b = None.
Proof.
  intros Hb. unfold pdiv. destruct (Req_dec_T b 0) as [_ | N]; [reflexivity | contradiction].
Qed.

Lemma pdiv_ext (a a' b b' : R) : a = a' -> b = b' -> pdiv a b = pdiv a' b'.
Proof. intros -> ->. reflexivity. Qed.

Lemma psqrt_defined (a : R) : 0 <= a -> psqrt a = Some (sqrt a).
Proof.
  intros Ha. unfold psqrt. destruct (Rlt_dec a 0) as [L | _]; [lra | reflexivity].
Qed.

Lemma psqrt_negative (a : R) : a < 0 -> psqrt a = None.
Proof.
  intros Ha. unfold psqrt. destruct (Rlt_dec a 0) as [_ | N]; [reflexivity | contradiction].
Qed.

Lemma sum_squares_nonneg (x y : R) : 0 <= x * x + y * y.
Proof. nra. Qed.

Lemma eps_denom_pos : 0 < eps_denom.
Proof. unfold eps_denom. lra. Qed.

(** The distance expression always has a value once its operands have. *)
Lemma eval_vdist (env : nat -> R) (v w : Vec2) (vx vy wx wy : R) :
  eval env (fst v) = Some vx -> eval env (snd v) = Some vy ->
  eval env (fst w) = Some wx -> eval env (snd w) = Some wy ->
  eval env (ops.vdist v w) = Some (Circumcircle.dist2 vx vy wx wy).
Proof.
  intros Hvx Hvy Hwx Hwy. unfold ops.vdist, ops.vnorm, ops.vdot, ops.vsub.
  cbn [eval fst snd]. rewrite Hvx, Hvy, Hwx, Hwy. cbn [olift2 obind].
  apply psqrt_defined, sum_squares_nonneg.
Qed.

End EvalFacts.

(** ** The circumcircle rule *)

Section CircumcircleFacts.
Import Bloom Circumcircle.
Local Open Scope R_scope.

Variable env : nat -> R.
Variables x1 y1 x2 y2 x3 y3 : Num.
Variables X1 Y1 X2 Y2 X3 Y3 : R.
Hypothesis Hx1 : eval env x1 = Some X1.
Hypothesis Hy1 : eval env y1 = Some Y1.
Hypothesis Hx2 : eval env x2 = Some X2.
Hypothesis Hy2 : eval env y2 = Some Y2.
Hypothesis Hx3 : eval env x3 = Some X3.
Hypothesis Hy3 : eval env y3 = Some Y3.

Lemma eval_d : eval env (d x1 y1 x2 y2 x3 y3) = Some (spec_D X1 Y1 X2 Y2 X3 Y3).
Proof.
  unfold d, spec_D. cbn [eval]. rewrite Hx1, Hy1, Hx2, Hy2, Hx3, Hy3.
  cbn [olift2 obind]. f_equal. ring.
Qed.

Lemma eval_ux : eval env (ux x1 y1 x2 y2 x3 y3) = spec_ux X1 Y1 X2 Y2 X3 Y3.
Proof.
  unfold ux. cbn [eval]. rewrite eval_d. rewrite Hx1, Hy1, Hx2, Hy2, Hx3, Hy3.
  cbn [olift2 obind]. unfold spec_ux. apply pdiv_ext; [ring | reflexivity].
Qed.

Lemma eval_uy : eval env (uy x1 y1 x2 y2 x3 y3) = spec_uy X1 Y1 X2 Y2 X3 Y3.
Proof.
  unfold uy. cbn [eval]. rewrite eval_d. rewrite Hx1, Hy1, Hx2, Hy2, Hx3, Hy3.
  cbn [olift2 obind]. unfold spec_uy. apply pdiv_ext; [ring | reflexivity].
Qed.

Lemma eval_circumradius :
  eval env (circumradius x1 y1 x2 y2 x3 y3) = spec_radius X1 Y1 X2 Y2 X3 Y3.
Proof.
  unfold spec_radius.
  destruct (spec_ux X1 Y1 X2 Y2 X3 Y3) as [u |] eqn:Eu.
  - destruct (spec_uy X1 Y1 X2 Y2 X3 Y3) as [v |] eqn:Ev.
    + cbn [obind]. unfold circumradius, circumcenter.
      apply eval_vdist; cbn [fst snd]; try assumption.
      * rewrite eval_ux. exact Eu.
      * rewrite eval_uy. exact Ev.
    + cbn [obind]. unfold circumradius, circumcenter, ops.vdist, ops.vnorm, ops.vdot, ops.vsub.
      cbn [eval fst snd]. rewrite eval_ux, eval_uy, Eu, Ev, Hx1, Hy1. reflexivity.
  - cbn [obind]. unfold circumradius, circumcenter, ops.vdist, ops.vnorm, ops.vdot, ops.vsub.
    cbn [eval fst snd]. rewrite eval_ux, Eu. reflexivity.
Qed.

(** The denominator is twice the signed area that decides collinearity. *)
Lemma spec_D_area :
  spec_D X1 Y1 X2 Y2 X3 Y3 = 2 * ((X2 - X1) * (Y3 - Y1) - (X3 - X1) * (Y2 - Y1)).
Proof. unfold spec_D. ring. Qed.

End CircumcircleFacts.

Section CircumcircleClaims.
Import Bloom Circumcircle.
Local Open Scope R_scope.

(** C1.  Whatever the three coordinate pairs evaluate to, the trees built by
    the circumcircle rule evaluate to the determinant-based circumcentre
    formulas: [d] to [D = 2(x1(y2-y3) + x2(y3-y1) + x3(y1-y2))], [ux] and [uy]
    to the two quotients by [D], and the radius to the distance from
    [(ux, uy)] to the first point. *)
Theorem circumcircle_rule_is_determinant_formula
    (env : nat -> R) (x1 y1 x2 y2 x3 y3 : Num) (X1 Y1 X2 Y2 X3 Y3 : R) :
  eval env x1 = Some X1 -> eval env y1 = Some Y1 ->
  eval env x2 = Some X2 -> eval env y2 = Some Y2 ->
  eval env x3 = Some X3 -> eval env y3 = Some Y3 ->
  eval env (d x1 y1 x2 y2 x3 y3) = Some (spec_D X1 Y1 X2 Y2 X3 Y3)
  /\ eval env (ux x1 y1 x2 y2 x3 y3) = spec_ux X1 Y1 X2 Y2 X3 Y3
  /\ eval env (uy x1 y1 x2 y2 x3 y3) = spec_uy X1 Y1 X2 Y2 X3 Y3
  /\ eval env (circumradius x1 y1 x2 y2 x3 y3) = spec_radius X1 Y1 X2 Y2 X3 Y3.
Proof.
  intros H1 H2 H3 H4 H5 H6. repeat split.
  - now apply eval_d.
  - now apply eval_ux.
  - now apply eval_uy.
  - now apply eval_circumradius.
Qed.

Lemma circumcircle_rule_is_determinant_formula_witness :
  eval (fun _ => 0) (d (Lit 0) (Lit 0) (Lit 4) (Lit 0) (Lit 0) (Lit 3))
    = Some (spec_D 0 0 4 0 0 3)
  /\ eval (fun _ => 0) (ux (Lit 0) (Lit 0) (Lit 4) (Lit 0) (Lit 0) (Lit 3))
    = spec_ux 0 0 4 0 0 3
  /\ eval (fun _ => 0) (uy (Lit 0) (Lit 0) (Lit 4) (Lit 0) (Lit 0) (Lit 3))
    = spec_uy 0 0 4 0 0 3
  /\ eval (fun _ => 0) (circumradius (Lit 0) (Lit 0) (Lit 4) (Lit 0) (Lit 0) (Lit 3))
    = spec_radius 0 0 4 0 0 3.
Proof.
  apply (circumcircle_rule_is_determinant_formula (fun _ => 0)); reflexivity.
Defined.

(** C2.  For three points that are not collinear, the point [(ux, uy)] built
    by the rule has a value, and the three distance expressions from it to
    the input points evaluate to one and the same number. *)
Theorem circumcenter_equidistant
    (env : nat -> R) (x1 y1 x2 y2 x3 y3 : Num) (X1 Y1 X2 Y2 X3 Y3 : R) :
  eval env x1 = Some X1 -> eval env y1 = Some Y1 ->
  eval env x2 = Some X2 -> eval env y2 = Some Y2 ->
  eval env x3 = Some X3 -> eval env y3 = Some Y3 ->
  ~ collinear X1 Y1 X2 Y2 X3 Y3 ->
  exists u v rho : R,
    evalv env (circumcenter x1 y1 x2 y2 x3 y3) = Some (u, v)
    /\ eval env (ops.vdist (circumcenter x1 y1 x2 y2 x3 y3) (x1, y1)) = Some rho
    /\ eval env (ops.vdist (circumcenter x1 y1 x2 y2 x3 y3) (x2, y2)) = Some rho
    /\ eval env (ops.vdist (circumcenter x1 y1 x2 y2 x3 y3) (x3, y3)) = Some rho
    /\ rho = dist2 u v X1 Y1
    /\ dist2 u v X1 Y1 = dist2 u v X2 Y2
    /\ dist2 u v X2 Y2 = dist2 u v X3 Y3.
Proof.
  intros H1 H2 H3 H4 H5 H6 Hnc.
  assert (HD : spec_D X1 Y1 X2 Y2 X3 Y3 <> 0).
  { rewrite spec_D_area. intros E. apply Hnc. unfold collinear. lra. }
  pose proof (eval_ux env _ _ _ _ _ _ _ _ _ _ _ _ H1 H2 H3 H4 H5 H6) as Eu.
  pose proof (eval_uy env _ _ _ _ _ _ _ _ _ _ _ _ H1 H2 H3 H4 H5 H6) as Ev.
  unfold spec_ux in Eu. unfold spec_uy in Ev.
  rewrite (pdiv_defined _ _ HD) in Eu. rewrite (pdiv_defined _ _ HD) in Ev.
  set (u := _ / _) in Eu. set (v := _ / _) in Ev.
  assert (E12 : dist2 u v X1 Y1 = dist2 u v X2 Y2).
  { unfold dist2. f_equal. subst u v. unfold spec_D in *. field. intros E. apply HD. lra. }
  assert (E23 : dist2 u v X2 Y2 = dist2 u v X3 Y3).
  { unfold dist2. f_equal. subst u v. unfold spec_D in *. field. intros E. apply HD. lra. }
  exists u, v, (dist2 u v X1 Y1). repeat split.
  - unfold evalv, circumcenter. cbn [fst snd]. rewrite Eu, Ev. reflexivity.
  - apply eval_vdist; assumption.
  - rewrite E12. apply eval_vdist; assumption.
  - rewrite E12, E23. apply eval_vdist; assumption.
  - exact E12.
  - exact E23.
Qed.

Lemma circumcenter_equidistant_witness :
  exists u v rho : R,
    evalv (fun _ => 0) (circumcenter (Lit 0) (Lit 0) (Lit 4) (Lit 0) (Lit 0) (Lit 3))
      = Some (u, v)
    /\ eval (fun _ => 0)
         (ops.vdist (circumcenter (Lit 0) (Lit 0) (Lit 4) (Lit 0) (Lit 0) (Lit 3))
                    (Lit 0, Lit 0)) = Some rho
    /\ eval (fun _ => 0)
         (ops.vdist (circumcenter (Lit 0) (Lit 0) (Lit 4) (Lit 0) (Lit 0) (Lit 3))
                    (Lit 4, Lit 0)) = Some rho
    /\ eval (fun _ => 0)
         (ops.vdist (circumcenter (Lit 0) (Lit 0) (Lit 4) (Lit 0) (Lit 0) (Lit 3))
                    (Lit 0, Lit 3)) = Some rho
    /\ rho = dist2 u v 0 0
    /\ dist2 u v 0 0 = dist2 u v 4 0
    /\ dist2 u v 4 0 = dist2 u v 0 3.
Proof.
  apply (circumcenter_equidistant (fun _ => 0)
           (Lit 0) (Lit 0) (Lit 4) (Lit 0) (Lit 0) (Lit 3) 0 0 4 0 0 3);
    try reflexivity.
  unfold collinear. lra.
Defined.

(** Dividing by a binary64 zero never gives a finite number: the quotient
    is an infinity, or NaN when the dividend is zero or NaN. *)
Lemma fdiv_by_zero_not_finite (x y : PrimFloat.float) :
  PrimFloat.eqb y PrimFloat.zero = true ->
  finite (PrimFloat.div x y) = false.
Proof.
  intros Hy. unfold finite, PrimFloat.is_nan, PrimFloat.is_infinity.
  rewrite FloatAxioms.eqb_spec in Hy.
  rewrite !FloatAxioms.eqb_spec, FloatAxioms.abs_spec, FloatAxioms.div_spec.
  destruct (FloatOps.Prim2SF y) as [sy | sy | | sy my ey].
  - destruct (FloatOps.Prim2SF x) as [sx | sx | | sx mx ex];
      try destruct sx; destruct sy; reflexivity.
  - destruct sy; vm_compute in Hy; discriminate.
  - vm_compute in Hy; discriminate.
  - destruct sy; vm_compute in Hy; discriminate.
Qed.

(** C5, as worded, fails in the arithmetic the engine computes with.  The
    points [(0.1, 0.1)], [(0.2, 0.2)], [(0.3, 0.3)] lie on one line: in
    exact arithmetic the denominator is zero and [ux] has no value.  In
    binary64 the rounding of the products leaves the denominator at
    [2^-57], not zero, and [ux], [uy] and the radius are finite numbers,
    [ux] below [-10^14]. *)
Lemma collinear_rounding_counterexample :
  collinear (1 / 10) (1 / 10) (2 / 10) (2 / 10) (3 / 10) (3 / 10)
  /\ eval (fun _ => 0)
       (d (Frac 1 10) (Frac 1 10) (Frac 2 10) (Frac 2 10) (Frac 3 10) (Frac 3 10))
     = Some 0
  /\ feval (fun _ => PrimFloat.zero)
       (d (Frac 1 10) (Frac 1 10) (Frac 2 10) (Frac 2 10) (Frac 3 10) (Frac 3 10))
     = feval (fun _ => PrimFloat.zero) (Frac 1 144115188075855872)
  /\ PrimFloat.eqb
       (feval (fun _ => PrimFloat.zero)
          (d (Frac 1 10) (Frac 1 10) (Frac 2 10) (Frac 2 10) (Frac 3 10) (Frac 3 10)))
       PrimFloat.zero = false
  /\ finite (feval (fun _ => PrimFloat.zero)
       (ux (Frac 1 10) (Frac 1 10) (Frac 2 10) (Frac 2 10) (Frac 3 10) (Frac 3 10)))
     = true
  /\ finite (feval (fun _ => PrimFloat.zero)
       (uy (Frac 1 10) (Frac 1 10) (Frac 2 10) (Frac 2 10) (Frac 3 10) (Frac 3 10)))
     = true
  /\ finite (feval (fun _ => PrimFloat.zero)
       (circumradius (Frac 1 10) (Frac 1 10) (Frac 2 10) (Frac 2 10)
                     (Frac 3 10) (Frac 3 10)))
     = true
  /\ PrimFloat.ltb
       (feval (fun _ => PrimFloat.zero)
          (ux (Frac 1 10) (Frac 1 10) (Frac 2 10) (Frac 2 10) (Frac 3 10) (Frac 3 10)))
       (float_of_Z (- 100000000000000)) = true.
Proof.
  assert (Hc : collinear (1 / 10) (1 / 10) (2 / 10) (2 / 10) (3 / 10) (3 / 10)).
  { unfold collinear. lra. }
  split; [exact Hc |]. split.
  - rewrite (eval_d (fun _ => 0) (Frac 1 10) (Frac 1 10) (Frac 2 10) (Frac 2 10)
               (Frac 3 10) (Frac 3 10)
               (1 / 10) (1 / 10) (2 / 10) (2 / 10) (3 / 10) (3 / 10));
      try reflexivity.
    f_equal. rewrite spec_D_area. unfold collinear in Hc. rewrite Hc. ring.
  - repeat match goal with |- _ /\ _ => split end; vm_compute; reflexivity.
Qed.

(** C5, amended.  In exact arithmetic, for three collinear points the
    denominator [d] evaluates to zero; [ux] and [uy] are divisions by [d]
    with nothing in front of them, so neither they, nor the centre, nor the
    radius has a value.  In binary64, whatever the inputs, whenever the
    computed denominator is zero the computed [ux] and [uy] are infinite or
    NaN: the division is carried out, no branch avoids it. *)
Theorem collinear_points_unguarded
    (env : nat -> R) (fenv : nat -> PrimFloat.float)
    (x1 y1 x2 y2 x3 y3 : Num) (X1 Y1 X2 Y2 X3 Y3 : R) :
  eval env x1 = Some X1 -> eval env y1 = Some Y1 ->
  eval env x2 = Some X2 -> eval env y2 = Some Y2 ->
  eval env x3 = Some X3 -> eval env y3 = Some Y3 ->
  collinear X1 Y1 X2 Y2 X3 Y3 ->
  eval env (d x1 y1 x2 y2 x3 y3) = Some 0
  /\ (exists n, ux x1 y1 x2 y2 x3 y3 = Div n (d x1 y1 x2 y2 x3 y3))
  /\ (exists n, uy x1 y1 x2 y2 x3 y3 = Div n (d x1 y1 x2 y2 x3 y3))
  /\ eval env (ux x1 y1 x2 y2 x3 y3) = None
  /\ eval env (uy x1 y1 x2 y2 x3 y3) = None
  /\ evalv env (circumcenter x1 y1 x2 y2 x3 y3) = None
  /\ eval env (circumradius x1 y1 x2 y2 x3 y3) = None
  /\ (PrimFloat.eqb (feval fenv (d x1 y1 x2 y2 x3 y3)) PrimFloat.zero = true ->
      finite (feval fenv (ux x1 y1 x2 y2 x3 y3)) = false
      /\ finite (feval fenv (uy x1 y1 x2 y2 x3 y3)) = false).
Proof.
  intros H1 H2 H3 H4 H5 H6 Hc.
  assert (HD : spec_D X1 Y1 X2 Y2 X3 Y3 = 0).
  { rewrite spec_D_area. unfold collinear in Hc. rewrite Hc. ring. }
  pose proof (eval_d env _ _ _ _ _ _ _ _ _ _ _ _ H1 H2 H3 H4 H5 H6) as Ed.
  pose proof (eval_ux env _ _ _ _ _ _ _ _ _ _ _ _ H1 H2 H3 H4 H5 H6) as Eu.
  pose proof (eval_uy env _ _ _ _ _ _ _ _ _ _ _ _ H1 H2 H3 H4 H5 H6) as Ev.
  pose proof (eval_circumradius env _ _ _ _ _ _ _ _ _ _ _ _ H1 H2 H3 H4 H5 H6) as Er.
  unfold spec_radius in Er. unfold spec_ux in Eu, Er. unfold spec_uy in Ev.
  rewrite (pdiv_by_zero _ _ HD) in Eu, Er. rewrite (pdiv_by_zero _ _ HD) in Ev.
  rewrite HD in Ed. cbn [obind] in Er.
  split; [exact Ed |].
  split; [eexists; reflexivity |].
  split; [eexists; reflexivity |].
  split; [exact Eu |].
  split; [exact Ev |].
  split; [unfold evalv, circumcenter; cbn [fst snd]; rewrite Eu; reflexivity |].
  split; [exact Er |].
  intros Hz. split.
  - unfold ux. cbn [feval]. apply fdiv_by_zero_not_finite. exact Hz.
  - unfold uy. cbn [feval]. apply fdiv_by_zero_not_finite. exact Hz.
Qed.

(** The integer points [(0, 0)], [(1, 1)], [(2, 2)]: no rounding occurs, the
    binary64 denominator is zero as well, and the computed centre is not
    finite. *)
Lemma collinear_points_unguarded_witness :
  (eval (fun _ => 0) (d (Lit 0) (Lit 0) (Lit 1) (Lit 1) (Lit 2) (Lit 2)) = Some 0
   /\ (exists n, ux (Lit 0) (Lit 0) (Lit 1) (Lit 1) (Lit 2) (Lit 2)
                 = Div n (d (Lit 0) (Lit 0) (Lit 1) (Lit 1) (Lit 2) (Lit 2)))
   /\ (exists n, uy (Lit 0) (Lit 0) (Lit 1) (Lit 1) (Lit 2) (Lit 2)
                 = Div n (d (Lit 0) (Lit 0) (Lit 1) (Lit 1) (Lit 2) (Lit 2)))
   /\ eval (fun _ => 0) (ux (Lit 0) (Lit 0) (Lit 1) (Lit 1) (Lit 2) (Lit 2)) = None
   /\ eval (fun _ => 0) (uy (Lit 0) (Lit 0) (Lit 1) (Lit 1) (Lit 2) (Lit 2)) = None
   /\ evalv (fun _ => 0)
        (circumcenter (Lit 0) (Lit 0) (Lit 1) (Lit 1) (Lit 2) (Lit 2)) = None
   /\ eval (fun _ => 0)
        (circumradius (Lit 0) (Lit 0) (Lit 1) (Lit 1) (Lit 2) (Lit 2)) = None
   /\ (PrimFloat.eqb
         (feval (fun _ => PrimFloat.zero)
            (d (Lit 0) (Lit 0) (Lit 1) (Lit 1) (Lit 2) (Lit 2)))
         PrimFloat.zero = true ->
       finite (feval (fun _ => PrimFloat.zero)
                 (ux (Lit 0) (Lit 0) (Lit 1) (Lit 1) (Lit 2) (Lit 2))) = false
       /\ finite (feval (fun _ => PrimFloat.zero)
                 (uy (Lit 0) (Lit 0) (Lit 1) (Lit 1) (Lit 2) (Lit 2))) = false))
  /\ PrimFloat.eqb
       (feval (fun _ => PrimFloat.zero)
          (d (Lit 0) (Lit 0) (Lit 1) (Lit 1) (Lit 2) (Lit 2)))
       PrimFloat.zero = true.
Proof.
  split.
  - apply (collinear_points_unguarded (fun _ => 0) (fun _ => PrimFloat.zero)
             (Lit 0) (Lit 0) (Lit 1) (Lit 1) (Lit 2) (Lit 2) 0 0 1 1 2 2);
      try reflexivity.
    unfold collinear. lra.
  - vm_compute. reflexivity.
Defined.

End CircumcircleClaims.

(** ** The eigenspace lines *)

Section EigenFacts.
Import Bloom Eigen.
Local Open Scope R_scope.

Variable env : nat -> R.

Lemma norm_dir_pos (x : R) : 0 < sqrt (x * x + 1 * 1).
Proof. apply sqrt_lt_R0. nra. Qed.

Lemma norm_eps_pos (x : R) : 0 < sqrt (x * x + 1 * 1) + eps_denom.
Proof. pose proof (norm_dir_pos x). pose proof eps_denom_pos. lra. Qed.

(** Normalising [[x, 1]] always succeeds once [x] has a value. *)
Lemma eval_vnormalize_dir (x : Num) (X : R) :
  eval env x = Some X ->
  evalv env (ops.vnormalize (x, Lit 1)) = Some (normalize_dir X).
Proof.
  intros Hx. pose proof (norm_dir_pos X) as Hn.
  unfold evalv, ops.vnormalize, ops.vdiv, ops.vnorm, ops.vdot, EPS_DENOM.
  cbn [eval fst snd]. rewrite Hx. cbn [olift2 obind].
  rewrite psqrt_defined by nra. cbn [olift2 obind].
  rewrite !pdiv_defined by lra. reflexivity.
Qed.

(** It has no value when [x] has none. *)
Lemma eval_vnormalize_undefined (x : Num) :
  eval env x = None ->
  evalv env (ops.vnormalize (x, Lit 1)) = None.
Proof.
  intros Hx. unfold evalv, ops.vnormalize, ops.vdiv.
  cbn [eval fst snd]. rewrite Hx. reflexivity.
Qed.

Variables a b c d : Num.
Variables A B C D : R.
Hypothesis Ha : eval env a = Some A.
Hypothesis Hb : eval env b = Some B.
Hypothesis Hc : eval env c = Some C.
Hypothesis Hd : eval env d = Some D.

Lemma eval_radicand : eval env (radicand a b c d) = Some (discr A B C D).
Proof.
  unfold radicand, discr. cbn [eval]. rewrite Ha, Hb, Hc, Hd.
  cbn [olift2 obind]. f_equal. ring.
Qed.

Lemma eval_el1_vec :
  C <> 0 -> 0 <= discr A B C D ->
  evalv env (el1_vec a b c d) = Some (code_dir A B C D 1).
Proof.
  intros HC HD. unfold el1_vec.
  rewrite (eval_vnormalize_dir _
             (-1 * ((-1 * A + D) + 1 * sqrt (discr A B C D)) / (2 * C))).
  - reflexivity.
  - cbn [eval]. fold (radicand a b c d). rewrite eval_radicand, Ha, Hc, Hd.
    cbn [olift2 obind]. rewrite psqrt_defined by exact HD. cbn [obind].
    rewrite pdiv_defined by lra. f_equal. field. exact HC.
Qed.

Lemma eval_el2_vec :
  C <> 0 -> 0 <= discr A B C D ->
  evalv env (el2_vec a b c d) = Some (code_dir A B C D (-1)).
Proof.
  intros HC HD. unfold el2_vec.
  rewrite (eval_vnormalize_dir _
             (-1 * ((-1 * A + D) + -1 * sqrt (discr A B C D)) / (2 * C))).
  - reflexivity.
  - cbn [eval]. fold (radicand a b c d). rewrite eval_radicand, Ha, Hc, Hd.
    cbn [olift2 obind]. rewrite psqrt_defined by exact HD. cbn [obind].
    rewrite pdiv_defined by lra. f_equal.
Qed.

(** Without a real square root, or with [c = 0], neither line has a value. *)
Lemma eval_el_vec_negative :
  discr A B C D < 0 ->
  evalv env (el1_vec a b c d) = None /\ evalv env (el2_vec a b c d) = None.
Proof.
  intros HD. split.
  - unfold el1_vec. apply eval_vnormalize_undefined.
    cbn [eval]. fold (radicand a b c d). rewrite eval_radicand, Ha, Hd.
    cbn [olift2 obind]. rewrite psqrt_negative by exact HD. reflexivity.
  - unfold el2_vec. apply eval_vnormalize_undefined.
    cbn [eval]. fold (radicand a b c d). rewrite eval_radicand, Ha, Hd.
    cbn [olift2 obind]. rewrite psqrt_negative by exact HD. reflexivity.
Qed.

Lemma eval_el_vec_zero_c :
  C = 0 ->
  evalv env (el1_vec a b c d) = None /\ evalv env (el2_vec a b c d) = None.
Proof.
  intros HC.
  assert (HD : 0 <= discr A B C D).
  { unfold discr. rewrite HC. pose proof (Rle_0_sqr (A - D)) as Hsq.
    unfold Rsqr in Hsq. lra. }
  split.
  - unfold el1_vec. apply eval_vnormalize_undefined.
    cbn [eval]. fold (radicand a b c d). rewrite eval_radicand, Ha, Hc, Hd.
    cbn [olift2 obind]. rewrite psqrt_defined by exact HD. cbn [obind].
    apply pdiv_by_zero. rewrite HC. ring.
  - unfold el2_vec. apply eval_vnormalize_undefined.
    cbn [eval]. fold (radicand a b c d). rewrite eval_radicand, Ha, Hc, Hd.
    cbn [olift2 obind]. rewrite psqrt_defined by exact HD. cbn [obind].
    apply pdiv_by_zero. rewrite HC. ring.
Qed.


End EigenFacts.

Section EigenAlgebra.
Import Bloom Eigen.
Local Open Scope R_scope.

(** [discr] is the discriminant of the characteristic polynomial
    [l^2 - (A + D) l + (A D - B C)] of the map: it is positive exactly when
    the eigenvalues are real and distinct. *)
Lemma discr_char_poly (A B C D : R) :
  discr A B C D = (A + D) * (A + D) - 4 * (A * D - B * C).
Proof. unfold discr. ring. Qed.





End EigenAlgebra.

Section EigenClaims.
Import Bloom Eigen.
Local Open Scope R_scope.

Lemma normalize_dir_injective (x y : R) : normalize_dir x = normalize_dir y -> x = y.
Proof.
  unfold normalize_dir. intros E. injection E as E1 E2.
  pose proof (norm_eps_pos x) as Hx. pose proof (norm_eps_pos y) as Hy.
  set (nx := sqrt (x * x + 1 * 1) + eps_denom) in *.
  set (ny := sqrt (y * y + 1 * 1) + eps_denom) in *.
  assert (En : nx = ny).
  { replace nx with (1 / (1 / nx)) by (field; lra). rewrite E2. field. lra. }
  rewrite En in E1. unfold Rdiv in E1.
  apply Rmult_eq_reg_r in E1; [exact E1 |].
  apply Rinv_neq_0_compat. lra.
Qed.

Lemma sqrt_discr_1212 : sqrt (discr 1 2 1 2) = 3.
Proof.
  unfold discr. replace ((1 - 2) * (1 - 2) + 4 * 2 * 1) with (3 * 3) by ring.
  apply sqrt_square. lra.
Qed.

(** C3, as worded, fails: for the map with columns [(1, 1)] and [(2, 2)]
    the first line is the normalisation of [[-2, 1]], while the formula
    [(d - a + sqrt((a-d)^2 + 4bc)) / (2c)] gives [[2, 1]]. *)
Lemma eigen_line_sign_counterexample :
  evalv (fun _ => 0) (el1_vec (Lit 1) (Lit 2) (Lit 1) (Lit 2)) = Some (normalize_dir (-2))
  /\ spec_dir 1 2 1 2 1 = normalize_dir 2
  /\ evalv (fun _ => 0) (el1_vec (Lit 1) (Lit 2) (Lit 1) (Lit 2))
     <> Some (spec_dir 1 2 1 2 1).
Proof.
  assert (E1 : evalv (fun _ => 0) (el1_vec (Lit 1) (Lit 2) (Lit 1) (Lit 2))
               = Some (normalize_dir (-2))).
  { rewrite (eval_el1_vec (fun _ => 0) (Lit 1) (Lit 2) (Lit 1) (Lit 2) 1 2 1 2);
      try reflexivity.
    - unfold code_dir. rewrite sqrt_discr_1212. do 2 f_equal. lra.
    - lra.
    - unfold discr. lra. }
  assert (E2 : spec_dir 1 2 1 2 1 = normalize_dir 2).
  { unfold spec_dir. rewrite sqrt_discr_1212. f_equal. lra. }
  repeat split; try assumption.
  rewrite E1, E2. intros E.
  assert (E' : normalize_dir (-2) = normalize_dir 2) by congruence.
  apply normalize_dir_injective in E'. lra.
Qed.

(** C3, amended.  With [c <> 0] and a non-negative discriminant, each line
    is the normalisation of [[x, 1]] where [x] is the NEGATED sum
    [-((d - a) +- sqrt(a^2 + 4bc - 2ad + d^2)) / (2c)]: plus before the
    square root in the first line, minus in the second.  Equivalently
    [x = (a - d -+ sqrt((a-d)^2 + 4bc)) / (2c)]. *)
Theorem eigen_lines_formula
    (env : nat -> R) (a b c d : Num) (A B C D : R) :
  eval env a = Some A -> eval env b = Some B ->
  eval env c = Some C -> eval env d = Some D ->
  C <> 0 -> 0 <= discr A B C D ->
  evalv env (el1_vec a b c d)
    = Some (normalize_dir (- ((D - A) + sqrt (discr A B C D)) / (2 * C)))
  /\ evalv env (el2_vec a b c d)
    = Some (normalize_dir (- ((D - A) - sqrt (discr A B C D)) / (2 * C)))
  /\ - ((D - A) + sqrt (discr A B C D)) / (2 * C)
     = (A - D - sqrt (discr A B C D)) / (2 * C)
  /\ - ((D - A) - sqrt (discr A B C D)) / (2 * C)
     = (A - D + sqrt (discr A B C D)) / (2 * C).
Proof.
  intros Ha Hb Hc Hd HC HD. repeat split.
  - rewrite (eval_el1_vec env a b c d A B C D Ha Hb Hc Hd HC HD).
    unfold code_dir. do 2 f_equal. field. exact HC.
  - rewrite (eval_el2_vec env a b c d A B C D Ha Hb Hc Hd HC HD).
    unfold code_dir. do 2 f_equal. field. exact HC.
  - field. exact HC.
  - field. exact HC.
Qed.

Lemma eigen_lines_formula_witness :
  evalv (fun _ => 0) (el1_vec (Lit 1) (Lit 2) (Lit 1) (Lit 2))
    = Some (normalize_dir (- ((2 - 1) + sqrt (discr 1 2 1 2)) / (2 * 1)))
  /\ evalv (fun _ => 0) (el2_vec (Lit 1) (Lit 2) (Lit 1) (Lit 2))
    = Some (normalize_dir (- ((2 - 1) - sqrt (discr 1 2 1 2)) / (2 * 1)))
  /\ - ((2 - 1) + sqrt (discr 1 2 1 2)) / (2 * 1)
     = (1 - 2 - sqrt (discr 1 2 1 2)) / (2 * 1)
  /\ - ((2 - 1) - sqrt (discr 1 2 1 2)) / (2 * 1)
     = (1 - 2 + sqrt (discr 1 2 1 2)) / (2 * 1).
Proof.
  apply (eigen_lines_formula (fun _ => 0) (Lit 1) (Lit 2) (Lit 1) (Lit 2) 1 2 1 2);
    try reflexivity.
  - lra.
  - unfold discr. lra.
Defined.



(** C9.  The square root and the division are unguarded: when the
    discriminant is negative (complex eigenvalues) the square root has no
    real value and neither line direction has one; the same happens when
    [c = 0], where the division by [2c] has no value. *)
Theorem eigen_lines_unguarded
    (env : nat -> R) (a b c d : Num) (A B C D : R) :
  eval env a = Some A -> eval env b = Some B ->
  eval env c = Some C -> eval env d = Some D ->
  (discr A B C D < 0 ->
     eval env (Sqrt (radicand a b c d)) = None
     /\ evalv env (el1_vec a b c d) = None
     /\ evalv env (el2_vec a b c d) = None)
  /\ (C = 0 ->
     eval env (Div (Lit 1) (Mul (Lit 2) c)) = None
     /\ evalv env (el1_vec a b c d) = None
     /\ evalv env (el2_vec a b c d) = None).
Proof.
  intros Ha Hb Hc Hd. split.
  - intros HD. split.
    + cbn [eval]. rewrite (eval_radicand env a b c d A B C D Ha Hb Hc Hd).
      cbn [obind]. apply psqrt_negative. exact HD.
    + apply (eval_el_vec_negative env a b c d A B C D Ha Hb Hc Hd HD).
  - intros HC. split.
    + cbn [eval]. rewrite Hc. cbn [olift2 obind]. apply pdiv_by_zero.
      rewrite HC. ring.
    + apply (eval_el_vec_zero_c env a b c d A B C D Ha Hb Hc Hd HC).
Qed.

(** The quarter turn has complex eigenvalues; the shear with columns
    [(1, 0)] and [(1, 2)] has [c = 0]. *)
Lemma eigen_lines_unguarded_witness :
  (discr 0 (-1) 1 0 < 0
   /\ eval (fun _ => 0) (Sqrt (radicand (Lit 0) (Lit (-1)) (Lit 1) (Lit 0))) = None
   /\ evalv (fun _ => 0) (el1_vec (Lit 0) (Lit (-1)) (Lit 1) (Lit 0)) = None
   /\ evalv (fun _ => 0) (el2_vec (Lit 0) (Lit (-1)) (Lit 1) (Lit 0)) = None)
  /\ (eval (fun _ => 0) (Div (Lit 1) (Mul (Lit 2) (Lit 0))) = None
   /\ evalv (fun _ => 0) (el1_vec (Lit 1) (Lit 1) (Lit 0) (Lit 2)) = None
   /\ evalv (fun _ => 0) (el2_vec (Lit 1) (Lit 1) (Lit 0) (Lit 2)) = None).
Proof.
  assert (Hneg : discr 0 (-1) 1 0 < 0) by (unfold discr; lra).
  split.
  - split; [exact Hneg |].
    apply (eigen_lines_unguarded (fun _ => 0)
             (Lit 0) (Lit (-1)) (Lit 1) (Lit 0) 0 (-1) 1 0);
      try reflexivity. exact Hneg.
  - apply (eigen_lines_unguarded (fun _ => 0)
             (Lit 1) (Lit 1) (Lit 0) (Lit 2) 1 1 0 2);
      reflexivity.
Defined.

End EigenClaims.

(** ** Instance graphs *)

Section SubstanceClaims.
Import Substance.

(** C8, as worded, fails: in the geometry diagram the point [G] (the
    orthocentre) has three [On] facts, one per altitude. *)
Lemma on_relation_counterexample :
  carriers_of (snd (defineSubstance empty)) (tG (fst (defineSubstance empty)))
  = [tAD (fst (defineSubstance empty));
     tBE (fst (defineSubstance empty));
     tCF (fst (defineSubstance empty))]
  /\ List.length
       (carriers_of (snd (defineSubstance_plain empty))
                    (tG (fst (defineSubstance_plain empty)))) = 3
  /\ ~ on_unique (snd (defineSubstance empty))
  /\ ~ on_unique (snd (defineSubstance_plain empty)).
Proof.
  split; [vm_compute; reflexivity |]. split; [vm_compute; reflexivity |]. split.
  - intros H. specialize (H (tG (fst (defineSubstance empty)))).
    vm_compute in H. lia.
  - intros H. specialize (H (tG (fst (defineSubstance_plain empty)))).
    vm_compute in H. lia.
Qed.

(** C8, amended.  In each instance graph every [On] fact relates one point
    to one carrier shape (an edge or a circle) of the graph and no [On] fact
    is recorded twice.  A point may lie on several carriers: [G] lies on the
    three altitudes, and every other point has at most one [On] fact. *)
Theorem on_facts_relate_point_to_carrier :
  (forallb (on_fact_ok (snd (defineSubstance empty)))
           (on_facts (snd (defineSubstance empty))) = true
   /\ distinct_facts (on_facts (snd (defineSubstance empty))) = true
   /\ forallb (fun p => Inst_eqb p (tG (fst (defineSubstance empty)))
                        || (List.length (carriers_of (snd (defineSubstance empty)) p) <=? 1))
              (insts (snd (defineSubstance empty))) = true)
  /\ (forallb (on_fact_ok (snd (defineSubstance_plain empty)))
              (on_facts (snd (defineSubstance_plain empty))) = true
      /\ distinct_facts (on_facts (snd (defineSubstance_plain empty))) = true
      /\ forallb (fun p => Inst_eqb p (tG (fst (defineSubstance_plain empty)))
                           || (List.length
                                 (carriers_of (snd (defineSubstance_plain empty)) p) <=? 1))
                 (insts (snd (defineSubstance_plain empty))) = true)
  /\ (forallb (on_fact_ok (snd (defineSubstance_tangents empty)))
              (on_facts (snd (defineSubstance_tangents empty))) = true
      /\ distinct_facts (on_facts (snd (defineSubstance_tangents empty))) = true
      /\ forallb (fun p => List.length
                             (carriers_of (snd (defineSubstance_tangents empty)) p) <=? 1)
                 (insts (snd (defineSubstance_tangents empty))) = true).
Proof.
  repeat match goal with |- _ /\ _ => split end; vm_compute; reflexivity.
Qed.

End SubstanceClaims.

(** ** The [useDiagram] hook *)

Section HookFacts.
Import Hook.

Context {Diagram Err : Type}.
Local Abbreviation World := (Hook.World Diagram Err).
Local Abbreviation Run := (Hook.Run Diagram Err).
Local Abbreviation Event := (Hook.Event Diagram Err).

Lemma length_update_run (k : nat) (f : Run -> Run) (rs : list Run) :
  List.length (update_run k f rs) = List.length rs.
Proof.
  revert k. induction rs as [| r rs IH]; intros [| k]; cbn; auto.
Qed.

Lemma nth_error_update_run (k j : nat) (f : Run -> Run) (rs : list Run) :
  nth_error (update_run k f rs) j
  = if Nat.eqb j k then option_map f (nth_error rs j) else nth_error rs j.
Proof.
  revert k j. induction rs as [| r rs IH]; intros k j.
  - destruct k, j; cbn; try reflexivity; destruct (Nat.eqb j k); reflexivity.
  - destruct k as [| k], j as [| j]; cbn; try reflexivity. apply IH.
Qed.

Lemma newest_length (w : World) (k : nat) :
  newest w = Some k <-> S k = List.length (runs w).
Proof.
  unfold newest. destruct (runs w) as [| r rs]; cbn.
  - split; [discriminate | lia].
  - split; [intros [= <-]; reflexivity | intros [= ->]; reflexivity].
Qed.

Lemma nth_error_in_range (rs : list Run) (k : nat) (r : Run) :
  nth_error rs k = Some r -> k < List.length rs.
Proof. intros H. apply nth_error_Some. congruence. Qed.

(** The states before any render. *)
Lemma Inv_init : Inv (@init Diagram Err).
Proof.
  unfold Inv, init. cbn. repeat split.
  - intros _. destruct k; discriminate.
  - destruct k; discriminate.
  - discriminate.
Qed.

Lemma runs_cleanup_newest (w : World) :
  runs (cleanup_newest w)
  = update_run (pred (List.length (runs w)))
      (fun r => mkRun (fn r) true (outcome r)) (runs w).
Proof.
  unfold cleanup_newest, newest. destruct (runs w) as [| r rs] eqn:E.
  - cbn. exact E.
  - unfold cleanup. cbn. rewrite E. reflexivity.
Qed.

Lemma fields_cleanup_newest (w : World) :
  phase (cleanup_newest w) = phase w
  /\ diagram (cleanup_newest w) = diagram w
  /\ deps (cleanup_newest w) = deps w
  /\ console (cleanup_newest w) = console w.
Proof.
  unfold cleanup_newest. destruct (newest w); repeat split; reflexivity.
Qed.

(** Cancelling the newest run and running the effect again. *)
Lemma Inv_rerun (w w' : World) (f : nat) :
  Inv w -> phase w = Mounted ->
  phase w' = Mounted -> diagram w' = None ->
  runs w' = update_run (pred (List.length (runs w)))
              (fun r => mkRun (fn r) true (outcome r)) (runs w)
            ++ [mkRun f false None] ->
  Inv w'.
Proof.
  intros (HF & HC & HD) Hm Hp' Hd' Hr'.
  unfold Inv, superseded. rewrite Hp', Hd', Hr', length_app, length_update_run.
  cbn [List.length]. repeat split.
  - discriminate.
  - intros Hc. left.
    destruct (Nat.eq_dec k (List.length (runs w))) as [-> | Hne].
    + rewrite nth_error_app2 in H by (rewrite length_update_run; lia).
      rewrite length_update_run, Nat.sub_diag in H. cbn in H.
      injection H as <-. discriminate.
    + apply nth_error_in_range in H. rewrite length_app, length_update_run in H.
      cbn in H. lia.
  - intros Hs.
    destruct (Nat.eq_dec k (List.length (runs w))) as [-> | Hne].
    + destruct Hs as [Hs | Hs]; [lia | discriminate].
    + pose proof (nth_error_in_range _ _ _ H) as Hk.
      rewrite length_app, length_update_run in Hk. cbn in Hk.
      rewrite nth_error_app1 in H by (rewrite length_update_run; lia).
      rewrite nth_error_update_run in H.
      destruct (Nat.eqb k (pred (List.length (runs w)))) eqn:Ek.
      * destruct (nth_error (runs w) k); [| discriminate].
        injection H as <-. reflexivity.
      * apply Nat.eqb_neq in Ek. apply (HC k r H). left. lia.
  - discriminate.
Qed.

(** The first render: the effect runs with no cleanup before it. *)
Lemma Inv_first_run (w w' : World) (f : nat) :
  Inv w -> phase w = Fresh ->
  phase w' = Mounted -> diagram w' = None ->
  runs w' = runs w ++ [mkRun f false None] ->
  Inv w'.
Proof.
  intros (HF & HC & HD) Hm Hp' Hd' Hr'.
  unfold Inv, superseded. rewrite Hp', Hd', Hr', (HF Hm). cbn.
  repeat split; try discriminate.
  - intros Hc. destruct k as [| [| k]]; cbn in H; try discriminate.
    injection H as <-. discriminate.
  - intros [Hs | Hs]; [lia | discriminate].
Qed.

(** Unmounting: the last cleanup runs. *)
Lemma Inv_unmount (w w' : World) :
  Inv w -> phase w = Mounted ->
  phase w' = Gone -> diagram w' = diagram w ->
  runs w' = update_run (pred (List.length (runs w)))
              (fun r => mkRun (fn r) true (outcome r)) (runs w) ->
  Inv w'.
Proof.
  intros (HF & HC & HD) Hm Hp' Hd' Hr'.
  unfold Inv, superseded, newest. rewrite Hp', Hd', Hr', length_update_run.
  repeat split.
  - discriminate.
  - intros _. right. reflexivity.
  - intros _. rewrite nth_error_update_run in H.
    destruct (Nat.eqb k (pred (List.length (runs w)))) eqn:Ek.
    + destruct (nth_error (runs w) k); [| discriminate].
      injection H as <-. reflexivity.
    + apply Nat.eqb_neq in Ek. apply (HC k r H). left.
      apply nth_error_in_range in H. lia.
  - intros dgm Hdg. destruct (HD dgm Hdg) as (k & r & Hn & Hk & Ho).
    apply newest_length in Hn.
    exists k, (mkRun (fn r) true (outcome r)). repeat split.
    + destruct (update_run _ _ (runs w)) as [| r0 rs0] eqn:E.
      * apply (f_equal (@List.length _)) in E. rewrite length_update_run in E.
        cbn in E. lia.
      * apply (f_equal (@List.length _)) in E. rewrite length_update_run in E.
        cbn in E. f_equal. lia.
    + rewrite nth_error_update_run.
      replace (Nat.eqb k (pred (List.length (runs w)))) with true
        by (symmetry; apply Nat.eqb_eq; lia).
      rewrite Hk. reflexivity.
    + exact Ho.
Qed.


(** A promise settles: the outcome is recorded and the state cell is either
    left alone, or set to the resolved diagram by a run that is not
    cancelled. *)
Lemma Inv_settle_fields (w w' : World) (k : nat) (r : Run) (o : Outcome Diagram Err) :
  Inv w -> nth_error (runs w) k = Some r -> outcome r = None ->
  phase w' = phase w ->
  runs w' = update_run k (fun r => mkRun (fn r) (cancelled r) (Some o)) (runs w) ->
  (forall dgm, diagram w' = Some dgm ->
     diagram w = Some dgm \/ (cancelled r = false /\ o = Resolved dgm)) ->
  Inv w'.
Proof.
  intros (HF & HC & HD) Hk Ho Hp' Hr' Hd'.
  pose proof (nth_error_in_range _ _ _ Hk) as Hlt.
  unfold Inv, superseded, newest. rewrite Hp', Hr', length_update_run.
  repeat split.
  - intros Hf. rewrite (HF Hf) in Hk. destruct k; discriminate.
  - intros Hc. rewrite nth_error_update_run in H.
    destruct (Nat.eqb k0 k) eqn:Ek.
    + apply Nat.eqb_eq in Ek. subst k0. rewrite Hk in H. cbn in H.
      injection H as <-. cbn in Hc. apply (HC k r Hk). exact Hc.
    + apply (HC k0 r0 H). exact Hc.
  - intros Hs. rewrite nth_error_update_run in H.
    destruct (Nat.eqb k0 k) eqn:Ek.
    + apply Nat.eqb_eq in Ek. subst k0. rewrite Hk in H. cbn in H.
      injection H as <-. cbn. apply (HC k r Hk). exact Hs.
    + apply (HC k0 r0 H). exact Hs.
  - intros dgm Hdg.
    assert (Hnew : forall j, S j = List.length (runs w) ->
              match update_run k (fun r => mkRun (fn r) (cancelled r) (Some o)) (runs w) with
              | [] => None
              | _ :: rs => Some (List.length rs)
              end = Some j).
    { intros j Hj. destruct (update_run _ _ (runs w)) as [| r0 rs0] eqn:E;
        apply (f_equal (@List.length _)) in E; rewrite length_update_run in E;
        cbn in E; [lia | f_equal; lia]. }
    destruct (Hd' dgm Hdg) as [Hold | [Hc ->]].
    + destruct (HD dgm Hold) as (k0 & r0 & Hn & Hk0 & Ho0).
      apply newest_length in Hn.
      exists k0, r0. repeat split; [apply Hnew; exact Hn | | exact Ho0].
      rewrite nth_error_update_run.
      destruct (Nat.eqb k0 k) eqn:Ek; [| exact Hk0].
      apply Nat.eqb_eq in Ek. subst k0. congruence.
    + assert (Hlast : S k = List.length (runs w)).
      { destruct (Nat.eq_dec (S k) (List.length (runs w))) as [E | N]; [exact E |].
        assert (Hs : superseded w k) by (left; lia).
        apply (HC k r Hk) in Hs. congruence. }
      exists k, (mkRun (fn r) (cancelled r) (Some (Resolved dgm))).
      repeat split; [apply Hnew; exact Hlast |].
      rewrite nth_error_update_run, Nat.eqb_refl, Hk. reflexivity.
Qed.

Lemma Inv_settle (w : World) (k : nat) (r : Run) (o : Outcome Diagram Err) :
  Inv w -> nth_error (runs w) k = Some r -> outcome r = None ->
  Inv (resume r o
         (set_runs (update_run k (fun r => mkRun (fn r) (cancelled r) (Some o))
                               (runs w)) w)).
Proof.
  intros HI Hk Ho.
  apply (Inv_settle_fields w _ k r o HI Hk Ho).
  - unfold resume. destruct o, (cancelled r); reflexivity.
  - unfold resume. destruct o, (cancelled r); reflexivity.
  - intros dgm. unfold resume.
    destruct o as [built | err], (cancelled r); cbn; intros E;
      try discriminate; try (left; exact E).
    right. split; [reflexivity | congruence].
Qed.

(** Every event preserves the invariant. *)
Lemma Inv_step (w : World) (e : Event) : Inv w -> Inv (step w e).
Proof.
  intros HI. destruct e as [f | | k o |]; unfold step.
  - destruct (phase w) eqn:Hp; [| | exact HI].
    + apply (Inv_first_run w _ f HI Hp); reflexivity.
    + destruct (same_deps (deps w) f); [exact HI |].
      apply (Inv_rerun w _ f HI Hp); try reflexivity.
      unfold effect. cbn. rewrite runs_cleanup_newest. reflexivity.
  - destruct (phase w) eqn:Hp; try exact HI.
    destruct (deps w) as [f |]; [| exact HI].
    destruct (fields_cleanup_newest w) as (Hp' & _).
    apply (Inv_rerun w _ f HI Hp).
    + unfold effect. cbn. rewrite Hp'. exact Hp.
    + reflexivity.
    + unfold effect. cbn. rewrite runs_cleanup_newest. reflexivity.
  - destruct (nth_error (runs w) k) as [r |] eqn:Hk; [| exact HI].
    destruct (outcome r) eqn:Ho; [exact HI |].
    apply Inv_settle; assumption.
  - destruct (phase w) eqn:Hp; try exact HI.
    destruct (fields_cleanup_newest w) as (_ & Hd' & _).
    apply (Inv_unmount w _ HI Hp); try reflexivity.
    + cbn. exact Hd'.
    + cbn. apply runs_cleanup_newest.
Qed.

Lemma Inv_fold (evs : list Event) (w : World) :
  Inv w -> Inv (fold_left step evs w).
Proof.
  revert w. induction evs as [| e evs IH]; intros w HI; cbn.
  - exact HI.
  - apply IH, Inv_step, HI.
Qed.

(** The invariant holds in every reachable state. *)
Lemma Inv_exec (evs : list Event) : Inv (exec evs).
Proof. apply Inv_fold, Inv_init. Qed.

End HookFacts.

Section HookClaims.
Import Hook.

(** C6.  In every execution, a run that has been superseded (a later run
    exists because the build function changed or the effect was replayed,
    or the component is gone) never writes its resolved diagram into the
    state; and whenever the state holds a diagram, it is the one the promise
    of the newest run resolved to. *)
Theorem stale_result_never_applied
    (Diagram Err : Type) (evs : list (Event Diagram Err)) :
  (forall (k : nat) (built : Diagram),
      superseded (exec evs) k ->
      diagram (step (exec evs) (Settle k (Resolved built))) = diagram (exec evs))
  /\ (forall dgm : Diagram,
      diagram (exec evs) = Some dgm ->
      exists k r, newest (exec evs) = Some k
                  /\ nth_error (runs (exec evs)) k = Some r
                  /\ outcome r = Some (Resolved dgm)).
Proof.
  destruct (Inv_exec evs) as (_ & HC & HD). split; [| exact HD].
  intros k built Hs. unfold step.
  destruct (nth_error (runs (exec evs)) k) as [r |] eqn:Hk; [| reflexivity].
  destruct (outcome r); [reflexivity |].
  apply (HC k r Hk) in Hs. unfold resume. rewrite Hs. reflexivity.
Qed.

Lemma stale_result_never_applied_witness :
  diagram (step (exec [Render 0; Render 1]) (Settle 0 (@Resolved nat nat 5)))
  = diagram (exec [@Render nat nat 0; Render 1])
  /\ diagram (exec [@Render nat nat 0; Render 1; Settle 0 (Resolved 5)]) = None
  /\ diagram (exec [@Render nat nat 0; Render 1; Settle 0 (Resolved 5);
                    Settle 1 (Resolved 6)]) = Some 6.
Proof.
  split; [| split; reflexivity].
  apply (proj1 (stale_result_never_applied nat nat [Render 0; Render 1]) 0 5).
  left. cbn. lia.
Defined.

(** C7, as worded, fails: a build that rejects after it was superseded is
    logged, but the state keeps the diagram of the newer build. *)
Lemma stale_rejection_counterexample :
  diagram (exec [@Render nat nat 0; Render 1; Settle 1 (Resolved 7);
                 Settle 0 (Rejected 9)]) = Some 7
  /\ console (exec [@Render nat nat 0; Render 1; Settle 1 (Resolved 7);
                    Settle 0 (Rejected 9)]) = [9]
  /\ diagram (exec [@Render nat nat 0; Render 1; Settle 1 (Resolved 7);
                    Settle 0 (Rejected 9)]) <> None.
Proof. repeat split; try reflexivity. cbn. discriminate. Qed.

(** C7, amended.  When the promise of a run in flight rejects, the error is
    logged and no build is started (no retry).  If the run has not been
    superseded the state is null afterwards; if it has, the state is left as
    it was. *)
Theorem rejection_logged_without_retry
    (Diagram Err : Type) (evs : list (Event Diagram Err)) (k : nat) (err : Err) :
  in_flight (exec evs) k ->
  console (step (exec evs) (Settle k (Rejected err))) = console (exec evs) ++ [err]
  /\ build_calls (step (exec evs) (Settle k (Rejected err))) = build_calls (exec evs)
  /\ (~ superseded (exec evs) k ->
      diagram (step (exec evs) (Settle k (Rejected err))) = None)
  /\ (superseded (exec evs) k ->
      diagram (step (exec evs) (Settle k (Rejected err))) = diagram (exec evs)).
Proof.
  intros (r & Hk & Ho).
  destruct (Inv_exec evs) as (_ & HC & _).
  unfold step, build_calls. rewrite Hk, Ho. unfold resume.
  destruct (cancelled r) eqn:Hc; cbn; rewrite length_update_run; repeat split.
  - intros Hn. exfalso. apply Hn. apply (HC k r Hk). exact Hc.
  - intros Hs. apply (HC k r Hk) in Hs. congruence.
Qed.

Lemma rejection_logged_without_retry_witness :
  console (step (exec [@Render nat nat 0]) (Settle 0 (Rejected 9))) = [9]
  /\ build_calls (step (exec [@Render nat nat 0]) (Settle 0 (Rejected 9))) = 1
  /\ diagram (step (exec [@Render nat nat 0]) (Settle 0 (Rejected 9))) = None.
Proof.
  destruct (rejection_logged_without_retry nat nat [Render 0] 0 9)
    as (Hlog & Hcalls & Hnull & _).
  - exists (mkRun 0 false None). split; reflexivity.
  - split; [exact Hlog | split; [exact Hcalls |]].
    apply Hnull. intros [Hs | Hs]; [cbn in Hs; lia | discriminate].
Defined.

(** C10.  A render with a changed build function (the first render
    included) leaves the state null and a new build in flight; and in every
    reachable state, while the newest build is in flight the state is null,
    so no earlier diagram is shown during a rebuild. *)
Theorem rebuild_resets_to_null
    (Diagram Err : Type) (evs : list (Event Diagram Err)) :
  (forall f : nat,
      phase (exec evs) <> Gone ->
      same_deps (deps (exec evs)) f = false ->
      diagram (step (exec evs) (Render f)) = None
      /\ newest (step (exec evs) (Render f)) = Some (build_calls (exec evs))
      /\ in_flight (step (exec evs) (Render f)) (build_calls (exec evs)))
  /\ (forall k : nat,
      newest (exec evs) = Some k ->
      in_flight (exec evs) k ->
      diagram (exec evs) = None).
Proof.
  split.
  - intros f Hp Hd. unfold step. rewrite Hd.
    assert (Hnew : forall (rs : list (Run Diagram Err)) (r : Run Diagram Err)
                     (w : World Diagram Err),
               runs w = rs ++ [r] ->
               newest w = Some (List.length rs)
               /\ nth_error (runs w) (List.length rs) = Some r).
    { intros rs r w E. split.
      - apply newest_length. rewrite E, length_app. cbn. lia.
      - rewrite E, nth_error_app2, Nat.sub_diag by lia. reflexivity. }
    destruct (phase (exec evs)) eqn:Ep; [| | contradiction].
    + split; [reflexivity |]. unfold build_calls, in_flight.
      destruct (Hnew (runs (exec evs)) (mkRun f false None)
                  (effect f (mkWorld Mounted (diagram (exec evs)) (Some f)
                                     (runs (exec evs)) (console (exec evs)))))
        as (Hn & Hk); [reflexivity |].
      split; [exact Hn |]. eexists. split; [exact Hk | reflexivity].
    + split; [reflexivity |]. unfold build_calls, in_flight.
      set (w1 := cleanup_newest (exec evs)).
      assert (Hlen : List.length (runs w1) = List.length (runs (exec evs))).
      { unfold w1. rewrite runs_cleanup_newest. apply length_update_run. }
      destruct (Hnew (runs w1) (mkRun f false None)
                  (effect f (mkWorld Mounted (diagram w1) (Some f)
                                     (runs w1) (console w1))))
        as (Hn & Hk); [reflexivity |].
      rewrite Hlen in Hn, Hk.
      split; [exact Hn |]. eexists. split; [exact Hk | reflexivity].
  - intros k Hn (r & Hk & Ho).
    destruct (Inv_exec evs) as (_ & _ & HD).
    destruct (diagram (exec evs)) as [dgm |] eqn:Ed; [| reflexivity].
    destruct (HD dgm eq_refl) as (k' & r' & Hn' & Hk' & Ho').
    congruence.
Qed.

Lemma rebuild_resets_to_null_witness :
  diagram (exec [@Render nat nat 0; Settle 0 (Resolved 7)]) = Some 7
  /\ diagram (step (exec [@Render nat nat 0; Settle 0 (Resolved 7)]) (Render 1)) = None
  /\ newest (step (exec [@Render nat nat 0; Settle 0 (Resolved 7)]) (Render 1)) = Some 1
  /\ in_flight (step (exec [@Render nat nat 0; Settle 0 (Resolved 7)]) (Render 1)) 1.
Proof.
  split; [reflexivity |].
  apply (proj1 (rebuild_resets_to_null nat nat [Render 0; Settle 0 (Resolved 7)]) 1).
  - discriminate.
  - reflexivity.
Defined.

End HookClaims.

(** ** Further properties of the [useDiagram] hook *)

Section HookExtraFacts.
Import Hook.

Context {Diagram Err : Type}.
Local Abbreviation World := (Hook.World Diagram Err).
Local Abbreviation Event := (Hook.Event Diagram Err).

(** Once the component is gone, every event leaves the state cell and the
    number of builds as they are. *)
Lemma gone_step (w : World) (e : Event) :
  Inv w -> phase w = Gone ->
  phase (step w e) = Gone
  /\ diagram (step w e) = diagram w
  /\ build_calls (step w e) = build_calls w.
Proof.
  intros (_ & HC & _) Hg. unfold build_calls.
  destruct e as [f | | k o |]; unfold step; rewrite ?Hg; try (repeat split; assumption).
  destruct (nth_error (runs w) k) as [r |] eqn:Hk; [| repeat split; assumption].
  destruct (outcome r); [repeat split; assumption |].
  assert (Hc : cancelled r = true) by (apply (HC k r Hk); right; exact Hg).
  unfold resume. rewrite Hc. destruct o; cbn; rewrite length_update_run;
    repeat split; assumption.
Qed.

Lemma gone_fold (evs : list Event) (w : World) :
  Inv w -> phase w = Gone ->
  diagram (fold_left step evs w) = diagram w
  /\ build_calls (fold_left step evs w) = build_calls w.
Proof.
  revert w. induction evs as [| e evs IH]; intros w HI Hg; cbn.
  - split; reflexivity.
  - destruct (gone_step w e HI Hg) as (Hg' & Hd & Hb).
    destruct (IH (step w e) (Inv_step w e HI) Hg') as (Hd' & Hb').
    split; congruence.
Qed.

End HookExtraFacts.

Section HookExtras.
Import Hook.

(** X1.  When the promise of a run that is in flight and not superseded
    resolves, its diagram becomes the state; nothing is logged and no build
    is started. *)
Theorem live_resolution_sets_diagram
    (Diagram Err : Type) (evs : list (Event Diagram Err)) (k : nat) (built : Diagram) :
  in_flight (exec evs) k ->
  ~ superseded (exec evs) k ->
  diagram (step (exec evs) (Settle k (Resolved built))) = Some built
  /\ console (step (exec evs) (Settle k (Resolved built))) = console (exec evs)
  /\ build_calls (step (exec evs) (Settle k (Resolved built))) = build_calls (exec evs).
Proof.
  intros (r & Hk & Ho) Hns.
  destruct (Inv_exec evs) as (_ & HC & _).
  assert (Hc : cancelled r = false).
  { destruct (cancelled r) eqn:E; [| reflexivity].
    exfalso. apply Hns. apply (HC k r Hk). exact E. }
  unfold step, build_calls. rewrite Hk, Ho. unfold resume. rewrite Hc. cbn.
  rewrite length_update_run. repeat split.
Qed.

Lemma live_resolution_sets_diagram_witness :
  diagram (step (exec [@Render nat nat 0; Render 1]) (Settle 1 (Resolved 7))) = Some 7
  /\ console (step (exec [@Render nat nat 0; Render 1]) (Settle 1 (Resolved 7)))
     = console (exec [@Render nat nat 0; Render 1])
  /\ build_calls (step (exec [@Render nat nat 0; Render 1]) (Settle 1 (Resolved 7)))
     = build_calls (exec [@Render nat nat 0; Render 1]).
Proof.
  apply (live_resolution_sets_diagram nat nat [Render 0; Render 1] 1 7).
  - exists (mkRun 1 false None). split; reflexivity.
  - intros [Hs | Hs]; [cbn in Hs; lia | discriminate].
Defined.

(** X2.  In every reachable state at most one run is not cancelled: it is
    the newest one, and the component is mounted. *)
Theorem at_most_one_live_run
    (Diagram Err : Type) (evs : list (Event Diagram Err)) (j k : nat)
    (rj rk : Run Diagram Err) :
  nth_error (runs (exec evs)) j = Some rj ->
  nth_error (runs (exec evs)) k = Some rk ->
  cancelled rj = false -> cancelled rk = false ->
  j = k /\ newest (exec evs) = Some k /\ phase (exec evs) = Mounted.
Proof.
  intros Hj Hk Hcj Hck.
  destruct (Inv_exec evs) as (HF & HC & _).
  assert (Hlive : forall i r, nth_error (runs (exec evs)) i = Some r ->
                    cancelled r = false ->
                    S i = List.length (runs (exec evs)) /\ phase (exec evs) <> Gone).
  { intros i r Hi Hc. pose proof (nth_error_in_range _ _ _ Hi) as Hlt.
    split.
    - destruct (Nat.eq_dec (S i) (List.length (runs (exec evs)))) as [E | N];
        [exact E |].
      assert (Hs : superseded (exec evs) i) by (left; lia).
      apply (HC i r Hi) in Hs. congruence.
    - intros Hg. assert (Hs : superseded (exec evs) i) by (right; exact Hg).
      apply (HC i r Hi) in Hs. congruence. }
  destruct (Hlive j rj Hj Hcj) as (Ej & _).
  destruct (Hlive k rk Hk Hck) as (Ek & Hg).
  split; [lia |]. split; [apply newest_length; exact Ek |].
  destruct (phase (exec evs)) eqn:Ep; [| reflexivity | contradiction].
  rewrite (HF eq_refl) in Hk. destruct k; discriminate.
Qed.

Lemma at_most_one_live_run_witness :
  2 = 2
  /\ newest (exec [@Render nat nat 0; Render 1; StrictReplay]) = Some 2
  /\ phase (exec [@Render nat nat 0; Render 1; StrictReplay]) = Mounted.
Proof.
  apply (at_most_one_live_run nat nat [Render 0; Render 1; StrictReplay] 2 2
           (mkRun 1 false None) (mkRun 1 false None)); reflexivity.
Defined.

(** X3.  After the component has unmounted, nothing that happens later
    changes the state or starts a build: late results are dropped. *)
Theorem no_update_after_unmount
    (Diagram Err : Type) (evs later : list (Event Diagram Err)) :
  phase (exec evs) = Gone ->
  diagram (exec (evs ++ later)) = diagram (exec evs)
  /\ build_calls (exec (evs ++ later)) = build_calls (exec evs).
Proof.
  intros Hg. unfold exec at 1 3. rewrite fold_left_app.
  apply gone_fold; [apply Inv_exec | exact Hg].
Qed.

Lemma no_update_after_unmount_witness :
  diagram (exec ([@Render nat nat 0; Unmount]
                 ++ [Settle 0 (Resolved 7); Render 1; StrictReplay]))
  = diagram (exec [@Render nat nat 0; Unmount])
  /\ build_calls (exec ([@Render nat nat 0; Unmount]
                        ++ [Settle 0 (Resolved 7); Render 1; StrictReplay]))
     = build_calls (exec [@Render nat nat 0; Unmount]).
Proof.
  apply (no_update_after_unmount nat nat [Render 0; Unmount]
           [Settle 0 (Resolved 7); Render 1; StrictReplay]).
  reflexivity.
Defined.

(** X4.  Whenever the newest build has failed, the state is null: no result
    of an older build can take its place. *)
Theorem failed_newest_build_shows_null
    (Diagram Err : Type) (evs : list (Event Diagram Err)) (k : nat)
    (r : Run Diagram Err) (err : Err) :
  newest (exec evs) = Some k ->
  nth_error (runs (exec evs)) k = Some r ->
  outcome r = Some (Rejected err) ->
  diagram (exec evs) = None.
Proof.
  intros Hn Hk Ho.
  destruct (Inv_exec evs) as (_ & _ & HD).
  destruct (diagram (exec evs)) as [dgm |] eqn:Ed; [| reflexivity].
  destruct (HD dgm eq_refl) as (k' & r' & Hn' & Hk' & Ho'). congruence.
Qed.

Lemma failed_newest_build_shows_null_witness :
  diagram (exec [@Render nat nat 0; Settle 0 (Resolved 7); Render 1;
                 Settle 1 (Rejected 9)]) = None.
Proof.
  apply (failed_newest_build_shows_null nat nat
           [Render 0; Settle 0 (Resolved 7); Render 1; Settle 1 (Rejected 9)]
           1 (mkRun 1 false (Some (Rejected 9))) 9); reflexivity.
Defined.

End HookExtras.

(** ** The gallery *)

Section GalleryFacts.
Import Gallery.

Context {Diagram Err : Type}.
Local Abbreviation State := (Gallery.State Diagram Err).
Local Abbreviation GEvent := (Gallery.Event Diagram Err).

Lemma nth_error_last_app {A : Type} (xs : list A) (x : A) :
  nth_error (xs ++ [x]) (pred (List.length (xs ++ [x]))) = Some x.
Proof.
  rewrite length_app. cbn. rewrite Nat.add_1_r. cbn.
  rewrite nth_error_app2, Nat.sub_diag by lia. reflexivity.
Qed.

(** The newest run after an effect is the one just started. *)
Lemma newest_after_effect (w : Hook.World Diagram Err) (f : nat) :
  forall k r,
    Hook.newest (Hook.effect f w) = Some k ->
    nth_error (Hook.runs (Hook.effect f w)) k = Some r ->
    Hook.fn r = f.
Proof.
  intros k r Hn Hk. apply newest_length in Hn.
  unfold Hook.effect in *. cbn in *. rewrite length_app in Hn. cbn in Hn.
  assert (k = List.length (Hook.runs w)) by lia. subst k.
  rewrite nth_error_app2, Nat.sub_diag in Hk by lia. cbn in Hk.
  injection Hk as <-. reflexivity.
Qed.

(** Recording an outcome or cancelling a run keeps the build function of
    every run. *)
Lemma fn_update_run (rs : list (Hook.Run Diagram Err)) (j k : nat)
    (g : Hook.Run Diagram Err -> Hook.Run Diagram Err) (r : Hook.Run Diagram Err) :
  (forall x, Hook.fn (g x) = Hook.fn x) ->
  nth_error (Hook.update_run j g rs) k = Some r ->
  exists r0, nth_error rs k = Some r0 /\ Hook.fn r0 = Hook.fn r.
Proof.
  intros Hg Hk. rewrite nth_error_update_run in Hk.
  destruct (Nat.eqb k j).
  - destruct (nth_error rs k) as [r0 |]; [| discriminate].
    cbn in Hk. injection Hk as <-. exists r0. split; [reflexivity | symmetry; apply Hg].
  - exists r. split; [exact Hk | reflexivity].
Qed.

Lemma newest_set_runs (w : Hook.World Diagram Err) (rs : list (Hook.Run Diagram Err)) (k : nat) :
  List.length rs = List.length (Hook.runs w) ->
  Hook.newest (Hook.set_runs rs w) = Some k -> Hook.newest w = Some k.
Proof.
  intros Hl Hn. apply newest_length in Hn. apply newest_length.
  cbn in Hn. lia.
Qed.

(** The hook events leave the dependency and the build function of the
    newest run as they are. *)
Lemma hook_event_keeps (w : Hook.World Diagram Err) (e : Hook.Event Diagram Err) (f : nat) :
  (forall g, e <> Hook.Render g) ->
  Hook.phase w <> Hook.Fresh ->
  Hook.deps w = Some f ->
  (forall k r, Hook.newest w = Some k -> nth_error (Hook.runs w) k = Some r ->
               Hook.fn r = f) ->
  Hook.phase (Hook.step w e) <> Hook.Fresh
  /\ Hook.deps (Hook.step w e) = Some f
  /\ (forall k r, Hook.newest (Hook.step w e) = Some k ->
                  nth_error (Hook.runs (Hook.step w e)) k = Some r ->
                  Hook.fn r = f).
Proof.
  intros Hne Hp Hd Hf.
  destruct e as [g | | j o |]; [exfalso; apply (Hne g); reflexivity | | |].
  - unfold Hook.step.
    destruct (Hook.phase w) eqn:Ep;
      [exfalso; apply Hp; reflexivity | |
       split; [rewrite Ep; discriminate | split; assumption]].
    rewrite Hd. destruct (fields_cleanup_newest w) as (Hp' & _ & Hd' & _).
    repeat split.
    + change (Hook.phase (Hook.cleanup_newest w) <> Hook.Fresh).
      rewrite Hp', Ep. discriminate.
    + change (Hook.deps (Hook.cleanup_newest w) = Some f).
      rewrite Hd'. exact Hd.
    + apply newest_after_effect.
  - unfold Hook.step.
    destruct (nth_error (Hook.runs w) j) as [r |] eqn:Hj;
      [| split; [exact Hp | split; assumption]].
    destruct (Hook.outcome r); [split; [exact Hp | split; assumption] |].
    assert (E : forall w1 : Hook.World Diagram Err,
              Hook.phase (Hook.resume r o w1) = Hook.phase w1
              /\ Hook.deps (Hook.resume r o w1) = Hook.deps w1
              /\ Hook.runs (Hook.resume r o w1) = Hook.runs w1).
    { intros w1. unfold Hook.resume. destruct o, (Hook.cancelled r); repeat split. }
    match goal with |- context [Hook.resume r o ?w1] => destruct (E w1) as (E1 & E2 & E3) end.
    rewrite E1, E2. repeat split; try assumption.
    intros k r' Hn Hk. rewrite E3 in Hk. cbn in Hk.
    apply newest_length in Hn. rewrite E3 in Hn. cbn in Hn.
    rewrite length_update_run in Hn.
    apply fn_update_run in Hk; [| reflexivity].
    destruct Hk as (r0 & Hk0 & <-). apply (Hf k r0); [| exact Hk0].
    apply newest_length. exact Hn.
  - unfold Hook.step.
    destruct (Hook.phase w) eqn:Ep;
      [exfalso; apply Hp; reflexivity | |
       split; [rewrite Ep; discriminate | split; assumption]].
    destruct (fields_cleanup_newest w) as (_ & _ & Hd' & _).
    repeat split.
    + discriminate.
    + change (Hook.deps (Hook.cleanup_newest w) = Some f).
      rewrite Hd'. exact Hd.
    + intros k r Hn Hk.
      change (nth_error (Hook.runs (Hook.cleanup_newest w)) k = Some r) in Hk.
      rewrite runs_cleanup_newest in Hk.
      apply newest_length in Hn.
      change (S k = List.length (Hook.runs (Hook.cleanup_newest w))) in Hn.
      rewrite runs_cleanup_newest, length_update_run in Hn.
      apply fn_update_run in Hk; [| reflexivity].
      destruct Hk as (r0 & Hk0 & <-). apply (Hf k r0); [| exact Hk0].
      apply newest_length. exact Hn.
Qed.

Lemma GInv_hook_event (s : State) (e : Hook.Event Diagram Err) :
  (forall g, e <> Hook.Render g) ->
  GInv s ->
  GInv (mkState (selectedDiagram s) (callbacks s) (Hook.step (hook s) e)).
Proof.
  intros Hne (HI & Hp & Hd & Hc & Hf).
  destruct (hook_event_keeps (hook s) e _ Hne Hp Hd Hf) as (Hp' & Hd' & Hf').
  unfold GInv. cbn [hook callbacks selectedDiagram].
  split; [apply Inv_step; exact HI |].
  split; [exact Hp' |]. split; [exact Hd' |]. split; [exact Hc | exact Hf'].
Qed.

(** A render that creates a callback passes it to the hook, which starts a
    build with it. *)
Lemma GInv_render_fresh (s : State) (t : DiagramType) :
  Hook.Inv (hook s) ->
  Hook.phase (hook s) <> Hook.Gone ->
  (Hook.phase (hook s) = Hook.Mounted ->
   Hook.deps (hook s) = Some (pred (List.length (callbacks s)))
   /\ callbacks s <> []) ->
  GInv (render true t s).
Proof.
  intros HI Hg Hm. unfold render. cbn [negb].
  set (cbs := callbacks s ++ [option_map buildFunction (currentConfig t)]).
  assert (Hlen : pred (List.length cbs) = List.length (callbacks s)).
  { unfold cbs. rewrite length_app. cbn. lia. }
  assert (Hstep : exists w0 : Hook.World Diagram Err,
            Hook.step (hook s) (Hook.Render (pred (List.length cbs)))
            = Hook.effect (pred (List.length cbs)) w0
            /\ Hook.phase w0 = Hook.Mounted
            /\ Hook.deps w0 = Some (pred (List.length cbs))).
  { unfold Hook.step. destruct (Hook.phase (hook s)) eqn:Ep; [| | contradiction].
    - eexists. split; [reflexivity |]. split; reflexivity.
    - destruct (Hm eq_refl) as (Hd & Hne). rewrite Hd. cbn [Hook.same_deps].
      replace (Nat.eqb (pred (List.length (callbacks s))) (pred (List.length cbs)))
        with false.
      + eexists. split; [reflexivity |]. split; reflexivity.
      + symmetry. apply Nat.eqb_neq. rewrite Hlen.
        destruct (callbacks s); [contradiction | cbn; lia]. }
  destruct Hstep as (w0 & Hs & Hp0 & Hd0).
  unfold GInv. cbn [hook callbacks selectedDiagram].
  split; [apply Inv_step; exact HI |].
  split; [rewrite Hs; cbn; rewrite Hp0; discriminate |].
  split; [rewrite Hs; cbn; exact Hd0 |].
  split; [apply nth_error_last_app |].
  rewrite Hs. apply newest_after_effect.
Qed.

Lemma GInv_mount : GInv (@mount Diagram Err).
Proof.
  unfold mount. apply GInv_render_fresh.
  - apply Inv_init.
  - discriminate.
  - discriminate.
Qed.

Lemma GInv_step (s : State) (e : GEvent) : GInv s -> GInv (step s e).
Proof.
  intros HG. destruct e as [t | k o | |]; unfold step.
  - destruct (Hook.phase (hook s)) eqn:Ep; [| | exact HG].
    + destruct HG as (_ & Hp & _). contradiction.
    + destruct (DiagramType_eqb t (selectedDiagram s)) eqn:Et; cbn [negb].
      * assert (t = selectedDiagram s) by (destruct t, (selectedDiagram s); (reflexivity || discriminate)).
        subst t. unfold render.
        destruct HG as (HI & Hp & Hd & Hc & Hf).
        assert (Hsame : Hook.step (hook s) (Hook.Render (pred (List.length (callbacks s))))
                        = hook s).
        { unfold Hook.step. rewrite Ep, Hd. cbn. rewrite Nat.eqb_refl. reflexivity. }
        rewrite Hsame. unfold GInv. cbn [hook callbacks selectedDiagram].
        split; [exact HI |]. split; [exact Hp |]. split; [exact Hd |].
        split; [exact Hc | exact Hf].
      * destruct HG as (HI & Hp & Hd & Hc & Hf).
        apply GInv_render_fresh; [exact HI | rewrite Ep; discriminate |].
        intros _. split; [exact Hd |]. intros E. rewrite E in Hc. discriminate.
  - apply GInv_hook_event; [discriminate | exact HG].
  - apply GInv_hook_event; [discriminate | exact HG].
  - apply GInv_hook_event; [discriminate | exact HG].
Qed.

Lemma GInv_exec (evs : list GEvent) : GInv (exec evs).
Proof.
  unfold exec. generalize (@GInv_mount). generalize (@mount Diagram Err).
  induction evs as [| e evs IH]; intros s HG; cbn.
  - exact HG.
  - apply IH, GInv_step, HG.
Qed.

End GalleryFacts.

Section GalleryExtras.
Import Gallery.

Lemma currentConfig_some (t : DiagramType) :
  exists cfg : DiagramConfig, currentConfig t = Some cfg /\ id cfg = t.
Proof. destruct t; eexists; split; reflexivity. Qed.

(** X5.  The lookup of the current configuration never comes back empty:
    every diagram type has exactly one entry in the configuration array, so
    the non-null assertion on [find] is safe. *)
Theorem currentConfig_found (t : DiagramType) :
  exists cfg : DiagramConfig,
    currentConfig t = Some cfg
    /\ id cfg = t
    /\ (forall cfg', In cfg' diagrams -> id cfg' = t -> cfg' = cfg).
Proof.
  destruct t; eexists; (split; [reflexivity |]); (split; [reflexivity |]);
    intros cfg' Hin Hid; cbn in Hin;
    repeat (destruct Hin as [<- | Hin]; [try reflexivity; discriminate |]);
    contradiction.
Qed.

Lemma currentConfig_found_witness :
  exists cfg : DiagramConfig,
    currentConfig eigen = Some cfg
    /\ id cfg = eigen
    /\ (forall cfg', In cfg' diagrams -> id cfg' = eigen -> cfg' = cfg).
Proof. exact (currentConfig_found eigen). Defined.

(** X6.  For every selection, the minimum size the gallery gives the
    renderer is the canvas size the selected build function gives the
    diagram builder. *)
Theorem renderer_size_is_canvas_size (t : DiagramType) :
  option_map (fun cfg => canvas (buildFunction cfg)) (currentConfig t)
  = Some (width t, height t).
Proof. destruct t; reflexivity. Qed.

Lemma buildFunction_distinct (s t : DiagramType) (cfg cfg' : DiagramConfig) :
  currentConfig s = Some cfg -> currentConfig t = Some cfg' ->
  buildFunction cfg = buildFunction cfg' -> s = t.
Proof.
  destruct s, t; cbn; intros [= <-] [= <-] E; (reflexivity || discriminate E).
Qed.

(** After a click on another diagram, once the effects of the render have
    run, the state is null. *)
Lemma select_other_resets
    (Diagram Err : Type) (evs : list (Event Diagram Err)) (t : DiagramType) :
  Hook.phase (hook (exec evs)) = Hook.Mounted ->
  t <> selectedDiagram (exec evs) ->
  Hook.diagram (hook (step (exec evs) (Select t))) = None.
Proof.
  intros Hm Hne. destruct (GInv_exec evs) as (HI & Hp & Hd & Hc & Hf).
  set (s := exec evs) in *. unfold step. rewrite Hm.
  replace (DiagramType_eqb t (selectedDiagram s)) with false
    by (destruct t, (selectedDiagram s); try reflexivity; contradiction).
  unfold render. cbn [negb selectedDiagram hook].
  unfold Hook.step. rewrite Hm, Hd. cbn [Hook.same_deps].
  replace (Nat.eqb _ _) with false; [reflexivity |].
  symmetry. apply Nat.eqb_neq. rewrite length_app. cbn.
  destruct (callbacks s); [discriminate | cbn; lia].
Qed.

(** X7.  In every state the gallery reaches once the effects of its renders
    have run, a diagram held by [useDiagram] is the one the newest build
    resolved to, and that build was started by the callback that calls the
    build function of the selected configuration.  The render that follows
    a click on another diagram is the exception the effects then remove:
    what it returns pairs the new selection and its size with that same
    diagram, which the build function of the new selection did not build;
    after its effects have run the state is null. *)
Theorem gallery_diagram_provenance
    (Diagram Err : Type) (evs : list (Event Diagram Err)) (dgm : Diagram) :
  Hook.diagram (hook (exec evs)) = Some dgm ->
  exists (k : nat) (r : Hook.Run Diagram Err) (cfg : DiagramConfig),
    Hook.newest (hook (exec evs)) = Some k
    /\ nth_error (Hook.runs (hook (exec evs))) k = Some r
    /\ Hook.outcome r = Some (Hook.Resolved dgm)
    /\ currentConfig (selectedDiagram (exec evs)) = Some cfg
    /\ id cfg = selectedDiagram (exec evs)
    /\ nth_error (callbacks (exec evs)) (Hook.fn r) = Some (Some (buildFunction cfg))
    /\ (forall t : DiagramType,
          Hook.phase (hook (exec evs)) = Hook.Mounted ->
          t <> selectedDiagram (exec evs) ->
          render_output t (exec evs) = mkFrame t (width t, height t) (Some dgm)
          /\ (exists cfg' : DiagramConfig,
                currentConfig t = Some cfg'
                /\ buildFunction cfg' <> buildFunction cfg)
          /\ Hook.diagram (hook (step (exec evs) (Select t))) = None).
Proof.
  intros Hd.
  destruct (GInv_exec evs) as ((_ & _ & HD) & _ & _ & Hc & Hf).
  destruct (HD dgm Hd) as (k & r & Hn & Hk & Ho).
  destruct (currentConfig_some (selectedDiagram (exec evs))) as (cfg & Hcfg & Hid).
  exists k, r, cfg.
  split; [exact Hn |]. split; [exact Hk |]. split; [exact Ho |].
  split; [exact Hcfg |]. split; [exact Hid |].
  split; [rewrite (Hf k r Hn Hk), Hc, Hcfg; reflexivity |].
  intros t Hm Hne.
  split; [unfold render_output; rewrite Hd; reflexivity |].
  split.
  - destruct (currentConfig_some t) as (cfg' & Hcfg' & _).
    exists cfg'. split; [exact Hcfg' |].
    intros E. apply Hne. symmetry.
    apply (buildFunction_distinct _ _ cfg cfg' Hcfg Hcfg'). symmetry. exact E.
  - apply select_other_resets; assumption.
Qed.

(** The geometry diagram has been built; the user then clicks the circle
    diagram. *)
Lemma gallery_diagram_provenance_witness :
  exists (k : nat) (r : Hook.Run nat nat) (cfg : DiagramConfig),
    Hook.newest (hook (exec [@Settle nat nat 0 (Hook.Resolved 5)])) = Some k
    /\ nth_error (Hook.runs (hook (exec [@Settle nat nat 0 (Hook.Resolved 5)]))) k
       = Some r
    /\ Hook.outcome r = Some (Hook.Resolved 5)
    /\ currentConfig (selectedDiagram (exec [@Settle nat nat 0 (Hook.Resolved 5)]))
       = Some cfg
    /\ id cfg = selectedDiagram (exec [@Settle nat nat 0 (Hook.Resolved 5)])
    /\ nth_error (callbacks (exec [@Settle nat nat 0 (Hook.Resolved 5)])) (Hook.fn r)
       = Some (Some (buildFunction cfg))
    /\ (forall t : DiagramType,
          Hook.phase (hook (exec [@Settle nat nat 0 (Hook.Resolved 5)])) = Hook.Mounted ->
          t <> selectedDiagram (exec [@Settle nat nat 0 (Hook.Resolved 5)]) ->
          render_output t (exec [@Settle nat nat 0 (Hook.Resolved 5)])
          = mkFrame t (width t, height t) (Some 5)
          /\ (exists cfg' : DiagramConfig,
                currentConfig t = Some cfg'
                /\ buildFunction cfg' <> buildFunction cfg)
          /\ Hook.diagram (hook (step (exec [@Settle nat nat 0 (Hook.Resolved 5)])
                                      (Select t))) = None).
Proof.
  apply (gallery_diagram_provenance nat nat [Settle 0 (Hook.Resolved 5)] 5).
  reflexivity.
Defined.

(** X8.  While the gallery is mounted, clicking the diagram that is already
    selected changes nothing (no rebuild, the diagram stays); clicking
    another one selects it, starts exactly one build and leaves the state
    null. *)
Theorem select_rebuilds_only_on_change
    (Diagram Err : Type) (evs : list (Event Diagram Err)) (t : DiagramType) :
  Hook.phase (hook (exec evs)) = Hook.Mounted ->
  (t = selectedDiagram (exec evs) -> step (exec evs) (Select t) = exec evs)
  /\ (t <> selectedDiagram (exec evs) ->
      selectedDiagram (step (exec evs) (Select t)) = t
      /\ Hook.diagram (hook (step (exec evs) (Select t))) = None
      /\ Hook.build_calls (hook (step (exec evs) (Select t)))
         = S (Hook.build_calls (hook (exec evs)))).
Proof.
  intros Hm. destruct (GInv_exec evs) as (HI & Hp & Hd & Hc & Hf).
  set (s := exec evs) in *. split.
  - intros ->. unfold step. rewrite Hm.
    replace (DiagramType_eqb (selectedDiagram s) (selectedDiagram s)) with true
      by (destruct (selectedDiagram s); reflexivity).
    unfold render. cbn [negb]. unfold Hook.step. rewrite Hm, Hd. cbn [Hook.same_deps].
    rewrite Nat.eqb_refl. destruct s; reflexivity.
  - intros Hne. unfold step. rewrite Hm.
    replace (DiagramType_eqb t (selectedDiagram s)) with false
      by (destruct t, (selectedDiagram s); try reflexivity; contradiction).
    unfold render. cbn [negb selectedDiagram hook].
    unfold Hook.step. rewrite Hm, Hd. cbn [Hook.same_deps].
    replace (Nat.eqb _ _) with false.
    + split; [reflexivity |]. split; [reflexivity |].
      unfold Hook.build_calls, Hook.effect. cbn.
      rewrite runs_cleanup_newest, length_app, length_update_run. cbn. lia.
    + symmetry. apply Nat.eqb_neq. rewrite length_app. cbn.
      destruct (callbacks s); [discriminate | cbn; lia].
Qed.

Lemma select_rebuilds_only_on_change_witness :
  step (exec [@Select nat nat circle; Settle 1 (Hook.Resolved 6)]) (Select circle)
  = exec [@Select nat nat circle; Settle 1 (Hook.Resolved 6)]
  /\ Hook.diagram (hook (step (exec [@Select nat nat circle; Settle 1 (Hook.Resolved 6)])
                              (Select eigen))) = None
  /\ Hook.build_calls (hook (step (exec [@Select nat nat circle;
                                         Settle 1 (Hook.Resolved 6)])
                                  (Select eigen))) = 3.
Proof.
  destruct (select_rebuilds_only_on_change nat nat
              [Select circle; Settle 1 (Hook.Resolved 6)] circle eq_refl)
    as (Hsame & _).
  destruct (select_rebuilds_only_on_change nat nat
              [Select circle; Settle 1 (Hook.Resolved 6)] eigen eq_refl)
    as (_ & Hother).
  split; [apply Hsame; reflexivity |].
  destruct Hother as (_ & Hnull & Hcalls); [discriminate |].
  split; [exact Hnull | exact Hcalls].
Defined.

End GalleryExtras.

(** ** The renderer *)

Section RendererExtras.
Import Renderer.

Lemma render_all_unmounted
    (Diagram Element Err : Type) (get : Diagram -> Element + Err)
    (ds : list (option Diagram)) (log : list Err) :
  render_all get ds (mkDom None log) = mkDom None log.
Proof.
  induction ds as [| d ds IH]; [reflexivity |].
  unfold render_all in *. cbn. destruct d; exact IH.
Qed.

Lemma render_effect_mounted
    (Diagram Element Err : Type) (get : Diagram -> Element + Err)
    (d : Diagram) (children : list Element) (log : list Err) :
  exists log',
    render_effect get (Some d) (mkDom (Some children) log)
    = mkDom (Some match get d with inl e => [e] | inr _ => [] end) log'.
Proof.
  unfold render_effect. cbn. destruct (get d); eexists; reflexivity.
Qed.

Lemma last_diagram_some (Diagram : Type) (ds : list (option Diagram)) (d : Diagram) :
  exists d', last_diagram ds (Some d) = Some d'.
Proof.
  revert d. induction ds as [| [x |] ds IH]; intros d; cbn.
  - exists d. reflexivity.
  - apply IH.
  - apply IH.
Qed.

Lemma render_all_container
    (Diagram Element Err : Type) (get : Diagram -> Element + Err)
    (ds : list (option Diagram)) (children : list Element) (log : list Err)
    (acc : option Diagram) :
  match acc with
  | None => True
  | Some d => children = match get d with inl e => [e] | inr _ => [] end
  end ->
  container (render_all get ds (mkDom (Some children) log))
  = Some match last_diagram ds acc with
         | None => children
         | Some d => match get d with inl e => [e] | inr _ => [] end
         end.
Proof.
  revert children log acc.
  induction ds as [| d ds IH]; intros children log acc Hacc.
  - cbn. destruct acc as [d |]; [rewrite Hacc |]; reflexivity.
  - unfold render_all in *. cbn [fold_left last_diagram]. destruct d as [d |].
    + destruct (render_effect_mounted _ _ _ get d children log) as (log' & ->).
      rewrite (IH _ log' (Some d) eq_refl).
      destruct (last_diagram_some _ ds d) as (d' & ->). reflexivity.
    + change (render_effect get None (mkDom (Some children) log))
        with (mkDom (Some children) log).
      apply IH. exact Hacc.
Qed.

(** X9.  After the effect has run for any sequence of diagram values, a
    mounted container holds exactly the element of the most recent non-null
    diagram, or nothing if obtaining that element threw; it holds at most
    one element, and null values (a build in flight) leave what was there.
    While the ref is null nothing is touched. *)
Theorem renderer_shows_last_diagram
    (Diagram Element Err : Type) (get : Diagram -> Element + Err)
    (ds : list (option Diagram)) (log : list Err) :
  container (render_all get ds (mkDom (Some []) log))
  = Some match last_diagram ds None with
         | None => []
         | Some d => match get d with inl e => [e] | inr _ => [] end
         end
  /\ (forall children,
        container (render_all get ds (mkDom (Some []) log)) = Some children ->
        (List.length children <= 1)%nat)
  /\ render_all get ds (mkDom None log) = mkDom None log.
Proof.
  pose proof (render_all_container Diagram Element Err get ds [] log None I) as H.
  split; [exact H |]. split; [| apply render_all_unmounted].
  intros children Hc. rewrite H in Hc. injection Hc as <-.
  destruct (last_diagram ds None) as [d |]; [| cbn; lia].
  destruct (get d); cbn; lia.
Qed.

Lemma renderer_shows_last_diagram_witness :
  container (render_all (fun d : nat => if Nat.eqb d 0 then inr 99 else inl d)
               [Some 1; None; Some 2; None] (mkDom (Some []) []))
  = Some [2]
  /\ container (render_all (fun d : nat => if Nat.eqb d 0 then inr 99 else inl d)
                  [Some 1; Some 0; None] (mkDom (Some []) []))
     = Some [].
Proof.
  split.
  - rewrite (proj1 (renderer_shows_last_diagram nat nat nat
                      (fun d : nat => if Nat.eqb d 0 then inr 99 else inl d)
                      [Some 1; None; Some 2; None] [])).
    reflexivity.
  - rewrite (proj1 (renderer_shows_last_diagram nat nat nat
                      (fun d : nat => if Nat.eqb d 0 then inr 99 else inl d)
                      [Some 1; Some 0; None] [])).
    reflexivity.
Defined.

End RendererExtras.

(** ** Further evaluation lemmas *)

Section VectorFacts.
Import Bloom.
Local Open Scope R_scope.

Variable env : nat -> R.

Lemma evalv_components (v : Vec2) (a b : R) :
  evalv env v = Some (a, b) <-> eval env (fst v) = Some a /\ eval env (snd v) = Some b.
Proof.
  unfold evalv. split.
  - destruct (eval env (fst v)) as [x |]; [| discriminate].
    destruct (eval env (snd v)) as [y |]; [| discriminate].
    cbn. intros [= -> ->]. split; reflexivity.
  - intros [-> ->]. reflexivity.
Qed.

Lemma evalv_vsub (v w : Vec2) (a b c d : R) :
  evalv env v = Some (a, b) -> evalv env w = Some (c, d) ->
  evalv env (ops.vsub v w) = Some (a - c, b - d).
Proof.
  intros Hv Hw. apply evalv_components in Hv, Hw.
  destruct Hv as [Hv1 Hv2], Hw as [Hw1 Hw2].
  unfold evalv, ops.vsub. cbn [eval fst snd]. rewrite Hv1, Hv2, Hw1, Hw2. reflexivity.
Qed.

Lemma evalv_vadd (v w : Vec2) (a b c d : R) :
  evalv env v = Some (a, b) -> evalv env w = Some (c, d) ->
  evalv env (ops.vadd v w) = Some (a + c, b + d).
Proof.
  intros Hv Hw. apply evalv_components in Hv, Hw.
  destruct Hv as [Hv1 Hv2], Hw as [Hw1 Hw2].
  unfold evalv, ops.vadd. cbn [eval fst snd]. rewrite Hv1, Hv2, Hw1, Hw2. reflexivity.
Qed.

Lemma evalv_vmul (k : Z) (v : Vec2) (a b : R) :
  evalv env v = Some (a, b) ->
  evalv env (ops.vmul (Lit k) v) = Some (IZR k * a, IZR k * b).
Proof.
  intros Hv. apply evalv_components in Hv. destruct Hv as [Hv1 Hv2].
  unfold evalv, ops.vmul. cbn [eval fst snd]. rewrite Hv1, Hv2. reflexivity.
Qed.

Lemma norm_pos (a b : R) : (a, b) <> (0, 0) -> 0 < sqrt (a * a + b * b).
Proof.
  intros Hne. apply sqrt_lt_R0.
  destruct (Req_dec a 0) as [Ha | Ha].
  - destruct (Req_dec b 0) as [Hb | Hb]; [subst; contradiction | nra].
  - nra.
Qed.

Lemma norm_plus_eps_pos (a b : R) : 0 < sqrt (a * a + b * b) + eps_denom.
Proof.
  pose proof (sqrt_pos (a * a + b * b)). pose proof eps_denom_pos. lra.
Qed.

(** The engine's normalisation divides by the length plus [EPS_DENOM], so
    it has a value on every vector, the zero vector included, and the
    result is slightly shorter than a unit vector. *)
Lemma evalv_vnormalize (v : Vec2) (a b : R) :
  evalv env v = Some (a, b) ->
  evalv env (ops.vnormalize v)
  = Some (a / (sqrt (a * a + b * b) + eps_denom),
          b / (sqrt (a * a + b * b) + eps_denom)).
Proof.
  intros Hv. apply evalv_components in Hv. destruct Hv as [Hv1 Hv2].
  pose proof (norm_plus_eps_pos a b) as Hn.
  unfold evalv, ops.vnormalize, ops.vdiv, ops.vnorm, ops.vdot, EPS_DENOM.
  cbn [eval fst snd]. rewrite Hv1, Hv2. cbn [olift2 obind].
  rewrite psqrt_defined by apply sum_squares_nonneg. cbn [olift2 obind].
  fold eps_denom.
  rewrite !pdiv_defined by lra. reflexivity.
Qed.

Lemma evalv_vdist (v w : Vec2) (a b c d : R) :
  evalv env v = Some (a, b) -> evalv env w = Some (c, d) ->
  eval env (ops.vdist v w) = Some (Circumcircle.dist2 a b c d).
Proof.
  intros Hv Hw. apply evalv_components in Hv, Hw.
  destruct Hv as [Hv1 Hv2], Hw as [Hw1 Hw2].
  apply eval_vdist; assumption.
Qed.

Lemma eval_vdot (v w : Vec2) (a b c d : R) :
  evalv env v = Some (a, b) -> evalv env w = Some (c, d) ->
  eval env (ops.vdot v w) = Some (a * c + b * d).
Proof.
  intros Hv Hw. apply evalv_components in Hv, Hw.
  destruct Hv as [Hv1 Hv2], Hw as [Hw1 Hw2].
  unfold ops.vdot. cbn [eval]. rewrite Hv1, Hv2, Hw1, Hw2. reflexivity.
Qed.

End VectorFacts.

Section PlaneFacts.
Import Bloom.
Local Open Scope R_scope.

Lemma pair_neq_zero (a b c d : R) : (a, b) <> (c, d) -> (a - c, b - d) <> (0, 0).
Proof.
  intros Hne E. injection E as E1 E2. apply Hne. f_equal; lra.
Qed.

Lemma dist2_nonneg (a b c d : R) : 0 <= Circumcircle.dist2 a b c d.
Proof. unfold Circumcircle.dist2. apply sqrt_pos. Qed.

Lemma sqrt_of_square (x y : R) : 0 <= x -> x * x = y -> sqrt y = x.
Proof. intros Hx <-. apply sqrt_square. exact Hx. Qed.

Lemma sum_squares_zero (x y : R) : x * x + y * y = 0 <-> x = 0 /\ y = 0.
Proof. split; [intros H; split; nra | intros [-> ->]; ring]. Qed.

(** Length of a scaled vector. *)
Lemma norm_scale (k x y : R) :
  sqrt (k * x * (k * x) + k * y * (k * y)) = Rabs k * sqrt (x * x + y * y).
Proof.
  replace (k * x * (k * x) + k * y * (k * y)) with (Rsqr k * (x * x + y * y))
    by (unfold Rsqr; ring).
  rewrite sqrt_mult; [| apply Rle_0_sqr | apply sum_squares_nonneg].
  rewrite sqrt_Rsqr_abs. reflexivity.
Qed.

(** Length of a vector after the engine's normalisation: [n / (n + eps)]. *)
Lemma normalized_length (x y : R) :
  sqrt (x / (sqrt (x * x + y * y) + eps_denom) * (x / (sqrt (x * x + y * y) + eps_denom))
        + y / (sqrt (x * x + y * y) + eps_denom) * (y / (sqrt (x * x + y * y) + eps_denom)))
  = sqrt (x * x + y * y) / (sqrt (x * x + y * y) + eps_denom).
Proof.
  pose proof (sqrt_pos (x * x + y * y)) as Hn. pose proof eps_denom_pos as He.
  set (n := sqrt (x * x + y * y)) in *.
  replace (x / (n + eps_denom) * (x / (n + eps_denom))
           + y / (n + eps_denom) * (y / (n + eps_denom)))
    with (/ (n + eps_denom) * x * (/ (n + eps_denom) * x)
          + / (n + eps_denom) * y * (/ (n + eps_denom) * y))
    by (unfold Rdiv; ring).
  rewrite norm_scale. fold n.
  rewrite Rabs_right by (left; apply Rinv_0_lt_compat; lra).
  unfold Rdiv. ring.
Qed.

(** The map [n |-> n / (n + eps)] is injective on lengths. *)
Lemma shrink_injective (n m : R) :
  0 <= n -> 0 <= m ->
  n / (n + eps_denom) = m / (m + eps_denom) -> n = m.
Proof.
  intros Hn Hm E. pose proof eps_denom_pos as He.
  assert (H : n * (m + eps_denom) = m * (n + eps_denom)).
  { replace n with (n / (n + eps_denom) * (n + eps_denom)) at 1 by (field; lra).
    rewrite E. field. lra. }
  nra.
Qed.

(** Two vectors with the same normalisation are equal. *)
Lemma normalize_injective (x1 y1 x2 y2 : R) :
  x1 / (sqrt (x1 * x1 + y1 * y1) + eps_denom)
  = x2 / (sqrt (x2 * x2 + y2 * y2) + eps_denom) ->
  y1 / (sqrt (x1 * x1 + y1 * y1) + eps_denom)
  = y2 / (sqrt (x2 * x2 + y2 * y2) + eps_denom) ->
  x1 = x2 /\ y1 = y2.
Proof.
  intros Ex Ey.
  pose proof (normalized_length x1 y1) as L1.
  pose proof (normalized_length x2 y2) as L2.
  rewrite Ex, Ey in L1. rewrite L2 in L1.
  pose proof (sqrt_pos (x1 * x1 + y1 * y1)) as Hn1.
  pose proof (sqrt_pos (x2 * x2 + y2 * y2)) as Hn2.
  pose proof eps_denom_pos as He.
  assert (En : sqrt (x1 * x1 + y1 * y1) = sqrt (x2 * x2 + y2 * y2)).
  { apply shrink_injective; [exact Hn1 | exact Hn2 |]. symmetry. exact L1. }
  rewrite En in Ex, Ey.
  set (n := sqrt (x2 * x2 + y2 * y2)) in *.
  unfold Rdiv in Ex, Ey.
  split.
  - apply (Rmult_eq_reg_r (/ (n + eps_denom))); [exact Ex |].
    apply Rinv_neq_0_compat. lra.
  - apply (Rmult_eq_reg_r (/ (n + eps_denom))); [exact Ey |].
    apply Rinv_neq_0_compat. lra.
Qed.

(** Cauchy-Schwarz in the plane, on lengths. *)
Lemma dot_le_norms (x1 y1 x2 y2 : R) :
  - (sqrt (x1 * x1 + y1 * y1) * sqrt (x2 * x2 + y2 * y2)) <= x1 * x2 + y1 * y2
  /\ x1 * x2 + y1 * y2 <= sqrt (x1 * x1 + y1 * y1) * sqrt (x2 * x2 + y2 * y2).
Proof.
  pose proof (sqrt_pos (x1 * x1 + y1 * y1)) as Hn1.
  pose proof (sqrt_pos (x2 * x2 + y2 * y2)) as Hn2.
  pose proof (sqrt_sqrt _ (sum_squares_nonneg x1 y1)) as Q1.
  pose proof (sqrt_sqrt _ (sum_squares_nonneg x2 y2)) as Q2.
  set (n1 := sqrt (x1 * x1 + y1 * y1)) in *.
  set (n2 := sqrt (x2 * x2 + y2 * y2)) in *.
  assert (HP : 0 <= n1 * n2) by (apply Rmult_le_pos; assumption).
  assert (Hsq : (x1 * x2 + y1 * y2) * (x1 * x2 + y1 * y2) <= (n1 * n2) * (n1 * n2)).
  { replace (n1 * n2 * (n1 * n2)) with ((n1 * n1) * (n2 * n2)) by ring.
    rewrite Q1, Q2.
    pose proof (Rle_0_sqr (x1 * y2 - y1 * x2)) as Hc. unfold Rsqr in Hc. lra. }
  split; nra.
Qed.

End PlaneFacts.
Section NormalizedFacts.
Import Bloom.
Local Open Scope R_scope.

(** Distance between the normalisations of two vectors that point the same
    way, [a w] and [b w] with [a, b >= 0]: it is
    [eps |n1 - n2| / ((n1 + eps) (n2 + eps))] for their lengths [n1], [n2]. *)
Lemma dist_normalized_aligned (x1 y1 x2 y2 a b wx wy : R) :
  0 <= a -> 0 <= b ->
  x1 = a * wx -> y1 = a * wy -> x2 = b * wx -> y2 = b * wy ->
  sqrt ((x1 / (sqrt (x1 * x1 + y1 * y1) + eps_denom)
         - x2 / (sqrt (x2 * x2 + y2 * y2) + eps_denom))
        * (x1 / (sqrt (x1 * x1 + y1 * y1) + eps_denom)
           - x2 / (sqrt (x2 * x2 + y2 * y2) + eps_denom))
        + (y1 / (sqrt (x1 * x1 + y1 * y1) + eps_denom)
           - y2 / (sqrt (x2 * x2 + y2 * y2) + eps_denom))
          * (y1 / (sqrt (x1 * x1 + y1 * y1) + eps_denom)
             - y2 / (sqrt (x2 * x2 + y2 * y2) + eps_denom)))
  * ((sqrt (x1 * x1 + y1 * y1) + eps_denom) * (sqrt (x2 * x2 + y2 * y2) + eps_denom))
  = eps_denom * Rabs (sqrt (x1 * x1 + y1 * y1) - sqrt (x2 * x2 + y2 * y2)).
Proof.
  intros Ha Hb -> -> -> ->.
  pose proof eps_denom_pos as He.
  pose proof (sqrt_pos (wx * wx + wy * wy)) as HL.
  rewrite !norm_scale. rewrite (Rabs_right a), (Rabs_right b) by lra.
  set (L := sqrt (wx * wx + wy * wy)) in *.
  assert (HA : 0 < a * L + eps_denom) by nra.
  assert (HB : 0 < b * L + eps_denom) by nra.
  set (k := a / (a * L + eps_denom) - b / (b * L + eps_denom)).
  replace (a * wx / (a * L + eps_denom) - b * wx / (b * L + eps_denom))
    with (k * wx) by (unfold k; field; lra).
  replace (a * wy / (a * L + eps_denom) - b * wy / (b * L + eps_denom))
    with (k * wy) by (unfold k; field; lra).
  rewrite norm_scale. fold L.
  assert (HAB : 0 < (a * L + eps_denom) * (b * L + eps_denom))
    by (apply Rmult_lt_0_compat; assumption).
  replace (Rabs k * L * ((a * L + eps_denom) * (b * L + eps_denom)))
    with (Rabs k * Rabs ((a * L + eps_denom) * (b * L + eps_denom)) * L)
    by (rewrite (Rabs_right ((a * L + eps_denom) * (b * L + eps_denom))) by lra; ring).
  rewrite <- Rabs_mult.
  replace (k * ((a * L + eps_denom) * (b * L + eps_denom))) with (eps_denom * (a - b))
    by (unfold k; field; lra).
  replace (a * L - b * L) with ((a - b) * L) by ring.
  rewrite !Rabs_mult. rewrite (Rabs_right eps_denom), (Rabs_right L) by lra.
  ring.
Qed.

End NormalizedFacts.

(** ** The [On], [Perpendicular] and label rules of the geometry diagram *)

Section GeometryRuleExtras.
Import Bloom GeometryStyle.
Local Open Scope R_scope.

(** X10.  The [On] rule, in exact arithmetic.  The constrained quantity
    always has a value, which is never negative, and it is 0 exactly when
    the point is the midpoint of the segment.  For a point strictly between
    the endpoints, at distances [n1] and [n2] from them, it is
    [eps |n1 - n2| / ((n1 + eps) (n2 + eps))] with [eps = 1e-5] the engine's
    [EPS_DENOM]: small, but zero only at the midpoint.  When the point
    coincides with an endpoint it is [n / (n + eps)] for the length [n] of
    the segment, just below 1. *)
Theorem on_rule_value
    (env : nat -> R) (p s e : Vec2) (px py sx sy ex ey : R) :
  evalv env p = Some (px, py) ->
  evalv env s = Some (sx, sy) ->
  evalv env e = Some (ex, ey) ->
  exists dval : R,
    eval env (on_distance p s e) = Some dval
    /\ 0 <= dval
    /\ (dval = 0 <-> px - sx = ex - px /\ py - sy = ey - py)
    /\ (strictly_between px py sx sy ex ey ->
        dval * ((Circumcircle.dist2 px py sx sy + eps_denom)
                * (Circumcircle.dist2 ex ey px py + eps_denom))
        = eps_denom * Rabs (Circumcircle.dist2 px py sx sy
                            - Circumcircle.dist2 ex ey px py))
    /\ ((px, py) = (sx, sy) ->
        dval * (Circumcircle.dist2 ex ey sx sy + eps_denom)
        = Circumcircle.dist2 ex ey sx sy)
    /\ ((px, py) = (ex, ey) ->
        dval * (Circumcircle.dist2 ex ey sx sy + eps_denom)
        = Circumcircle.dist2 ex ey sx sy).
Proof.
  intros Hp Hs He.
  pose proof (evalv_vsub env p s _ _ _ _ Hp Hs) as H1.
  pose proof (evalv_vsub env e p _ _ _ _ He Hp) as H2.
  pose proof (evalv_vnormalize env _ _ _ H1) as U1.
  pose proof (evalv_vnormalize env _ _ _ H2) as U2.
  pose proof eps_denom_pos as Heps.
  eexists. split; [| split; [| split; [| split; [| split]]]].
  - unfold on_distance. cbv zeta. apply (evalv_vdist env _ _ _ _ _ _ U1 U2).
  - apply dist2_nonneg.
  - unfold Circumcircle.dist2. split.
    + intros Hz. apply sqrt_eq_0 in Hz; [| apply sum_squares_nonneg].
      apply sum_squares_zero in Hz. destruct Hz as [Za Zb].
      apply normalize_injective; lra.
    + intros [E1 E2]. rewrite E1, E2.
      replace (_ + _) with 0 by ring. apply sqrt_0.
  - intros (t & Ht & Ea & Eb). unfold Circumcircle.dist2.
    apply (dist_normalized_aligned (px - sx) (py - sy) (ex - px) (ey - py)
             t (1 - t) (ex - sx) (ey - sy)); lra.
  - intros E. injection E as -> ->. unfold Circumcircle.dist2.
    pose proof (dist_normalized_aligned (sx - sx) (sy - sy) (ex - sx) (ey - sy)
                  0 1 (ex - sx) (ey - sy)) as H.
    assert (Z : sqrt ((sx - sx) * (sx - sx) + (sy - sy) * (sy - sy)) = 0).
    { replace ((sx - sx) * (sx - sx) + (sy - sy) * (sy - sy)) with 0 by ring.
      apply sqrt_0. }
    rewrite Z in *.
    pose proof (sqrt_pos ((ex - sx) * (ex - sx) + (ey - sy) * (ey - sy))) as Hn.
    set (n := sqrt ((ex - sx) * (ex - sx) + (ey - sy) * (ey - sy))) in *.
    replace (0 - n) with (- n) in H by ring.
    rewrite Rabs_Ropp, (Rabs_right n) in H by lra.
    apply (Rmult_eq_reg_l eps_denom); [| lra].
    rewrite <- H by lra. ring.
  - intros E. injection E as -> ->. unfold Circumcircle.dist2.
    pose proof (dist_normalized_aligned (ex - sx) (ey - sy) (ex - ex) (ey - ey)
                  1 0 (ex - sx) (ey - sy)) as H.
    assert (Z : sqrt ((ex - ex) * (ex - ex) + (ey - ey) * (ey - ey)) = 0).
    { replace ((ex - ex) * (ex - ex) + (ey - ey) * (ey - ey)) with 0 by ring.
      apply sqrt_0. }
    rewrite Z in *.
    pose proof (sqrt_pos ((ex - sx) * (ex - sx) + (ey - sy) * (ey - sy))) as Hn.
    set (n := sqrt ((ex - sx) * (ex - sx) + (ey - sy) * (ey - sy))) in *.
    replace (n - 0) with n in H by ring.
    rewrite (Rabs_right n) in H by lra.
    apply (Rmult_eq_reg_l eps_denom); [| lra].
    rewrite <- H by lra. ring.
Qed.

(** The midpoint [(2, 1)] of the segment from [(0, 0)] to [(4, 2)]. *)
Lemma on_rule_value_witness :
  exists dval : R,
    eval (fun _ => 0) (on_distance (Lit 2, Lit 1) (Lit 0, Lit 0) (Lit 4, Lit 2))
    = Some dval
    /\ 0 <= dval
    /\ (dval = 0 <-> 2 - 0 = 4 - 2 /\ 1 - 0 = 2 - 1)
    /\ (strictly_between 2 1 0 0 4 2 ->
        dval * ((Circumcircle.dist2 2 1 0 0 + eps_denom)
                * (Circumcircle.dist2 4 2 2 1 + eps_denom))
        = eps_denom * Rabs (Circumcircle.dist2 2 1 0 0 - Circumcircle.dist2 4 2 2 1))
    /\ ((2, 1) = (0, 0) ->
        dval * (Circumcircle.dist2 4 2 0 0 + eps_denom) = Circumcircle.dist2 4 2 0 0)
    /\ ((2, 1) = (4, 2) ->
        dval * (Circumcircle.dist2 4 2 0 0 + eps_denom) = Circumcircle.dist2 4 2 0 0).
Proof.
  apply (on_rule_value (fun _ => 0)
           (Lit 2, Lit 1) (Lit 0, Lit 0) (Lit 4, Lit 2) 2 1 0 0 4 2);
    reflexivity.
Defined.

(** X11.  The [Perpendicular] rule, in exact arithmetic.  The constrained
    quantity always has a value: the dot product of the two segment vectors
    divided by [(n1 + eps) (n2 + eps)], with [n1], [n2] the lengths and
    [eps = 1e-5].  It lies strictly between -1 and 1, and it is 0 exactly
    when the dot product is 0: for orthogonal segments, and also whenever a
    segment has zero length. *)
Theorem perpendicular_rule_value
    (env : nat -> R) (s1 e1 s2 e2 : Vec2) (a1 b1 c1 d1 a2 b2 c2 d2 : R) :
  evalv env s1 = Some (a1, b1) -> evalv env e1 = Some (c1, d1) ->
  evalv env s2 = Some (a2, b2) -> evalv env e2 = Some (c2, d2) ->
  exists q : R,
    eval env (dotProduct s1 e1 s2 e2) = Some q
    /\ q * ((Circumcircle.dist2 a1 b1 c1 d1 + eps_denom)
            * (Circumcircle.dist2 a2 b2 c2 d2 + eps_denom))
       = (a1 - c1) * (a2 - c2) + (b1 - d1) * (b2 - d2)
    /\ -1 < q < 1
    /\ (q = 0 <-> (a1 - c1) * (a2 - c2) + (b1 - d1) * (b2 - d2) = 0)
    /\ ((a1, b1) = (c1, d1) \/ (a2, b2) = (c2, d2) -> q = 0).
Proof.
  intros Hs1 He1 Hs2 He2.
  pose proof (evalv_vsub env s1 e1 _ _ _ _ Hs1 He1) as H1.
  pose proof (evalv_vsub env s2 e2 _ _ _ _ Hs2 He2) as H2.
  pose proof (evalv_vnormalize env _ _ _ H1) as U1.
  pose proof (evalv_vnormalize env _ _ _ H2) as U2.
  pose proof eps_denom_pos as Heps.
  unfold Circumcircle.dist2.
  pose proof (dot_le_norms (a1 - c1) (b1 - d1) (a2 - c2) (b2 - d2)) as HCS.
  pose proof (sqrt_pos ((a1 - c1) * (a1 - c1) + (b1 - d1) * (b1 - d1))) as P1.
  pose proof (sqrt_pos ((a2 - c2) * (a2 - c2) + (b2 - d2) * (b2 - d2))) as P2.
  set (x1 := a1 - c1) in *. set (y1 := b1 - d1) in *.
  set (x2 := a2 - c2) in *. set (y2 := b2 - d2) in *.
  set (n1 := sqrt (x1 * x1 + y1 * y1)) in *.
  set (n2 := sqrt (x2 * x2 + y2 * y2)) in *.
  exists (x1 / (n1 + eps_denom) * (x2 / (n2 + eps_denom))
          + y1 / (n1 + eps_denom) * (y2 / (n2 + eps_denom))).
  assert (Hprod : (x1 / (n1 + eps_denom) * (x2 / (n2 + eps_denom))
                   + y1 / (n1 + eps_denom) * (y2 / (n2 + eps_denom)))
                  * ((n1 + eps_denom) * (n2 + eps_denom))
                  = x1 * x2 + y1 * y2) by (field; lra).
  assert (HP : n1 * n2 < (n1 + eps_denom) * (n2 + eps_denom)) by nra.
  assert (HP0 : 0 <= n1 * n2) by (apply Rmult_le_pos; assumption).
  set (q := x1 / (n1 + eps_denom) * (x2 / (n2 + eps_denom))
            + y1 / (n1 + eps_denom) * (y2 / (n2 + eps_denom))) in *.
  set (P := (n1 + eps_denom) * (n2 + eps_denom)) in *.
  assert (Hiff : q = 0 <-> x1 * x2 + y1 * y2 = 0).
  { split.
    - intros Hz. rewrite Hz in Hprod. lra.
    - intros Hz. rewrite Hz in Hprod.
      apply Rmult_integral in Hprod. destruct Hprod as [Hc | Hc]; [exact Hc | lra]. }
  split; [| split; [| split; [| split]]].
  - unfold dotProduct. cbv zeta. apply (eval_vdot env _ _ _ _ _ _ U1 U2).
  - exact Hprod.
  - split.
    + destruct (Rlt_dec (-1) q) as [Hq | Hq]; [exact Hq | exfalso].
      assert (q * P <= -1 * P) by (apply Rmult_le_compat_r; lra). lra.
    + destruct (Rlt_dec q 1) as [Hq | Hq]; [exact Hq | exfalso].
      assert (1 * P <= q * P) by (apply Rmult_le_compat_r; lra). lra.
  - exact Hiff.
  - intros Hdeg. apply Hiff. unfold x1, y1, x2, y2.
    destruct Hdeg as [E | E]; injection E as -> ->; ring.
Qed.

(** A horizontal and a vertical segment. *)
Lemma perpendicular_rule_value_witness :
  exists q : R,
    eval (fun _ => 0)
      (dotProduct (Lit 0, Lit 0) (Lit 3, Lit 0) (Lit 1, Lit 1) (Lit 1, Lit 5))
    = Some q
    /\ q * ((Circumcircle.dist2 0 0 3 0 + eps_denom)
            * (Circumcircle.dist2 1 1 1 5 + eps_denom))
       = (0 - 3) * (1 - 1) + (0 - 0) * (1 - 5)
    /\ -1 < q < 1
    /\ (q = 0 <-> (0 - 3) * (1 - 1) + (0 - 0) * (1 - 5) = 0)
    /\ ((0, 0) = (3, 0) \/ (1, 1) = (1, 5) -> q = 0).
Proof.
  apply (perpendicular_rule_value (fun _ => 0)
           (Lit 0, Lit 0) (Lit 3, Lit 0) (Lit 1, Lit 1) (Lit 1, Lit 5)
           0 0 3 0 1 1 1 5); reflexivity.
Defined.

End GeometryRuleExtras.
Section LabelRuleExtras.
Import Bloom GeometryStyle.
Local Open Scope R_scope.

(** X12.  The label rule, in exact arithmetic.  The point the label is
    pinned to always has a value.  It lies on the perpendicular bisector of
    the edge, never to the left of the direction from start to end, at
    distance [15 n / (n + eps)] from the midpoint, where [n] is the length
    of the edge and [eps = 1e-5]: for an edge of non-zero length strictly
    to the right, at a distance above 0 and just below 15; for an edge of
    zero length the point is the midpoint itself. *)
Theorem label_anchor_position
    (env : nat -> R) (s e : Vec2) (sx sy ex ey : R) :
  evalv env s = Some (sx, sy) ->
  evalv env e = Some (ex, ey) ->
  exists ax ay : R,
    evalv env (label_anchor s e) = Some (ax, ay)
    /\ evalv env (center s e) = Some ((sx + ex) / 2, (sy + ey) / 2)
    /\ Circumcircle.dist2 ax ay ((sx + ex) / 2) ((sy + ey) / 2)
       * (Circumcircle.dist2 ex ey sx sy + eps_denom)
       = 15 * Circumcircle.dist2 ex ey sx sy
    /\ (ax - (sx + ex) / 2) * (ex - sx) + (ay - (sy + ey) / 2) * (ey - sy) = 0
    /\ (ex - sx) * (ay - (sy + ey) / 2) - (ey - sy) * (ax - (sx + ex) / 2) <= 0
    /\ ((sx, sy) <> (ex, ey) ->
        (ex - sx) * (ay - (sy + ey) / 2) - (ey - sy) * (ax - (sx + ex) / 2) < 0
        /\ 0 < Circumcircle.dist2 ax ay ((sx + ex) / 2) ((sy + ey) / 2) < 15)
    /\ ((sx, sy) = (ex, ey) -> (ax, ay) = (sx, sy)).
Proof.
  intros Hs He.
  pose proof (evalv_vsub env e s _ _ _ _ He Hs) as Hd.
  pose proof (evalv_vadd env s e _ _ _ _ Hs He) as Hsum.
  assert (Hc : evalv env (center s e) = Some ((sx + ex) / 2, (sy + ey) / 2)).
  { apply evalv_components in Hsum. destruct Hsum as [S1 S2].
    unfold evalv, center, ops.vdiv. cbn [eval fst snd]. rewrite S1, S2.
    cbn [obind]. rewrite !pdiv_defined by lra. reflexivity. }
  pose proof (evalv_vnormalize env _ _ _ Hd) as Hn.
  pose proof eps_denom_pos as Heps.
  pose proof (sqrt_pos ((ex - sx) * (ex - sx) + (ey - sy) * (ey - sy))) as HL.
  assert (HQ : sqrt ((ex - sx) * (ex - sx) + (ey - sy) * (ey - sy))
               * sqrt ((ex - sx) * (ex - sx) + (ey - sy) * (ey - sy))
               = (ex - sx) * (ex - sx) + (ey - sy) * (ey - sy))
    by (apply sqrt_sqrt; apply sum_squares_nonneg).
  unfold Circumcircle.dist2.
  set (dx := ex - sx) in *. set (dy := ey - sy) in *.
  set (L := sqrt (dx * dx + dy * dy)) in *.
  assert (Hperp : evalv env (perpendicularVector s e)
                  = Some (dy / (L + eps_denom), -1 * (dx / (L + eps_denom)))).
  { apply evalv_components in Hn. destruct Hn as [N1 N2].
    unfold evalv, perpendicularVector, edgeNormalVector. cbn [eval fst snd].
    rewrite N1, N2. reflexivity. }
  pose proof (evalv_vmul env 15 _ _ _ Hperp) as Hoff.
  pose proof (evalv_vadd env _ _ _ _ _ _ Hc Hoff) as Ha.
  exists ((sx + ex) / 2 + 15 * (dy / (L + eps_denom))),
         ((sy + ey) / 2 + 15 * (-1 * (dx / (L + eps_denom)))).
  assert (Hdist : sqrt (((sx + ex) / 2 + 15 * (dy / (L + eps_denom)) - (sx + ex) / 2)
                        * ((sx + ex) / 2 + 15 * (dy / (L + eps_denom)) - (sx + ex) / 2)
                        + ((sy + ey) / 2 + 15 * (-1 * (dx / (L + eps_denom))) - (sy + ey) / 2)
                          * ((sy + ey) / 2 + 15 * (-1 * (dx / (L + eps_denom)))
                             - (sy + ey) / 2))
                  = 15 * L / (L + eps_denom)).
  { apply sqrt_of_square.
    - apply Rmult_le_pos; [lra | left; apply Rinv_0_lt_compat; lra].
    - replace (15 * L / (L + eps_denom) * (15 * L / (L + eps_denom)))
        with (15 * 15 * (L * L) / ((L + eps_denom) * (L + eps_denom))) by (field; lra).
      rewrite HQ. field. lra. }
  assert (Hside : dx * ((sy + ey) / 2 + 15 * (-1 * (dx / (L + eps_denom))) - (sy + ey) / 2)
                  - dy * ((sx + ex) / 2 + 15 * (dy / (L + eps_denom)) - (sx + ex) / 2)
                  = - (15 * (L * L) / (L + eps_denom))).
  { rewrite HQ. field. lra. }
  split; [exact Ha |]. split; [exact Hc |].
  split; [| split; [| split; [| split]]].
  - rewrite Hdist. field. lra.
  - field. lra.
  - rewrite Hside.
    assert (0 <= 15 * (L * L) / (L + eps_denom)).
    { apply Rmult_le_pos; [nra | left; apply Rinv_0_lt_compat; lra]. }
    lra.
  - intros Hne.
    assert (N : (dx, dy) <> (0, 0)).
    { unfold dx, dy. apply pair_neq_zero. intros E. apply Hne. symmetry. exact E. }
    pose proof (norm_pos _ _ N) as HLpos. fold L in HLpos.
    split.
    + rewrite Hside.
      assert (0 < 15 * (L * L) / (L + eps_denom)).
      { apply Rdiv_lt_0_compat; nra. }
      lra.
    + rewrite Hdist. split.
      * apply Rdiv_lt_0_compat; lra.
      * apply (Rmult_lt_reg_r (L + eps_denom)); [lra |].
        unfold Rdiv. rewrite Rmult_assoc, Rinv_l by lra. lra.
  - intros E. injection E as E1 E2.
    assert (Zx : dx = 0) by (unfold dx; lra).
    assert (Zy : dy = 0) by (unfold dy; lra).
    rewrite Zx, Zy. f_equal; [rewrite <- E1 | rewrite <- E2]; field; lra.
Qed.

(** The edge from [(0, 0)] to [(4, 0)]. *)
Lemma label_anchor_position_witness :
  exists ax ay : R,
    evalv (fun _ => 0) (label_anchor (Lit 0, Lit 0) (Lit 4, Lit 0)) = Some (ax, ay)
    /\ evalv (fun _ => 0) (center (Lit 0, Lit 0) (Lit 4, Lit 0))
       = Some ((0 + 4) / 2, (0 + 0) / 2)
    /\ Circumcircle.dist2 ax ay ((0 + 4) / 2) ((0 + 0) / 2)
       * (Circumcircle.dist2 4 0 0 0 + eps_denom)
       = 15 * Circumcircle.dist2 4 0 0 0
    /\ (ax - (0 + 4) / 2) * (4 - 0) + (ay - (0 + 0) / 2) * (0 - 0) = 0
    /\ (4 - 0) * (ay - (0 + 0) / 2) - (0 - 0) * (ax - (0 + 4) / 2) <= 0
    /\ ((0, 0) <> (4, 0) ->
        (4 - 0) * (ay - (0 + 0) / 2) - (0 - 0) * (ax - (0 + 4) / 2) < 0
        /\ 0 < Circumcircle.dist2 ax ay ((0 + 4) / 2) ((0 + 0) / 2) < 15)
    /\ ((0, 0) = (4, 0) -> (ax, ay) = (0, 0)).
Proof.
  apply (label_anchor_position (fun _ => 0)
           (Lit 0, Lit 0) (Lit 4, Lit 0) 0 0 4 0); reflexivity.
Defined.

End LabelRuleExtras.

Section CircumcircleExtras.
Import Bloom Circumcircle.
Local Open Scope R_scope.

Lemma pdiv_opp (a b : R) : pdiv (- a) (- b) = pdiv a b.
Proof.
  unfold pdiv. destruct (Req_dec_T (- b) 0) as [E | N], (Req_dec_T b 0) as [E' | N'];
    try reflexivity; try (exfalso; lra).
  f_equal. field. exact N'.
Qed.

Lemma dist2_sym (a b c d : R) : dist2 a b c d = dist2 c d a b.
Proof. unfold dist2. f_equal. ring. Qed.

Lemma spec_ux_swap (X1 Y1 X2 Y2 X3 Y3 : R) :
  spec_ux X2 Y2 X1 Y1 X3 Y3 = spec_ux X1 Y1 X2 Y2 X3 Y3.
Proof.
  unfold spec_ux, spec_D. rewrite <- (pdiv_opp _ (2 * _)). apply pdiv_ext; ring.
Qed.

Lemma spec_uy_swap (X1 Y1 X2 Y2 X3 Y3 : R) :
  spec_uy X2 Y2 X1 Y1 X3 Y3 = spec_uy X1 Y1 X2 Y2 X3 Y3.
Proof.
  unfold spec_uy, spec_D. rewrite <- (pdiv_opp _ (2 * _)). apply pdiv_ext; ring.
Qed.

Lemma spec_ux_rotate (X1 Y1 X2 Y2 X3 Y3 : R) :
  spec_ux X2 Y2 X3 Y3 X1 Y1 = spec_ux X1 Y1 X2 Y2 X3 Y3.
Proof. unfold spec_ux, spec_D. apply pdiv_ext; ring. Qed.

Lemma spec_uy_rotate (X1 Y1 X2 Y2 X3 Y3 : R) :
  spec_uy X2 Y2 X3 Y3 X1 Y1 = spec_uy X1 Y1 X2 Y2 X3 Y3.
Proof. unfold spec_uy, spec_D. apply pdiv_ext; ring. Qed.

(** The centre given by the formulas is at one distance from the first and
    the second point. *)
Lemma spec_equidistant (X1 Y1 X2 Y2 X3 Y3 u v : R) :
  spec_ux X1 Y1 X2 Y2 X3 Y3 = Some u ->
  spec_uy X1 Y1 X2 Y2 X3 Y3 = Some v ->
  dist2 u v X1 Y1 = dist2 u v X2 Y2.
Proof.
  unfold spec_ux, spec_uy, pdiv.
  destruct (Req_dec_T (spec_D X1 Y1 X2 Y2 X3 Y3) 0) as [E | N]; [discriminate |].
  intros [= <-] [= <-]. unfold dist2. f_equal. unfold spec_D in *. field.
  intros E. apply N. lra.
Qed.

Lemma evalv_circumcenter
    (env : nat -> R) (x1 y1 x2 y2 x3 y3 : Num) (X1 Y1 X2 Y2 X3 Y3 : R) :
  eval env x1 = Some X1 -> eval env y1 = Some Y1 ->
  eval env x2 = Some X2 -> eval env y2 = Some Y2 ->
  eval env x3 = Some X3 -> eval env y3 = Some Y3 ->
  evalv env (circumcenter x1 y1 x2 y2 x3 y3)
  = obind (spec_ux X1 Y1 X2 Y2 X3 Y3) (fun u =>
    obind (spec_uy X1 Y1 X2 Y2 X3 Y3) (fun v => Some (u, v))).
Proof.
  intros H1 H2 H3 H4 H5 H6. unfold evalv, circumcenter. cbn [fst snd].
  rewrite (eval_ux env _ _ _ _ _ _ _ _ _ _ _ _ H1 H2 H3 H4 H5 H6).
  rewrite (eval_uy env _ _ _ _ _ _ _ _ _ _ _ _ H1 H2 H3 H4 H5 H6).
  reflexivity.
Qed.

Lemma spec_radius_swap (X1 Y1 X2 Y2 X3 Y3 : R) :
  spec_radius X2 Y2 X1 Y1 X3 Y3 = spec_radius X1 Y1 X2 Y2 X3 Y3.
Proof.
  unfold spec_radius.
  rewrite (spec_ux_swap X1 Y1 X2 Y2 X3 Y3), (spec_uy_swap X1 Y1 X2 Y2 X3 Y3).
  destruct (spec_ux X1 Y1 X2 Y2 X3 Y3) as [u |] eqn:Eu; [| reflexivity].
  destruct (spec_uy X1 Y1 X2 Y2 X3 Y3) as [v |] eqn:Ev; [| reflexivity].
  cbn [obind]. f_equal. symmetry. apply (spec_equidistant _ _ _ _ X3 Y3); assumption.
Qed.

Lemma spec_radius_rotate (X1 Y1 X2 Y2 X3 Y3 : R) :
  spec_radius X2 Y2 X3 Y3 X1 Y1 = spec_radius X1 Y1 X2 Y2 X3 Y3.
Proof.
  unfold spec_radius.
  rewrite (spec_ux_rotate X1 Y1 X2 Y2 X3 Y3), (spec_uy_rotate X1 Y1 X2 Y2 X3 Y3).
  destruct (spec_ux X1 Y1 X2 Y2 X3 Y3) as [u |] eqn:Eu; [| reflexivity].
  destruct (spec_uy X1 Y1 X2 Y2 X3 Y3) as [v |] eqn:Ev; [| reflexivity].
  cbn [obind]. f_equal. symmetry. apply (spec_equidistant _ _ _ _ X3 Y3); assumption.
Qed.

(** X13.  The circle drawn by the circumcircle rule does not depend on the
    order in which the three points are given: exchanging the first two
    points, or rotating the three, leaves the evaluated centre and radius
    as they are (also when they have no value). *)
Theorem circumcircle_order_irrelevant
    (env : nat -> R) (x1 y1 x2 y2 x3 y3 : Num) (X1 Y1 X2 Y2 X3 Y3 : R) :
  eval env x1 = Some X1 -> eval env y1 = Some Y1 ->
  eval env x2 = Some X2 -> eval env y2 = Some Y2 ->
  eval env x3 = Some X3 -> eval env y3 = Some Y3 ->
  evalv env (circumcenter x2 y2 x1 y1 x3 y3)
    = evalv env (circumcenter x1 y1 x2 y2 x3 y3)
  /\ evalv env (circumcenter x2 y2 x3 y3 x1 y1)
    = evalv env (circumcenter x1 y1 x2 y2 x3 y3)
  /\ eval env (circumradius x2 y2 x1 y1 x3 y3)
    = eval env (circumradius x1 y1 x2 y2 x3 y3)
  /\ eval env (circumradius x2 y2 x3 y3 x1 y1)
    = eval env (circumradius x1 y1 x2 y2 x3 y3).
Proof.
  intros H1 H2 H3 H4 H5 H6.
  rewrite (evalv_circumcenter env x1 y1 x2 y2 x3 y3 _ _ _ _ _ _ H1 H2 H3 H4 H5 H6).
  rewrite (evalv_circumcenter env x2 y2 x1 y1 x3 y3 _ _ _ _ _ _ H3 H4 H1 H2 H5 H6).
  rewrite (evalv_circumcenter env x2 y2 x3 y3 x1 y1 _ _ _ _ _ _ H3 H4 H5 H6 H1 H2).
  rewrite (eval_circumradius env x1 y1 x2 y2 x3 y3 _ _ _ _ _ _ H1 H2 H3 H4 H5 H6).
  rewrite (eval_circumradius env x2 y2 x1 y1 x3 y3 _ _ _ _ _ _ H3 H4 H1 H2 H5 H6).
  rewrite (eval_circumradius env x2 y2 x3 y3 x1 y1 _ _ _ _ _ _ H3 H4 H5 H6 H1 H2).
  rewrite (spec_ux_swap X1 Y1 X2 Y2 X3 Y3), (spec_uy_swap X1 Y1 X2 Y2 X3 Y3).
  rewrite (spec_ux_rotate X1 Y1 X2 Y2 X3 Y3), (spec_uy_rotate X1 Y1 X2 Y2 X3 Y3).
  rewrite (spec_radius_swap X1 Y1 X2 Y2 X3 Y3), (spec_radius_rotate X1 Y1 X2 Y2 X3 Y3).
  repeat split.
Qed.

Lemma circumcircle_order_irrelevant_witness :
  evalv (fun _ => 0) (circumcenter (Lit 4) (Lit 0) (Lit 0) (Lit 0) (Lit 0) (Lit 3))
    = evalv (fun _ => 0) (circumcenter (Lit 0) (Lit 0) (Lit 4) (Lit 0) (Lit 0) (Lit 3))
  /\ evalv (fun _ => 0) (circumcenter (Lit 4) (Lit 0) (Lit 0) (Lit 3) (Lit 0) (Lit 0))
    = evalv (fun _ => 0) (circumcenter (Lit 0) (Lit 0) (Lit 4) (Lit 0) (Lit 0) (Lit 3))
  /\ eval (fun _ => 0) (circumradius (Lit 4) (Lit 0) (Lit 0) (Lit 0) (Lit 0) (Lit 3))
    = eval (fun _ => 0) (circumradius (Lit 0) (Lit 0) (Lit 4) (Lit 0) (Lit 0) (Lit 3))
  /\ eval (fun _ => 0) (circumradius (Lit 4) (Lit 0) (Lit 0) (Lit 3) (Lit 0) (Lit 0))
    = eval (fun _ => 0) (circumradius (Lit 0) (Lit 0) (Lit 4) (Lit 0) (Lit 0) (Lit 3)).
Proof.
  apply (circumcircle_order_irrelevant (fun _ => 0)
           (Lit 0) (Lit 0) (Lit 4) (Lit 0) (Lit 0) (Lit 3) 0 0 4 0 0 3);
    reflexivity.
Defined.

(** X14.  For three points that are not collinear, the centre computed by
    the rule is the only point at equal distance from all three: every such
    point is what [(ux, uy)] evaluates to. *)
Theorem circumcenter_unique
    (env : nat -> R) (x1 y1 x2 y2 x3 y3 : Num) (X1 Y1 X2 Y2 X3 Y3 u v : R) :
  eval env x1 = Some X1 -> eval env y1 = Some Y1 ->
  eval env x2 = Some X2 -> eval env y2 = Some Y2 ->
  eval env x3 = Some X3 -> eval env y3 = Some Y3 ->
  ~ collinear X1 Y1 X2 Y2 X3 Y3 ->
  dist2 u v X1 Y1 = dist2 u v X2 Y2 ->
  dist2 u v X2 Y2 = dist2 u v X3 Y3 ->
  evalv env (circumcenter x1 y1 x2 y2 x3 y3) = Some (u, v).
Proof.
  intros H1 H2 H3 H4 H5 H6 Hnc E12 E23.
  assert (HD : spec_D X1 Y1 X2 Y2 X3 Y3 <> 0).
  { rewrite spec_D_area. intros E. apply Hnc. unfold collinear. lra. }
  rewrite (evalv_circumcenter env x1 y1 x2 y2 x3 y3 _ _ _ _ _ _ H1 H2 H3 H4 H5 H6).
  unfold spec_ux, spec_uy. rewrite !pdiv_defined by exact HD. cbn [obind].
  unfold dist2 in E12, E23.
  apply sqrt_inj in E12; try apply sum_squares_nonneg.
  apply sqrt_inj in E23; try apply sum_squares_nonneg.
  unfold spec_D in *.
  set (D := 2 * (X1 * (Y2 - Y3) + X2 * (Y3 - Y1) + X3 * (Y1 - Y2))) in *.
  assert (Z12 : (u - X1) * (u - X1) + (v - Y1) * (v - Y1)
                - ((u - X2) * (u - X2) + (v - Y2) * (v - Y2)) = 0)
    by (rewrite E12; ring).
  assert (Z23 : (u - X2) * (u - X2) + (v - Y2) * (v - Y2)
                - ((u - X3) * (u - X3) + (v - Y3) * (v - Y3)) = 0)
    by (rewrite E23; ring).
  assert (Eu : u * D = (X1 * X1 + Y1 * Y1) * (Y2 - Y3) + (X2 * X2 + Y2 * Y2) * (Y3 - Y1)
                       + (X3 * X3 + Y3 * Y3) * (Y1 - Y2)).
  { apply Rminus_diag_uniq.
    replace (u * D - _)
      with ((Y3 - Y2) * ((u - X1) * (u - X1) + (v - Y1) * (v - Y1)
                         - ((u - X2) * (u - X2) + (v - Y2) * (v - Y2)))
            - (Y2 - Y1) * ((u - X2) * (u - X2) + (v - Y2) * (v - Y2)
                           - ((u - X3) * (u - X3) + (v - Y3) * (v - Y3))))
      by (unfold D; ring).
    rewrite Z12, Z23. ring. }
  assert (Ev : v * D = (X1 * X1 + Y1 * Y1) * (X3 - X2) + (X2 * X2 + Y2 * Y2) * (X1 - X3)
                       + (X3 * X3 + Y3 * Y3) * (X2 - X1)).
  { apply Rminus_diag_uniq.
    replace (v * D - _)
      with ((X2 - X1) * ((u - X2) * (u - X2) + (v - Y2) * (v - Y2)
                         - ((u - X3) * (u - X3) + (v - Y3) * (v - Y3)))
            - (X3 - X2) * ((u - X1) * (u - X1) + (v - Y1) * (v - Y1)
                           - ((u - X2) * (u - X2) + (v - Y2) * (v - Y2))))
      by (unfold D; ring).
    rewrite Z12, Z23. ring. }
  rewrite <- Eu, <- Ev. do 2 f_equal; field; exact HD.
Qed.

Lemma circumcenter_unique_witness :
  evalv (fun _ => 0) (circumcenter (Lit 0) (Lit 0) (Lit 4) (Lit 0) (Lit 0) (Lit 2))
  = Some (2, 1).
Proof.
  apply (circumcenter_unique (fun _ => 0)
           (Lit 0) (Lit 0) (Lit 4) (Lit 0) (Lit 0) (Lit 2) 0 0 4 0 0 2 2 1);
    try reflexivity.
  - unfold collinear. lra.
  - unfold dist2. f_equal. lra.
  - unfold dist2. f_equal. lra.
Defined.

End CircumcircleExtras.

(** ** The connecting lines of the arrow and circle diagrams *)

Section ConnectorFacts.
Import Bloom.
Local Open Scope R_scope.

(** Both diagrams draw a line from a point [a] beyond [p] to a point [b]
    before [q], along the normalised vector from [p] to [q].  With [n] the
    distance from [p] to [q], the normalised vector has length
    [n / (n + eps)], so the offsets are [a n / (n + eps)] and
    [b n / (n + eps)]. *)
Lemma connector_endpoints
    (env : nat -> R) (p q : Vec2) (a b : Z) (px py qx qy : R) :
  evalv env p = Some (px, py) ->
  evalv env q = Some (qx, qy) ->
  0 <= IZR a -> 0 <= IZR b ->
  exists sx sy ex ey : R,
    evalv env (ops.vadd p (ops.vmul (Lit a) (ops.vnormalize (ops.vsub q p))))
    = Some (sx, sy)
    /\ evalv env (ops.vsub q (ops.vmul (Lit b) (ops.vnormalize (ops.vsub q p))))
       = Some (ex, ey)
    /\ Circumcircle.dist2 sx sy px py * (Circumcircle.dist2 qx qy px py + eps_denom)
       = IZR a * Circumcircle.dist2 qx qy px py
    /\ Circumcircle.dist2 ex ey qx qy * (Circumcircle.dist2 qx qy px py + eps_denom)
       = IZR b * Circumcircle.dist2 qx qy px py
    /\ ex - sx = (1 - (IZR a + IZR b) / (Circumcircle.dist2 qx qy px py + eps_denom))
                 * (qx - px)
    /\ ey - sy = (1 - (IZR a + IZR b) / (Circumcircle.dist2 qx qy px py + eps_denom))
                 * (qy - py)
    /\ (IZR a + IZR b <= Circumcircle.dist2 qx qy px py + eps_denom ->
        Circumcircle.dist2 ex ey sx sy * (Circumcircle.dist2 qx qy px py + eps_denom)
        = (Circumcircle.dist2 qx qy px py + eps_denom - (IZR a + IZR b))
          * Circumcircle.dist2 qx qy px py)
    /\ ((px, py) = (qx, qy) -> (sx, sy) = (px, py) /\ (ex, ey) = (px, py)).
Proof.
  intros Hp Hq Ha Hb.
  pose proof (evalv_vsub env q p _ _ _ _ Hq Hp) as Hd.
  pose proof (evalv_vnormalize env _ _ _ Hd) as Hn.
  pose proof (evalv_vadd env _ _ _ _ _ _ Hp (evalv_vmul env a _ _ _ Hn)) as Hs.
  pose proof (evalv_vsub env _ _ _ _ _ _ Hq (evalv_vmul env b _ _ _ Hn)) as He.
  pose proof eps_denom_pos as Heps.
  pose proof (sqrt_pos ((qx - px) * (qx - px) + (qy - py) * (qy - py))) as HL.
  unfold Circumcircle.dist2.
  set (dx := qx - px) in *. set (dy := qy - py) in *.
  set (L := sqrt (dx * dx + dy * dy)) in *.
  assert (Hinv : 0 < / (L + eps_denom)) by (apply Rinv_0_lt_compat; lra).
  do 4 eexists. split; [exact Hs |]. split; [exact He |].
  split; [| split; [| split; [| split; [| split]]]].
  - replace (px + IZR a * (dx / (L + eps_denom)) - px)
      with (IZR a * / (L + eps_denom) * dx) by (unfold Rdiv; ring).
    replace (py + IZR a * (dy / (L + eps_denom)) - py)
      with (IZR a * / (L + eps_denom) * dy) by (unfold Rdiv; ring).
    rewrite norm_scale. fold L.
    rewrite Rabs_right by (apply Rle_ge; apply Rmult_le_pos; lra).
    field. lra.
  - replace (qx - IZR b * (dx / (L + eps_denom)) - qx)
      with (- (IZR b * / (L + eps_denom)) * dx) by (unfold Rdiv; ring).
    replace (qy - IZR b * (dy / (L + eps_denom)) - qy)
      with (- (IZR b * / (L + eps_denom)) * dy) by (unfold Rdiv; ring).
    rewrite norm_scale. fold L.
    rewrite Rabs_Ropp, Rabs_right by (apply Rle_ge; apply Rmult_le_pos; lra).
    field. lra.
  - unfold dx. field. lra.
  - unfold dy. field. lra.
  - intros Hm.
    replace (qx - IZR b * (dx / (L + eps_denom)) - (px + IZR a * (dx / (L + eps_denom))))
      with ((1 - (IZR a + IZR b) / (L + eps_denom)) * dx) by (unfold dx; field; lra).
    replace (qy - IZR b * (dy / (L + eps_denom)) - (py + IZR a * (dy / (L + eps_denom))))
      with ((1 - (IZR a + IZR b) / (L + eps_denom)) * dy) by (unfold dy; field; lra).
    rewrite norm_scale. fold L.
    assert (Hk : 0 <= 1 - (IZR a + IZR b) / (L + eps_denom)).
    { assert (Hfrac : (IZR a + IZR b) / (L + eps_denom) <= 1); [| lra].
      apply (Rmult_le_reg_r (L + eps_denom)); [lra |].
      unfold Rdiv. rewrite Rmult_assoc, Rinv_l by lra. lra. }
    rewrite Rabs_right by lra.
    field. lra.
  - intros E. injection E as E1 E2.
    assert (Zx : dx = 0) by (unfold dx; lra).
    assert (Zy : dy = 0) by (unfold dy; lra).
    rewrite Zx, Zy. split; f_equal; try (rewrite <- ?E1, <- ?E2; field; lra).
Qed.

End ConnectorFacts.

Section ArrowExtras.
Import Bloom ArrowStyle.
Local Open Scope R_scope.

(** X15.  The arrow of the arrow diagram, in exact arithmetic.  Start and
    end always have a value.  With [n] the distance between the two centres
    and [eps = 1e-5], the arrow starts at distance [40 n / (n + eps)] from
    the first centre and ends at the same distance from the second, on the
    line joining them (40 is radius 30 plus margin 10).  When the
    separation constraint holds ([n > 100]) both distances lie between
    [40 - eps] and 40, the arrow has length [n - 80 n / (n + eps)], which
    is more than 20 and within [eps] of [n - 80], and it points from the
    first point to the second.  For coinciding centres start and end are
    that common centre. *)
Theorem arrow_endpoints
    (env : nat -> R) (p q : Vec2) (px py qx qy : R) :
  evalv env p = Some (px, py) ->
  evalv env q = Some (qx, qy) ->
  exists sx sy ex ey : R,
    evalv env (start p q) = Some (sx, sy)
    /\ evalv env (end_ p q) = Some (ex, ey)
    /\ eval env (separation p q) = Some (Circumcircle.dist2 px py qx qy)
    /\ Circumcircle.dist2 sx sy px py * (Circumcircle.dist2 px py qx qy + eps_denom)
       = 40 * Circumcircle.dist2 px py qx qy
    /\ Circumcircle.dist2 ex ey qx qy * (Circumcircle.dist2 px py qx qy + eps_denom)
       = 40 * Circumcircle.dist2 px py qx qy
    /\ (IZR min_separation < Circumcircle.dist2 px py qx qy ->
        40 - eps_denom < Circumcircle.dist2 sx sy px py < 40
        /\ 40 - eps_denom < Circumcircle.dist2 ex ey qx qy < 40
        /\ Circumcircle.dist2 ex ey sx sy * (Circumcircle.dist2 px py qx qy + eps_denom)
           = (Circumcircle.dist2 px py qx qy + eps_denom - 80)
             * Circumcircle.dist2 px py qx qy
        /\ Circumcircle.dist2 px py qx qy - 80 < Circumcircle.dist2 ex ey sx sy
           < Circumcircle.dist2 px py qx qy - 80 + eps_denom
        /\ 20 < Circumcircle.dist2 ex ey sx sy
        /\ exists k : R, 0 < k /\ ex - sx = k * (qx - px) /\ ey - sy = k * (qy - py))
    /\ ((px, py) = (qx, qy) -> (sx, sy) = (px, py) /\ (ex, ey) = (px, py)).
Proof.
  intros Hp Hq.
  assert (H40 : IZR (pointRad + pointMargin) = 40) by reflexivity.
  destruct (connector_endpoints env p q (pointRad + pointMargin)
              (pointRad + pointMargin) px py qx qy Hp Hq)
    as (sx & sy & ex & ey & Hs & He & Ds & De & Ex & Ey & Hlen & Hsame);
    [rewrite H40; lra | rewrite H40; lra |].
  rewrite H40 in *. rewrite (dist2_sym qx qy px py) in *.
  pose proof eps_denom_pos as Heps.
  assert (Heps1 : eps_denom < 1) by (unfold eps_denom; lra).
  exists sx, sy, ex, ey.
  split; [exact Hs |]. split; [exact He |].
  split; [apply (evalv_vdist env _ _ _ _ _ _ Hp Hq) |].
  split; [exact Ds |]. split; [exact De |].
  split; [| exact Hsame].
  intros Hsep.
  assert (Hmin : IZR min_separation = 100) by reflexivity.
  rewrite Hmin in Hsep.
  set (L := Circumcircle.dist2 px py qx qy) in *.
  specialize (Hlen ltac:(lra)).
  pose proof (dist2_nonneg sx sy px py) as P1.
  pose proof (dist2_nonneg ex ey qx qy) as P2.
  pose proof (dist2_nonneg ex ey sx sy) as P3.
  set (ds := Circumcircle.dist2 sx sy px py) in *.
  set (de := Circumcircle.dist2 ex ey qx qy) in *.
  set (len := Circumcircle.dist2 ex ey sx sy) in *.
  split; [split; nra |].
  split; [split; nra |].
  split; [rewrite Hlen; ring |].
  split; [split; nra |].
  split; [nra |].
  exists (1 - (40 + 40) / (L + eps_denom)). split; [| split; assumption].
  apply Rlt_0_minus. apply (Rmult_lt_reg_r (L + eps_denom)); [lra |].
  unfold Rdiv. rewrite Rmult_assoc, Rinv_l by lra. lra.
Qed.

(** Centres [(0, 0)] and [(200, 0)]. *)
Lemma arrow_endpoints_witness :
  exists sx sy ex ey : R,
    evalv (fun _ => 0) (start (Lit 0, Lit 0) (Lit 200, Lit 0)) = Some (sx, sy)
    /\ evalv (fun _ => 0) (end_ (Lit 0, Lit 0) (Lit 200, Lit 0)) = Some (ex, ey)
    /\ eval (fun _ => 0) (separation (Lit 0, Lit 0) (Lit 200, Lit 0))
       = Some (Circumcircle.dist2 0 0 200 0)
    /\ Circumcircle.dist2 sx sy 0 0 * (Circumcircle.dist2 0 0 200 0 + eps_denom)
       = 40 * Circumcircle.dist2 0 0 200 0
    /\ Circumcircle.dist2 ex ey 200 0 * (Circumcircle.dist2 0 0 200 0 + eps_denom)
       = 40 * Circumcircle.dist2 0 0 200 0
    /\ (IZR min_separation < Circumcircle.dist2 0 0 200 0 ->
        40 - eps_denom < Circumcircle.dist2 sx sy 0 0 < 40
        /\ 40 - eps_denom < Circumcircle.dist2 ex ey 200 0 < 40
        /\ Circumcircle.dist2 ex ey sx sy * (Circumcircle.dist2 0 0 200 0 + eps_denom)
           = (Circumcircle.dist2 0 0 200 0 + eps_denom - 80)
             * Circumcircle.dist2 0 0 200 0
        /\ Circumcircle.dist2 0 0 200 0 - 80 < Circumcircle.dist2 ex ey sx sy
           < Circumcircle.dist2 0 0 200 0 - 80 + eps_denom
        /\ 20 < Circumcircle.dist2 ex ey sx sy
        /\ exists k : R, 0 < k /\ ex - sx = k * (200 - 0) /\ ey - sy = k * (0 - 0))
    /\ ((0, 0) = (200, 0) -> (sx, sy) = (0, 0) /\ (ex, ey) = (0, 0)).
Proof.
  apply (arrow_endpoints (fun _ => 0) (Lit 0, Lit 0) (Lit 200, Lit 0) 0 0 200 0);
    reflexivity.
Defined.

End ArrowExtras.

Section CircleExtras.
Import Bloom CircleStyle.
Local Open Scope R_scope.

(** X16.  The connecting line of the circle diagram, in exact arithmetic.
    Start and end always have a value.  With [n] the distance between the
    two centres and [eps = 1e-5], the line starts at distance
    [45 n / (n + eps)] from the centre of the central circle (radius 40
    plus 5) and ends at distance [30 n / (n + eps)] from the centre of the
    satellite (radius 25 plus 5).  When the orbit constraint holds
    ([n = 150]) the line has length [150 - 75 * 150 / (150 + eps)], between
    75 and [75 + eps].  For coinciding centres start and end are that
    common centre. *)
Theorem orbit_connection
    (env : nat -> R) (sat center : Vec2) (sx sy cx cy : R) :
  evalv env sat = Some (sx, sy) ->
  evalv env center = Some (cx, cy) ->
  exists ax ay bx by_ : R,
    evalv env (start sat center) = Some (ax, ay)
    /\ evalv env (end_ sat center) = Some (bx, by_)
    /\ eval env (orbit_distance sat center) = Some (Circumcircle.dist2 sx sy cx cy)
    /\ Circumcircle.dist2 ax ay cx cy * (Circumcircle.dist2 sx sy cx cy + eps_denom)
       = (IZR centerRadius + 5) * Circumcircle.dist2 sx sy cx cy
    /\ Circumcircle.dist2 bx by_ sx sy * (Circumcircle.dist2 sx sy cx cy + eps_denom)
       = (IZR satelliteRadius + 5) * Circumcircle.dist2 sx sy cx cy
    /\ (Circumcircle.dist2 sx sy cx cy = IZR orbitRadius ->
        Circumcircle.dist2 bx by_ ax ay * (150 + eps_denom) = (75 + eps_denom) * 150
        /\ 75 < Circumcircle.dist2 bx by_ ax ay < 75 + eps_denom)
    /\ ((sx, sy) = (cx, cy) -> (ax, ay) = (cx, cy) /\ (bx, by_) = (cx, cy)).
Proof.
  intros Hs Hc.
  assert (H45 : IZR (centerRadius + 5) = 45) by reflexivity.
  assert (H30 : IZR (satelliteRadius + 5) = 30) by reflexivity.
  destruct (connector_endpoints env center sat (centerRadius + 5)
              (satelliteRadius + 5) cx cy sx sy Hc Hs)
    as (ax & ay & bx & by_ & Ha & Hb & Da & Db & _ & _ & Hlen & Hsame);
    [rewrite H45; lra | rewrite H30; lra |].
  rewrite H45, H30 in *.
  pose proof eps_denom_pos as Heps.
  exists ax, ay, bx, by_.
  split; [exact Ha |]. split; [exact Hb |].
  split; [apply (evalv_vdist env _ _ _ _ _ _ Hs Hc) |].
  split; [rewrite Da; unfold centerRadius; lra |].
  split; [rewrite Db; unfold satelliteRadius; lra |].
  split.
  - intros Horbit. rewrite Horbit in Hlen. unfold orbitRadius in Hlen.
    specialize (Hlen ltac:(lra)).
    pose proof (dist2_nonneg bx by_ ax ay) as P.
    set (len := Circumcircle.dist2 bx by_ ax ay) in *.
    split; [rewrite Hlen; ring |]. split; nra.
  - intros E. apply Hsame. symmetry. exact E.
Qed.

(** A satellite at [(150, 0)] around the centre [(0, 0)]. *)
Lemma orbit_connection_witness :
  exists ax ay bx by_ : R,
    evalv (fun _ => 0) (start (Lit 150, Lit 0) (Lit 0, Lit 0)) = Some (ax, ay)
    /\ evalv (fun _ => 0) (end_ (Lit 150, Lit 0) (Lit 0, Lit 0)) = Some (bx, by_)
    /\ eval (fun _ => 0) (orbit_distance (Lit 150, Lit 0) (Lit 0, Lit 0))
       = Some (Circumcircle.dist2 150 0 0 0)
    /\ Circumcircle.dist2 ax ay 0 0 * (Circumcircle.dist2 150 0 0 0 + eps_denom)
       = (IZR centerRadius + 5) * Circumcircle.dist2 150 0 0 0
    /\ Circumcircle.dist2 bx by_ 150 0 * (Circumcircle.dist2 150 0 0 0 + eps_denom)
       = (IZR satelliteRadius + 5) * Circumcircle.dist2 150 0 0 0
    /\ (Circumcircle.dist2 150 0 0 0 = IZR orbitRadius ->
        Circumcircle.dist2 bx by_ ax ay * (150 + eps_denom) = (75 + eps_denom) * 150
        /\ 75 < Circumcircle.dist2 bx by_ ax ay < 75 + eps_denom)
    /\ ((150, 0) = (0, 0) -> (ax, ay) = (0, 0) /\ (bx, by_) = (0, 0)).
Proof.
  apply (orbit_connection (fun _ => 0) (Lit 150, Lit 0) (Lit 0, Lit 0) 150 0 0 0);
    reflexivity.
Defined.

End CircleExtras.

(** ** Canvas coordinates and drag handles of the eigenvector diagram *)

Section EigenLayoutExtras.
Import Bloom EigenLayout.
Local Open Scope R_scope.

Lemma xScale_value : xScale = 50.
Proof. unfold xScale, axesWidth, canvasWidth, numTickMarks. lra. Qed.

Lemma yScale_value : yScale = 200 / 3.
Proof. unfold yScale, axesHeight, canvasWidth, numTickMarks. lra. Qed.

Lemma evalv_of_canvas
    (env : nat -> R) (o scale c : Vec2) (ox oy sx sy cx cy : R) :
  evalv env o = Some (ox, oy) -> evalv env scale = Some (sx, sy) ->
  evalv env c = Some (cx, cy) ->
  sx <> 0 -> sy <> 0 ->
  evalv env (of_canvas o scale c) = Some ((cx - ox) / sx, (cy - oy) / sy).
Proof.
  intros Ho Hs Hc Hx Hy.
  pose proof (evalv_vsub env c o _ _ _ _ Hc Ho) as Hd.
  apply evalv_components in Hd, Hs. destruct Hd as [D1 D2], Hs as [S1 S2].
  unfold evalv, of_canvas, ops.ewvvdiv. cbn [eval fst snd].
  rewrite D1, D2, S1, S2. cbn [obind]. rewrite !pdiv_defined by assumption.
  reflexivity.
Qed.

Lemma evalv_to_canvas
    (env : nat -> R) (o scale v : Vec2) (ox oy sx sy vx vy : R) :
  evalv env o = Some (ox, oy) -> evalv env scale = Some (sx, sy) ->
  evalv env v = Some (vx, vy) ->
  evalv env (to_canvas o scale v) = Some (vx * sx + ox, vy * sy + oy).
Proof.
  intros Ho Hs Hv. apply evalv_components in Ho, Hs, Hv.
  destruct Ho as [O1 O2], Hs as [S1 S2], Hv as [V1 V2].
  unfold evalv, to_canvas, ops.vadd, ops.ewvvmul. cbn [eval fst snd].
  rewrite O1, O2, S1, S2, V1, V2. reflexivity.
Qed.

(** X17.  Canvas coordinates survive the round trip through the coordinates
    of the axes: with non-zero scales (the layout uses 50 and 200/3),
    converting a canvas position and converting back gives the position.
    With a zero scale the conversion has no value. *)
Theorem canvas_round_trip
    (env : nat -> R) (o scale c : Vec2) (ox oy sx sy cx cy : R) :
  evalv env o = Some (ox, oy) -> evalv env scale = Some (sx, sy) ->
  evalv env c = Some (cx, cy) ->
  (sx <> 0 -> sy <> 0 ->
   evalv env (to_canvas o scale (of_canvas o scale c)) = Some (cx, cy))
  /\ (sx = 0 -> evalv env (of_canvas o scale c) = None).
Proof.
  intros Ho Hs Hc. split.
  - intros Hx Hy.
    rewrite (evalv_to_canvas env o scale _ ox oy sx sy _ _ Ho Hs
               (evalv_of_canvas env o scale c _ _ _ _ _ _ Ho Hs Hc Hx Hy)).
    do 2 f_equal; field; assumption.
  - intros Hx.
    pose proof (evalv_vsub env c o _ _ _ _ Hc Ho) as Hd.
    apply evalv_components in Hd, Hs. destruct Hd as [D1 D2], Hs as [S1 S2].
    unfold evalv, of_canvas, ops.ewvvdiv. cbn [eval fst snd].
    rewrite D1, S1. cbn [obind]. rewrite pdiv_by_zero by exact Hx. reflexivity.
Qed.

Lemma canvas_round_trip_witness :
  evalv (fun i => match i with
                  | O => fst origin | 1%nat => snd origin
                  | 2%nat => xScale | _ => yScale end)
        (to_canvas (Input 0, Input 1) (Input 2, Input 3)
           (of_canvas (Input 0, Input 1) (Input 2, Input 3) (Lit 100, Lit 50)))
  = Some (100, 50)
  /\ evalv (fun _ => 0) (of_canvas (Lit 1, Lit 1) (Lit 0, Lit 5) (Lit 100, Lit 50)) = None.
Proof.
  split.
  - apply (canvas_round_trip _ (Input 0, Input 1) (Input 2, Input 3) (Lit 100, Lit 50)
             (fst origin) (snd origin) xScale yScale 100 50); try reflexivity.
    + rewrite xScale_value. lra.
    + rewrite yScale_value. lra.
  - apply (canvas_round_trip (fun _ => 0) (Lit 1, Lit 1) (Lit 0, Lit 5) (Lit 100, Lit 50)
             1 1 0 5 100 50); reflexivity.
Defined.

(** X18.  When the two basis handles sit on the unit points of the axes
    (the map is the identity), the image point [canvasV2] is the point
    [canvasV1] itself. *)
Theorem unit_basis_fixes_point
    (env : nat -> R) (o scale ihat jhat c : Vec2) (ox oy sx sy cx cy : R) :
  evalv env o = Some (ox, oy) -> evalv env scale = Some (sx, sy) ->
  evalv env ihat = Some (ox + sx, oy) ->
  evalv env jhat = Some (ox, oy + sy) ->
  evalv env c = Some (cx, cy) ->
  sx <> 0 -> sy <> 0 ->
  evalv env (canvasV2 o scale ihat jhat c) = Some (cx, cy).
Proof.
  intros Ho Hs Hi Hj Hc Hx Hy.
  pose proof (evalv_of_canvas env o scale ihat _ _ _ _ _ _ Ho Hs Hi Hx Hy) as Ei.
  pose proof (evalv_of_canvas env o scale jhat _ _ _ _ _ _ Ho Hs Hj Hx Hy) as Ej.
  pose proof (evalv_of_canvas env o scale c _ _ _ _ _ _ Ho Hs Hc Hx Hy) as Ec.
  apply evalv_components in Ei, Ej. destruct Ei as [I1 I2], Ej as [J1 J2].
  assert (Hv2 : evalv env (v2 o scale ihat jhat c)
                = Some ((ox + sx - ox) / sx * ((cx - ox) / sx)
                        + (ox - ox) / sx * ((cy - oy) / sy),
                        (oy - oy) / sy * ((cx - ox) / sx)
                        + (oy + sy - oy) / sy * ((cy - oy) / sy))).
  { apply evalv_components in Ec. destruct Ec as [C1 C2].
    unfold evalv, v2, v1, ops.mvmul, ops.mtrans, ops.vdot. cbn [eval fst snd].
    rewrite I1, I2, J1, J2, C1, C2. reflexivity. }
  unfold canvasV2.
  rewrite (evalv_to_canvas env o scale _ ox oy sx sy _ _ Ho Hs Hv2).
  do 2 f_equal; field; repeat split; assumption.
Qed.

Lemma unit_basis_fixes_point_witness :
  evalv (fun _ => 0)
        (canvasV2 (Lit 10, Lit 20) (Lit 50, Lit 40) (Lit 60, Lit 20) (Lit 10, Lit 60)
                  (Lit 85, Lit 140))
  = Some (85, 140).
Proof.
  apply (unit_basis_fixes_point (fun _ => 0) (Lit 10, Lit 20) (Lit 50, Lit 40)
           (Lit 60, Lit 20) (Lit 10, Lit 60) (Lit 85, Lit 140) 10 20 50 40 85 140);
    try (cbn; do 2 f_equal; lra); try reflexivity; lra.
Defined.

(** X19.  The drag constraint clamps a position into the quadrant above and
    to the right of the origin: the result is never left of or below the
    origin, never left of or below the position dragged to, unchanged by a
    second application, and equal to the position when that already lies in
    the quadrant. *)
Theorem dragConstraint_clamps (o xy : R * R) :
  fst o <= fst (dragConstraint o xy)
  /\ snd o <= snd (dragConstraint o xy)
  /\ fst xy <= fst (dragConstraint o xy)
  /\ snd xy <= snd (dragConstraint o xy)
  /\ dragConstraint o (dragConstraint o xy) = dragConstraint o xy
  /\ (fst o <= fst xy -> snd o <= snd xy -> dragConstraint o xy = xy).
Proof.
  destruct o as [ox oy], xy as [x y]. unfold dragConstraint. cbn [fst snd].
  repeat split; try apply Rmax_l; try apply Rmax_r.
  - f_equal; apply Rmax_right; apply Rmax_l.
  - intros Hx Hy. f_equal; apply Rmax_right; assumption.
Qed.

Lemma dragConstraint_clamps_witness :
  dragConstraint origin (0, 0) = (0, 0)
  /\ dragConstraint origin (-500, 3) = (fst origin, 3).
Proof.
  destruct (dragConstraint_clamps origin (0, 0)) as (_ & _ & _ & _ & _ & Hin).
  split.
  - apply Hin; unfold origin, canvasHeight; cbn [fst snd]; lra.
  - unfold dragConstraint. cbn [fst snd]. f_equal.
    + apply Rmax_left. unfold origin, canvasHeight. cbn [fst]. lra.
    + apply Rmax_right. unfold origin, canvasHeight. cbn [snd]. lra.
Defined.

Lemma dragConstraint_bounds (xy : R * R) :
  fst origin <= fst (dragConstraint origin xy)
  /\ snd origin <= snd (dragConstraint origin xy).
Proof. unfold dragConstraint. cbn [fst snd]. split; apply Rmax_l. Qed.

Lemma evalv_origin_num (env : nat -> R) : evalv env origin_num = Some origin.
Proof.
  unfold evalv, origin_num, origin, canvasHeight. cbn [eval fst snd olift2 obind].
  rewrite !pdiv_defined by lra. cbn [obind].
  apply f_equal. apply f_equal2; lra.
Qed.

Lemma evalv_scale_num (env : nat -> R) : evalv env scale_num = Some (xScale, yScale).
Proof.
  unfold evalv, scale_num, xScale, yScale, axesWidth, axesHeight, canvasWidth,
    numTickMarks.
  cbn [eval fst snd olift2 obind].
  repeat (rewrite pdiv_defined by lra; cbn [obind]).
  apply f_equal. apply f_equal2; lra.
Qed.

(** X20.  In exact arithmetic, handles placed by the drag constraint give a
    matrix without negative entries, so the discriminant under the square
    root of the eigenspace lines is never negative and the square root has
    a value.  In binary64 this does not carry over: with [ihat] dropped at
    [(17.726972984985665, 0)] and [jhat] at [(-1000, -47.47514713113021)]
    the four entries are non-negative, yet the radicand
    [a^2 + 4bc - 2ad + d^2] is computed as [-2^-51], its square root is NaN
    and so are both components of both line directions. *)
Theorem dragged_basis_discriminant
    (env : nat -> R) (o scale ihat jhat : Vec2) (drag1 drag2 : R * R) :
  evalv env o = Some origin ->
  evalv env scale = Some (xScale, yScale) ->
  evalv env ihat = Some (dragConstraint origin drag1) ->
  evalv env jhat = Some (dragConstraint origin drag2) ->
  (exists a c b d : R,
    evalv env (of_canvas o scale ihat) = Some (a, c)
    /\ evalv env (of_canvas o scale jhat) = Some (b, d)
    /\ 0 <= a /\ 0 <= c /\ 0 <= b /\ 0 <= d
    /\ 0 <= Eigen.discr a b c d
    /\ eval env (Sqrt (Eigen.radicand (fst (of_canvas o scale ihat))
                                      (fst (of_canvas o scale jhat))
                                      (snd (of_canvas o scale ihat))
                                      (snd (of_canvas o scale jhat))))
       = Some (sqrt (Eigen.discr a b c d)))
  /\ (PrimFloat.leb PrimFloat.zero
        (feval dragged_handles64
           (fst (of_canvas origin_num scale_num (Input 0, Input 1)))) = true
      /\ PrimFloat.leb PrimFloat.zero
           (feval dragged_handles64
              (snd (of_canvas origin_num scale_num (Input 0, Input 1)))) = true
      /\ PrimFloat.leb PrimFloat.zero
           (feval dragged_handles64
              (fst (of_canvas origin_num scale_num (Input 2, Input 3)))) = true
      /\ PrimFloat.leb PrimFloat.zero
           (feval dragged_handles64
              (snd (of_canvas origin_num scale_num (Input 2, Input 3)))) = true
      /\ feval dragged_handles64
           (Eigen.radicand
              (fst (of_canvas origin_num scale_num (Input 0, Input 1)))
              (fst (of_canvas origin_num scale_num (Input 2, Input 3)))
              (snd (of_canvas origin_num scale_num (Input 0, Input 1)))
              (snd (of_canvas origin_num scale_num (Input 2, Input 3))))
         = feval dragged_handles64 (Frac (-1) 2251799813685248)
      /\ PrimFloat.is_nan
           (feval dragged_handles64
              (Sqrt (Eigen.radicand
                       (fst (of_canvas origin_num scale_num (Input 0, Input 1)))
                       (fst (of_canvas origin_num scale_num (Input 2, Input 3)))
                       (snd (of_canvas origin_num scale_num (Input 0, Input 1)))
                       (snd (of_canvas origin_num scale_num (Input 2, Input 3))))))
         = true
      /\ PrimFloat.is_nan
           (feval dragged_handles64
              (fst (Eigen.el1_vec
                      (fst (of_canvas origin_num scale_num (Input 0, Input 1)))
                      (fst (of_canvas origin_num scale_num (Input 2, Input 3)))
                      (snd (of_canvas origin_num scale_num (Input 0, Input 1)))
                      (snd (of_canvas origin_num scale_num (Input 2, Input 3))))))
         = true
      /\ PrimFloat.is_nan
           (feval dragged_handles64
              (snd (Eigen.el1_vec
                      (fst (of_canvas origin_num scale_num (Input 0, Input 1)))
                      (fst (of_canvas origin_num scale_num (Input 2, Input 3)))
                      (snd (of_canvas origin_num scale_num (Input 0, Input 1)))
                      (snd (of_canvas origin_num scale_num (Input 2, Input 3))))))
         = true
      /\ PrimFloat.is_nan
           (feval dragged_handles64
              (fst (Eigen.el2_vec
                      (fst (of_canvas origin_num scale_num (Input 0, Input 1)))
                      (fst (of_canvas origin_num scale_num (Input 2, Input 3)))
                      (snd (of_canvas origin_num scale_num (Input 0, Input 1)))
                      (snd (of_canvas origin_num scale_num (Input 2, Input 3))))))
         = true
      /\ PrimFloat.is_nan
           (feval dragged_handles64
              (snd (Eigen.el2_vec
                      (fst (of_canvas origin_num scale_num (Input 0, Input 1)))
                      (fst (of_canvas origin_num scale_num (Input 2, Input 3)))
                      (snd (of_canvas origin_num scale_num (Input 0, Input 1)))
                      (snd (of_canvas origin_num scale_num (Input 2, Input 3))))))
         = true).
Proof.
  intros Ho Hs Hi Hj. split.
  - destruct (dragConstraint_bounds drag1) as (I1 & I2).
    destruct (dragConstraint_bounds drag2) as (J1 & J2).
    destruct (dragConstraint origin drag1) as [ix iy].
    destruct (dragConstraint origin drag2) as [jx jy].
    cbn [fst snd] in *.
    assert (Hx : 0 < xScale) by (rewrite xScale_value; lra).
    assert (Hy : 0 < yScale) by (rewrite yScale_value; lra).
    destruct origin as [ox oy] eqn:Eo. cbn [fst snd] in *.
    assert (Ei : evalv env (of_canvas o scale ihat)
                 = Some ((ix - ox) / xScale, (iy - oy) / yScale))
      by (apply (evalv_of_canvas env o scale ihat ox oy); try assumption; lra).
    assert (Ej : evalv env (of_canvas o scale jhat)
                 = Some ((jx - ox) / xScale, (jy - oy) / yScale))
      by (apply (evalv_of_canvas env o scale jhat ox oy); try assumption; lra).
    assert (Pa : 0 <= (ix - ox) / xScale)
      by (apply Rmult_le_pos; [lra | left; apply Rinv_0_lt_compat; exact Hx]).
    assert (Pc : 0 <= (iy - oy) / yScale)
      by (apply Rmult_le_pos; [lra | left; apply Rinv_0_lt_compat; exact Hy]).
    assert (Pb : 0 <= (jx - ox) / xScale)
      by (apply Rmult_le_pos; [lra | left; apply Rinv_0_lt_compat; exact Hx]).
    assert (Pd : 0 <= (jy - oy) / yScale)
      by (apply Rmult_le_pos; [lra | left; apply Rinv_0_lt_compat; exact Hy]).
    set (a := (ix - ox) / xScale) in *. set (c := (iy - oy) / yScale) in *.
    set (b := (jx - ox) / xScale) in *. set (d := (jy - oy) / yScale) in *.
    assert (HD : 0 <= Eigen.discr a b c d).
    { unfold Eigen.discr. pose proof (sum_squares_nonneg (a - d) 0) as Hsq.
      assert (0 <= b * c) by (apply Rmult_le_pos; assumption). lra. }
    exists a, c, b, d. repeat split; try assumption.
    apply evalv_components in Ei, Ej. destruct Ei as [E1 E2], Ej as [E3 E4].
    cbn [eval]. rewrite (eval_radicand env _ _ _ _ a b c d E1 E3 E2 E4).
    cbn [obind]. apply psqrt_defined. exact HD.
  - repeat match goal with |- _ /\ _ => split end; vm_compute; reflexivity.
Qed.

End EigenLayoutExtras.

Section EigenLayoutWitness.
Import Bloom EigenLayout.
Local Open Scope R_scope.

(** In exact arithmetic: [ihat] dragged to [(-500, 3)] and [jhat] to
    [(10, -900)], each clamped by the drag constraint. *)
Lemma dragged_basis_discriminant_witness :
  exists a c b d : R,
    evalv (fun i => match i with
                    | O => fst (dragConstraint origin (-500, 3))
                    | 1%nat => snd (dragConstraint origin (-500, 3))
                    | 2%nat => fst (dragConstraint origin (10, -900))
                    | _ => snd (dragConstraint origin (10, -900)) end)
          (of_canvas origin_num scale_num (Input 0, Input 1))
    = Some (a, c)
    /\ evalv (fun i => match i with
                       | O => fst (dragConstraint origin (-500, 3))
                       | 1%nat => snd (dragConstraint origin (-500, 3))
                       | 2%nat => fst (dragConstraint origin (10, -900))
                       | _ => snd (dragConstraint origin (10, -900)) end)
             (of_canvas origin_num scale_num (Input 2, Input 3))
       = Some (b, d)
    /\ 0 <= a /\ 0 <= c /\ 0 <= b /\ 0 <= d
    /\ 0 <= Eigen.discr a b c d.
Proof.
  destruct (dragged_basis_discriminant
              (fun i => match i with
                        | O => fst (dragConstraint origin (-500, 3))
                        | 1%nat => snd (dragConstraint origin (-500, 3))
                        | 2%nat => fst (dragConstraint origin (10, -900))
                        | _ => snd (dragConstraint origin (10, -900)) end)
              origin_num scale_num (Input 0, Input 1) (Input 2, Input 3)
              (-500, 3) (10, -900))
    as ((a & c & b & d & H1 & H2 & Pa & Pc & Pb & Pd & HD & _) & _);
    [apply evalv_origin_num | apply evalv_scale_num | reflexivity | reflexivity |].
  exists a, c, b, d. repeat split; assumption.
Defined.

End EigenLayoutWitness.

(** ** More on the eigenspace lines *)
Section EigenLineExtras.
Import Bloom Eigen.
Local Open Scope R_scope.

(** The normalised direction is almost a unit vector: its squared length is
    [(n / (n + eps))^2] with [n = |[x, 1]| >= 1]. *)
Lemma normalize_dir_length (x : R) :
  1 - 2 * eps_denom
  < fst (normalize_dir x) * fst (normalize_dir x) + snd (normalize_dir x) * snd (normalize_dir x)
  < 1.
Proof.
  unfold normalize_dir. cbn [fst snd].
  pose proof eps_denom_pos as Heps.
  assert (Heps1 : eps_denom < 1) by (unfold eps_denom; lra).
  assert (HQ : sqrt (x * x + 1 * 1) * sqrt (x * x + 1 * 1) = x * x + 1 * 1)
    by (apply sqrt_sqrt; apply sum_squares_nonneg).
  assert (Hn1 : 1 <= sqrt (x * x + 1 * 1)).
  { rewrite <- sqrt_1 at 1. apply sqrt_le_1_alt. nra. }
  set (n := sqrt (x * x + 1 * 1)) in *.
  replace (x / (n + eps_denom) * (x / (n + eps_denom))
           + 1 / (n + eps_denom) * (1 / (n + eps_denom)))
    with (n * n / ((n + eps_denom) * (n + eps_denom))) by (rewrite HQ; field; lra).
  assert (HP : 0 < (n + eps_denom) * (n + eps_denom)) by nra.
  assert (H1 : 2 * n + eps_denom < 2 * ((n + eps_denom) * (n + eps_denom))) by nra.
  assert (H2 : eps_denom * (2 * n + eps_denom)
               < eps_denom * (2 * ((n + eps_denom) * (n + eps_denom))))
    by (apply Rmult_lt_compat_l; assumption).
  split.
  - apply (Rmult_lt_reg_r ((n + eps_denom) * (n + eps_denom))); [exact HP |].
    unfold Rdiv. rewrite Rmult_assoc, Rinv_l by lra. clear - H2. nra.
  - apply (Rmult_lt_reg_r ((n + eps_denom) * (n + eps_denom))); [exact HP |].
    unfold Rdiv. rewrite Rmult_assoc, Rinv_l by lra. nra.
Qed.

Lemma normalize_dir_parallel (x y : R) : parallel (normalize_dir x) (normalize_dir y) -> x = y.
Proof.
  unfold parallel, normalize_dir. cbn [fst snd]. intros H.
  pose proof (norm_eps_pos x) as Hx. pose proof (norm_eps_pos y) as Hy.
  set (nx := sqrt (x * x + 1 * 1) + eps_denom) in *.
  set (ny := sqrt (y * y + 1 * 1) + eps_denom) in *.
  assert (E : (x - y) / (nx * ny) = 0).
  { rewrite <- H. field. lra. }
  assert (Hnn : 0 < nx * ny) by (apply Rmult_lt_0_compat; assumption).
  unfold Rdiv in E. apply Rmult_integral in E. destruct E as [E | E]; [lra |].
  exfalso. apply (Rinv_neq_0_compat (nx * ny)); [lra | exact E].
Qed.

(** X21.  With [c <> 0], in exact arithmetic: when the eigenvalues are real
    and distinct the two eigenspace lines are two vectors that are not
    parallel, so two different lines are drawn; each is slightly shorter
    than a unit vector (squared length between [1 - 2 eps] and 1, with
    [eps = 1e-5], because the engine divides by the length plus [eps]).
    When the discriminant is 0 the two lines coincide. *)
Theorem eigen_lines_distinct
    (env : nat -> R) (a b c d : Num) (A B C D : R) :
  eval env a = Some A -> eval env b = Some B ->
  eval env c = Some C -> eval env d = Some D ->
  C <> 0 ->
  (0 < discr A B C D ->
   exists v1 v2 : R * R,
     evalv env (el1_vec a b c d) = Some v1
     /\ evalv env (el2_vec a b c d) = Some v2
     /\ 1 - 2 * eps_denom < fst v1 * fst v1 + snd v1 * snd v1 < 1
     /\ 1 - 2 * eps_denom < fst v2 * fst v2 + snd v2 * snd v2 < 1
     /\ ~ parallel v1 v2)
  /\ (discr A B C D = 0 ->
      exists v : R * R,
        evalv env (el1_vec a b c d) = Some v
        /\ evalv env (el2_vec a b c d) = Some v).
Proof.
  intros Ha Hb Hc Hd HC. split.
  - intros HD. assert (HD' : 0 <= discr A B C D) by lra.
    exists (code_dir A B C D 1), (code_dir A B C D (-1)).
    split; [apply (eval_el1_vec env a b c d A B C D Ha Hb Hc Hd HC HD') |].
    split; [apply (eval_el2_vec env a b c d A B C D Ha Hb Hc Hd HC HD') |].
    unfold code_dir.
    split; [apply normalize_dir_length |]. split; [apply normalize_dir_length |].
    intros Hpar. apply normalize_dir_parallel in Hpar.
    pose proof (sqrt_lt_R0 _ HD) as Hs.
    assert (E : 2 * sqrt (discr A B C D) = 0).
    { apply (Rmult_eq_reg_r (/ (2 * C))); [| apply Rinv_neq_0_compat; lra].
      unfold Rdiv in Hpar. lra. }
    lra.
  - intros HD. assert (HD' : 0 <= discr A B C D) by lra.
    exists (code_dir A B C D 1).
    split; [apply (eval_el1_vec env a b c d A B C D Ha Hb Hc Hd HC HD') |].
    rewrite (eval_el2_vec env a b c d A B C D Ha Hb Hc Hd HC HD').
    unfold code_dir. rewrite HD, sqrt_0. do 3 f_equal. ring.
Qed.

Lemma eigen_lines_distinct_witness :
  (0 < discr 1 2 1 2 ->
   exists v1 v2 : R * R,
      evalv (fun _ => 0) (el1_vec (Lit 1) (Lit 2) (Lit 1) (Lit 2)) = Some v1
      /\ evalv (fun _ => 0) (el2_vec (Lit 1) (Lit 2) (Lit 1) (Lit 2)) = Some v2
      /\ 1 - 2 * eps_denom < fst v1 * fst v1 + snd v1 * snd v1 < 1
      /\ 1 - 2 * eps_denom < fst v2 * fst v2 + snd v2 * snd v2 < 1
      /\ ~ parallel v1 v2)
  /\ (discr 1 2 1 2 = 0 ->
      exists v : R * R,
        evalv (fun _ => 0) (el1_vec (Lit 1) (Lit 2) (Lit 1) (Lit 2)) = Some v
        /\ evalv (fun _ => 0) (el2_vec (Lit 1) (Lit 2) (Lit 1) (Lit 2)) = Some v).
Proof.
  apply (eigen_lines_distinct (fun _ => 0) (Lit 1) (Lit 2) (Lit 1) (Lit 2) 1 2 1 2);
    try reflexivity.
  lra.
Defined.

End EigenLineExtras.

(** ** Labels: the [Label] helper and the label rules *)

Section LabelExtras.
Import Substance.
Local Open Scope string_scope.

Lemma Ty_eqb_eq (s t : Ty) : Ty_eqb s t = true <-> s = t.
Proof. destruct s, t; cbn; split; intros H; (reflexivity || discriminate). Qed.

Lemma Inst_eqb_eq (x y : Inst) : Inst_eqb x y = true <-> x = y.
Proof.
  destruct x as [tx ux], y as [ty_ uy]. unfold Inst_eqb. cbn [ty uid].
  rewrite andb_true_iff, Ty_eqb_eq, Nat.eqb_eq. split.
  - intros [-> ->]. reflexivity.
  - intros [= -> ->]. split; reflexivity.
Qed.

Lemma Inst_eqb_refl (x : Inst) : Inst_eqb x x = true.
Proof. apply Inst_eqb_eq. reflexivity. Qed.

Lemma test_snoc (g : Graph) (p : Pred) (xs : list Inst) (a : list (Inst * string * string)) :
  test (mkGraph (insts g) (facts g ++ [mkFact p xs]) a) p xs = true.
Proof.
  unfold test. cbn [facts]. rewrite existsb_app. cbn.
  assert (Hp : Pred_eqb p p = true) by (destruct p; reflexivity).
  assert (Ha : args_eqb xs xs = true).
  { induction xs as [| x xs IH]; [reflexivity |]. cbn. rewrite Inst_eqb_refl. exact IH. }
  rewrite Hp, Ha. cbn. apply orb_true_r.
Qed.

(** X22.  After [Label(obj, label)] on any graph, the label rule applies to
    [obj], and the text it shows is [label] when that is not empty and "d"
    when it is empty: an empty label is displayed as "d", never as nothing.
    The texts of all other objects are as before. *)
Theorem Label_then_label_rule (g : Graph) (obj : Inst) (label : string) :
  test (snd (Label obj label g)) LabelPredicate [obj] = true
  /\ edge_label_string (snd (Label obj label g)) obj
     = (if String.eqb label "" then "d" else label)
  /\ edge_label_string (snd (Label obj label g)) obj <> ""
  /\ (forall other, other <> obj ->
        edge_label_string (snd (Label obj label g)) other = edge_label_string g other
        /\ point_label_string (snd (Label obj label g)) other
           = point_label_string g other).
Proof.
  assert (Hg : snd (Label obj label g)
               = mkGraph (insts g) (facts g ++ [mkFact LabelPredicate [obj]])
                         (attrs g ++ [(obj, "label", label)])) by reflexivity.
  rewrite Hg.
  assert (Hget : forall x key,
            get_attr (mkGraph (insts g) (facts g ++ [mkFact LabelPredicate [obj]])
                              (attrs g ++ [(obj, "label", label)])) x key
            = if Inst_eqb obj x && String.eqb "label" key then Some label
              else get_attr g x key).
  { intros x key. unfold get_attr. cbn [attrs]. rewrite fold_left_app. reflexivity. }
  split; [apply test_snoc |].
  assert (Hown : edge_label_string
                   (mkGraph (insts g) (facts g ++ [mkFact LabelPredicate [obj]])
                            (attrs g ++ [(obj, "label", label)])) obj
                 = (if String.eqb label "" then "d" else label)).
  { unfold edge_label_string. rewrite Hget, Inst_eqb_refl. reflexivity. }
  split; [exact Hown |]. split.
  - rewrite Hown. destruct (String.eqb label "") eqn:E; [discriminate |].
    intros ->. discriminate.
  - intros other Hne.
    assert (Hno : Inst_eqb obj other = false).
    { destruct (Inst_eqb obj other) eqn:E; [| reflexivity].
      apply Inst_eqb_eq in E. congruence. }
    unfold edge_label_string, point_label_string. rewrite !Hget, Hno. split; reflexivity.
Qed.

Lemma Label_then_label_rule_witness :
  test (snd (Label (mkInst Edge 0) "" empty)) LabelPredicate [mkInst Edge 0] = true
  /\ edge_label_string (snd (Label (mkInst Edge 0) "" empty)) (mkInst Edge 0) = "d"
  /\ edge_label_string (snd (Label (mkInst Edge 0) "r" empty)) (mkInst Edge 0) = "r"
  /\ point_label_string (snd (Label (mkInst Edge 0) "r" empty)) (mkInst Point 1)
     = point_label_string empty (mkInst Point 1).
Proof.
  destruct (Label_then_label_rule empty (mkInst Edge 0) "") as (Ht & He & _ & _).
  destruct (Label_then_label_rule empty (mkInst Edge 0) "r") as (_ & Hr & _ & Ho).
  split; [exact Ht |]. split; [exact He |]. split; [exact Hr |].
  apply (Ho (mkInst Point 1)). discriminate.
Defined.

End LabelExtras.
